(** * Numerical kernels of the lecture notebooks: DFT, FFT and the
      finite-difference Poisson assembly

    The notebooks [02-fft.py] and [03-fd-poisson.py] are embedded as Rocq
    functions.  Floating-point numbers are read as exact real numbers
    ([R] of the Standard Library), complex numbers as pairs of reals, numpy
    arrays and Python lists as [list]s, and Python exceptions as the
    [Raise] branch of a small result monad. *)

From Stdlib Require Import Reals List ZArith Arith Lia Lra Bool FinFun.
From Equations Require Import Equations.
Import ListNotations.

(** ** Python results: a value or a raised exception *)

Module Py.

Inductive exn : Type :=
| AssertionError
| ValueError
| ZeroDivisionError
| NotImplementedError.

Inductive result (A : Type) : Type :=
| Ok (a : A)
| Raise (e : exn).

Arguments Ok {A} a.
Arguments Raise {A} e.

Definition bind {A B : Type} (r : result A) (k : A -> result B) : result B :=
  match r with
  | Ok a => k a
  | Raise e => Raise e
  end.

(** A slice [start:stop:step]; [None] is an omitted bound. *)
Record slice : Type := Slice {
  start : option Z;
  stop : option Z;
  step : option Z
}.

(** Clamping of one bound of a slice against the length, as CPython's
    [PySlice_AdjustIndices] does it. *)
Definition adjust (len st : Z) (bound : Z) : Z :=
  if (bound <? 0)%Z then
    let b := (bound + len)%Z in
    if (b <? 0)%Z then (if (st <? 0)%Z then (-1)%Z else 0%Z) else b
  else if (len <=? bound)%Z then
    (if (st <? 0)%Z then (len - 1)%Z else len)
  else bound.

(** The positions a slice selects in a sequence of [len] elements, in the
    order of the slice; a zero step is a [ValueError]. *)
Definition slice_indices (s : slice) (len : nat) : result (list nat) :=
  let n := Z.of_nat len in
  let st := match step s with Some k => k | None => 1%Z end in
  if (st =? 0)%Z then Raise ValueError else
  let lo := match start s with
            | Some b => adjust n st b
            | None => if (st <? 0)%Z then (n - 1)%Z else 0%Z
            end in
  let hi := match stop s with
            | Some b => adjust n st b
            | None => if (st <? 0)%Z then (-1)%Z else n
            end in
  let count :=
    if (st <? 0)%Z then
      (if (hi <? lo)%Z then ((lo - hi - 1) / (- st) + 1)%Z else 0%Z)
    else
      (if (lo <? hi)%Z then ((hi - lo - 1) / st + 1)%Z else 0%Z) in
  Ok (map (fun q => Z.to_nat (lo + Z.of_nat q * st)) (seq 0 (Z.to_nat count))).

(** In-place update of one position. *)
Fixpoint update {A : Type} (l : list A) (i : nat) (f : A -> A) : list A :=
  match l, i with
  | [], _ => []
  | a :: l', O => f a :: l'
  | a :: l', S i' => a :: update l' i' f
  end.

(** numpy broadcasts the right-hand side of a one-dimensional slice
    assignment: its length is the slice's, or it is 1 and repeated. *)
Definition broadcast {A : Type} (vals : list A) (k : nat) : result (list A) :=
  if length vals =? k then Ok vals
  else match vals with
       | [v] => Ok (repeat v k)
       | _ => Raise ValueError
       end.

(** [arr[s] = op(arr[s], vals)] position by position: [op old v] is stored
    at every selected position. *)
Definition slice_update {A : Type} (op : A -> A -> A)
    (arr : list A) (s : slice) (vals : list A) : result (list A) :=
  bind (slice_indices s (length arr)) (fun idx =>
  bind (broadcast vals (length idx)) (fun vs =>
  Ok (fold_left (fun acc iv => update acc (fst iv) (fun old => op old (snd iv)))
                (combine idx vs) arr))).

(** [arr[s] = vals] *)
Definition setitem {A : Type} (arr : list A) (s : slice) (vals : list A) :
    result (list A) :=
  slice_update (fun _ v => v) arr s vals.

End Py.

Import Py.

Declare Scope py_scope.
Delimit Scope py_scope with py.
Notation "x <- e1 ;; e2" := (bind e1 (fun x => e2))
  (at level 61, e1 at next level, right associativity) : py_scope.
Open Scope py_scope.

(** ** Complex numbers over the reals *)

Module Cplx.

Definition C : Type := (R * R)%type.

Definition Re (z : C) : R := fst z.
Definition Im (z : C) : R := snd z.

Definition RtoC (x : R) : C := (x, 0%R).
Definition NtoC (n : nat) : C := RtoC (INR n).
Definition ZtoC (n : Z) : C := RtoC (IZR n).

Definition C0 : C := RtoC 0.
Definition C1 : C := RtoC 1.
(** The imaginary unit, Python's [1j]. *)
Definition Ci : C := (0%R, 1%R).

Definition Cadd (a b : C) : C := (Re a + Re b, Im a + Im b)%R.
Definition Copp (a : C) : C := (- Re a, - Im a)%R.
Definition Csub (a b : C) : C := Cadd a (Copp b).
Definition Cmul (a b : C) : C :=
  (Re a * Re b - Im a * Im b, Re a * Im b + Im a * Re b)%R.
Definition Cinv (a : C) : C :=
  (Re a / (Re a * Re a + Im a * Im a),
   - Im a / (Re a * Re a + Im a * Im a))%R.
Definition Cdiv (a b : C) : C := Cmul a (Cinv b).

(** The complex exponential [e^(x+iy) = e^x (cos y + i sin y)], numpy's
    [np.exp] on a complex argument. *)
Definition Cexp (z : C) : C :=
  (exp (Re z) * cos (Im z), exp (Re z) * sin (Im z))%R.

(** The finite sum [f 0 + (f 1 + ... + (f (n-1) + 0))]. *)
Fixpoint csum (n : nat) (f : nat -> C) : C :=
  match n with
  | O => C0
  | S n' => Cadd (f 0) (csum n' (fun i => f (S i)))
  end.

(** Complex conjugate. *)
Definition Cconj (z : C) : C := (Re z, - Im z)%R.

(** The root of unity [e^(-2 pi i j / N)]. *)
Definition omega (N j : nat) : C :=
  (cos (2 * PI * INR j / INR N), - sin (2 * PI * INR j / INR N))%R.

End Cplx.

Import Cplx.

Declare Scope C_scope.
Delimit Scope C_scope with C.
Bind Scope C_scope with C.
Infix "+" := Cadd : C_scope.
Infix "-" := Csub : C_scope.
Infix "*" := Cmul : C_scope.
Infix "/" := Cdiv : C_scope.
Notation "- x" := (Copp x) : C_scope.

(** ** The notebook [02-fft.py] *)

Module Fft.

(** [np.arange(N)] *)
Definition arange (N : nat) : list nat := seq 0 N.

(** Elementwise product of two sequences, [np.multiply]; the two have one
    length wherever the notebook calls it. *)
Fixpoint multiply (u v : list C) : list C :=
  match u, v with
  | a :: u', b :: v' => (a * b)%C :: multiply u' v'
  | _, _ => []
  end.

(** Sum of the elementwise products, [np.dot] on two vectors of one
    length. *)
Definition dot (u v : list C) : C := fold_right Cadd C0 (multiply u v).

(** Matrix-vector product, [np.dot] on a matrix (list of rows) and a
    vector. *)
Definition matvec (M : list (list C)) (x : list C) : list C :=
  map (fun row => dot row x) M.

(** The N-by-N matrix [np.exp(-2j * np.pi * k * n / N)]: [n] is the row
    vector [0..N-1] and [k] the same numbers as a column vector, so that
    broadcasting puts [k * n] in row [k], column [n]. *)
Definition DFT_matrix (N : nat) : list (list C) :=
  map (fun k =>
    map (fun n =>
      Cexp (- (RtoC 2 * Ci) * RtoC PI * NtoC k * NtoC n / NtoC N)%C)
        (arange N))
      (arange N).

Definition DFT (x : list C) : list C :=
  let N := length x in
  let M := DFT_matrix N in
  matvec M x.

(** Python's [1/N] on integers: true division, [ZeroDivisionError] at 0. *)
Definition int_truediv (a b : nat) : result R :=
  if b =? 0 then Raise ZeroDivisionError else Ok (INR a / INR b)%R.

(** The matrix [1/N * np.exp(2j * np.pi * k * n / N)]: here [k] is the
    row vector and [n] the column vector, so the entry in row [n], column
    [k] has exponent [k * n]; [invN] is the value of [1/N]. *)
Definition IDFT_matrix (invN : R) (N : nat) : list (list C) :=
  map (fun n =>
    map (fun k =>
      (RtoC invN *
       Cexp (RtoC 2 * Ci * RtoC PI * NtoC k * NtoC n / NtoC N))%C)
        (arange N))
      (arange N).

Definition IDFT (X : list C) : result (list C) :=
  let N := length X in
  invN <- int_truediv 1 N ;;
  let m := IDFT_matrix invN N in
  Ok (matvec m X).

(** [math.log2(N).is_integer()]: [math.log2] raises [ValueError] at 0;
    elsewhere the definition is the exact test, whether [N] is a power of
    two.  The code runs the test on the double nearest to the logarithm.
    The two tests agree at 0, on every power of two (the logarithm is then
    an integer, and a double), and on every other [N] below
    [log2_exact_limit]: there the logarithm is further from every integer
    than half the spacing of the doubles around it, so that its nearest
    double is not an integer ([log2_far_from_integers]).  They differ from
    [log2_exact_limit] on: the logarithms of [2^49 - 1] and [2^49 + 1] are
    nearer to 49 than to any other double ([log2R_near_below],
    [log2R_near_above]), and the code's test holds of both.  The statement
    of which lengths [FFT] rejects carries the bound as a hypothesis. *)
Definition log2_is_integer (N : nat) : result bool :=
  if N =? 0 then Raise ValueError else Ok (2 ^ Nat.log2 N =? N).

(** The first length, [2^49 - 1], on which the floating-point test departs
    from the exact one. *)
Definition log2_exact_limit : Z := 2 ^ 49 - 1.

(** The logarithm to base 2 that [math.log2] approximates, and half the
    distance between neighbouring doubles from 32 up to 64, where the
    logarithms of the lengths around [2^49] lie (the doubles around a
    smaller integer are closer together). *)
Definition log2R (n : Z) : R := (ln (IZR n) / ln 2)%R.
Definition half_spacing : R := (/ 2 ^ 48)%R.

(** [np.empty(n, dtype=complex)]: [n] cells of unspecified content; [FFT]
    overwrites every cell before it returns the array. *)
Definition np_empty (n : nat) : list C := repeat C0 n.

(** [x[k]] for an index that is in range at every use below. *)
Definition item (x : list C) (k : nat) : C := nth k x C0.

Lemma length_multiply (u v : list C) :
  length (multiply u v) = Nat.min (length u) (length v).
Proof.
  revert v; induction u as [|a u IH]; intros [|b v]; simpl; auto.
Qed.

Lemma half_lt (n : nat) : 1 < n -> n / 2 < n.
Proof. intros H. apply Nat.div_lt; lia. Qed.

(** [FFT(x, cutoff=1)]; the parameter [cutoff] is never used.  The
    recursion is on sequences of half the length. *)
Equations? FFT (x : list C) : result (list C) by wf (length x) lt :=
FFT x with log2_is_integer (length x) => {
  | Raise e => Raise e
  | Ok false => Raise AssertionError
  | Ok true with le_lt_dec (length x) 1 => {
    | left _ => Ok [item x 0]
    | right _ =>
      let N := length x in
      let M := N / 2 in
      let x_even := map (fun k => (item x k + item x (k + M))%C) (seq 0 M) in
      let x_odd := map (fun k => (item x k - item x (k + M))%C) (seq 0 M) in
      let factor :=
        map (fun k => Cexp (RtoC (-2 * PI) * Ci * NtoC k / NtoC N)%C)
            (seq 0 M) in
      a <- FFT x_even ;;
      b <- FFT (multiply factor x_odd) ;;
      result <- Ok (np_empty (length a + length b)) ;;
      result <- setitem result (Slice None None (Some 2%Z)) a ;;
      result <- setitem result (Slice (Some 1%Z) None (Some 2%Z)) b ;;
      Ok result
    }
  }.
Proof.
  - unfold x_even. rewrite length_map, length_seq. now apply half_lt.
  - unfold factor, x_odd.
    rewrite length_multiply, !length_map, !length_seq, Nat.min_id.
    now apply half_lt.
Qed.

(** The sequences the recursive case of [FFT] forms from its input. *)
Definition x_even (x : list C) : list C :=
  map (fun k => (item x k + item x (k + length x / 2))%C)
      (seq 0 (length x / 2)).
Definition x_odd (x : list C) : list C :=
  map (fun k => (item x k - item x (k + length x / 2))%C)
      (seq 0 (length x / 2)).
Definition factor (N : nat) : list C :=
  map (fun k => Cexp (RtoC (-2 * PI) * Ci * NtoC k / NtoC N)%C)
      (seq 0 (N / 2)).

(** The defining sum of the transform as the notebook's opening cell
    writes it: [X_k = sum_n x_n * e^(-(i 2 pi / N) k n)]. *)
Definition DFT_formula (x : list C) (k : nat) : C :=
  csum (length x) (fun n =>
    (item x n
     * Cexp (- (Ci * RtoC 2 * RtoC PI / NtoC (length x)) * NtoC k * NtoC n))%C).

(** The circular convolution of two sequences of one length [N]:
    entry [n] is the sum of [a[l] * b[(n - l) mod N]]. *)
Definition cconv (a b : list C) : list C :=
  map (fun n =>
    csum (length a) (fun l =>
      (item a l * item b ((n + length a - l) mod length a))%C))
      (seq 0 (length a)).

(** The sequence [a_0, b_0, a_1, b_1, ...] that the last lines of [FFT]
    build (its closing comment). *)
Fixpoint interleave (a b : list C) : list C :=
  match a, b with
  | u :: a', v :: b' => u :: v :: interleave a' b'
  | _, _ => []
  end.

Definition IFFT (X : list C) : result (list C) := Raise NotImplementedError.

(** [np.round]: the nearest integer, a half going to the even neighbour.
    [up (r - 1/2)] is the integer [z] with [z - 1/2 <= r < z + 1/2]. *)
Definition np_round (r : R) : Z :=
  let z := up (r - / 2) in
  if Req_dec_T r (IZR z - / 2)
  then (if Z.even z then z else (z - 1)%Z)
  else z.

(** The cell "FFT-Multiplication": the digits of 1234 and 5678, lowest
    first and zero-padded, are multiplied through the transform. *)
Definition a_digits : list C := map ZtoC [4; 3; 2; 1; 0; 0; 0; 0]%Z.
Definition b_digits : list C := map ZtoC [8; 7; 6; 5; 0; 0; 0; 0]%Z.

Definition cNumber : result Z :=
  let a := a_digits in
  let b := b_digits in
  af <- FFT a ;;
  bf <- FFT b ;;
  let cf := multiply af bf in
  c <- IDFT cf ;;
  let powers := map (fun i => NtoC (10 ^ i)) (seq 0 (length a)) in
  Ok (np_round (Re (dot c powers))).

(** The number the cell hands to [np.round]: [np.dot(c,powers).real]. *)
Definition cValue : result R :=
  let a := a_digits in
  let b := b_digits in
  af <- FFT a ;;
  bf <- FFT b ;;
  let cf := multiply af bf in
  c <- IDFT cf ;;
  let powers := map (fun i => NtoC (10 ^ i)) (seq 0 (length a)) in
  Ok (Re (dot c powers)).

End Fft.

(** ** The notebook [03-fd-poisson.py] *)

Module Poisson.

Definition vector : Type := list R.
Definition matrix : Type := list (list R).

(** Python's [range(a, b)] on integers. *)
Definition range (a b : Z) : list Z :=
  map (fun i => (a + Z.of_nat i)%Z) (seq 0 (Z.to_nat (b - a))).

(** [[i*d for i in range(1,N-1)]], the interior grid coordinates. *)
Definition gridVals (d : R) (N : Z) : list R :=
  map (fun i => (IZR i * d)%R) (range 1 (N - 1)).

Definition evalBot (bot : R -> R) (xVals : list R) : list R :=
  map (fun i => bot (nth i xVals 0%R)) (seq 0 (length xVals)).
Definition evalRight (right : R -> R) (yVals : list R) : list R :=
  map (fun i => right (nth i yVals 0%R)) (seq 0 (length yVals)).
Definition evalTop (top : R -> R) (xVals : list R) : list R :=
  map (fun i => top (nth i xVals 0%R)) (seq 0 (length xVals)).
Definition evalLeft (left : R -> R) (yVals : list R) : list R :=
  map (fun i => left (nth i yVals 0%R)) (seq 0 (length yVals)).

(** The nested list of source values, flattened row by row; [reshape]
    raises [ValueError] unless there are [(N-2)**2] of them.  [N] is the
    notebook's global grid size. *)
Definition evalSource (N : Z) (source : R -> R -> R) (xVals yVals : list R) :
    result vector :=
  let rows :=
    map (fun i =>
      map (fun j => source (nth i xVals 0%R) (nth j yVals 0%R))
          (seq 0 (length yVals)))
        (seq 0 (length xVals)) in
  let flat := concat rows in
  if (Z.of_nat (length flat) =? (N - 2) ^ 2)%Z then Ok flat
  else Raise ValueError.

(** [scipy.sparse.diags(vals, offsets, shape=(m, n)).toarray()] for scalar
    diagonals: [vals[d]] fills the diagonal [j - i = offsets[d]]; a diagonal
    that does not fit the shape is a [ValueError]. *)
Definition diags (vals : list R) (offsets : list Z) (m n : Z) : result matrix :=
  if negb (length vals =? length offsets) then Raise ValueError
  else if existsb
       (fun o => (Z.min (Z.min (m + o) (n - o)) (Z.min m n) <? 0)%Z) offsets
  then Raise ValueError
  else Ok (map (fun i =>
             map (fun j =>
               fold_right Rplus 0%R
                 (map (fun vo =>
                    if (Z.of_nat j - Z.of_nat i =? snd vo)%Z
                    then fst vo else 0%R)
                  (combine vals offsets)))
               (seq 0 (Z.to_nat n)))
             (seq 0 (Z.to_nat m))).

(** [np.identity(n)] *)
Definition identity (n : Z) : result matrix :=
  if (n <? 0)%Z then Raise ValueError
  else Ok (map (fun i => map (fun j => if i =? j then 1%R else 0%R)
                             (seq 0 (Z.to_nat n)))
               (seq 0 (Z.to_nat n))).

(** [np.kron(A, B)]: the block matrix whose block [(i, j)] is
    [A[i][j] * B]. *)
Definition kron (A B : matrix) : matrix :=
  flat_map (fun rowA =>
    map (fun rowB =>
      flat_map (fun a => map (fun b => (a * b)%R) rowB) rowA) B) A.

(** Elementwise sum and negation of matrices of one shape. *)
Fixpoint vadd (u v : list R) : list R :=
  match u, v with
  | a :: u', b :: v' => (a + b)%R :: vadd u' v'
  | _, _ => []
  end.
Fixpoint madd (A B : matrix) : matrix :=
  match A, B with
  | r :: A', s :: B' => vadd r s :: madd A' B'
  | _, _ => []
  end.
Definition mneg (A : matrix) : matrix := map (map Ropp) A.

Definition setupSystemMatrix (N : Z) : result matrix :=
  dxx <- diags [1; -2; 1]%R [-1; 0; 1]%Z (N - 2) (N - 2) ;;
  dyy <- diags [1; -2; 1]%R [-1; 0; 1]%Z (N - 2) (N - 2) ;;
  Ix <- identity (N - 2) ;;
  Iy <- identity (N - 2) ;;
  Ok (mneg (madd (kron dyy Ix) (kron Iy dxx))).

(** [np.zeros(n)] *)
Definition zeros (n : nat) : vector := repeat 0%R n.

(** [b[s] += vals] *)
Definition iadd (b : vector) (s : slice) (vals : list R) : result vector :=
  slice_update Rplus b s vals.

(** [N], [xVals] and [yVals] are globals of the notebook; here they are
    parameters.  [b += ...] on the whole array is the update through the
    full slice. *)
Definition setupRHSVector (N : Z) (xVals yVals : list R)
    (source : R -> R -> R) (bot right top left : R -> R) : result vector :=
  let b := zeros (Z.to_nat ((N - 2) ^ 2)) in
  s <- evalSource N source xVals yVals ;;
  b <- iadd b (Slice None None None) s ;;
  b <- iadd b (Slice None (Some (N - 2)%Z) None) (evalBot bot xVals) ;;
  b <- iadd b (Slice (Some (N - 3)%Z) (Some ((N - 2) * (N - 2))%Z)
                     (Some (N - 2)%Z))
            (evalRight right yVals) ;;
  b <- iadd b (Slice (Some ((N - 3) * (N - 2))%Z) None None)
            (evalTop top xVals) ;;
  b <- iadd b (Slice (Some 0%Z) (Some ((N - 3) * (N - 2) + 1)%Z)
                     (Some (N - 2)%Z))
            (evalLeft left yVals) ;;
  Ok b.

(* Notions used to state properties of the assembled system. *)

(** The matrix with [r] rows and [c] columns whose entry [(i, j)] is
    [f i j]. *)
Definition mk (r c : nat) (f : nat -> nat -> R) : matrix :=
  map (fun i => map (fun j => f i j) (seq 0 c)) (seq 0 r).

(** [A.T] *)
Definition transpose (A : matrix) : matrix :=
  match A with
  | [] => []
  | r :: _ => map (fun j => map (fun row => nth j row 0%R) A)
                  (seq 0 (length r))
  end.

(** Dot product and matrix-vector product over the reals. *)
Fixpoint rdot (u v : vector) : R :=
  match u, v with
  | a :: u', b :: v' => (a * b + rdot u' v')%R
  | _, _ => 0%R
  end.
Definition mvec (A : matrix) (x : vector) : vector :=
  map (fun row => rdot row x) A.

Definition scale (c : R) (v : vector) : vector := map (Rmult c) v.
Definition vsub (u v : vector) : vector := vadd u (map Ropp v).

(** The finite sum [f 0 + (f 1 + ... + (f (n-1) + 0))] over the reals. *)
Fixpoint rsum (n : nat) (f : nat -> R) : R :=
  match n with
  | O => 0%R
  | S n' => Rplus (f 0) (rsum n' (fun i => f (S i)))
  end.

(** The stencil [1, -2, 1] of [dxx] and [dyy] and the identity, entry by
    entry, and the entry [(p, q)] of the assembled matrix on a grid with
    [m] interior points per row. *)
Definition tri (i j : nat) : R :=
  ((if j + 1 =? i then 1 else 0) + (if j =? i then -2 else 0)
   + (if j =? i + 1 then 1 else 0))%R.
Definition delta (i j : nat) : R := if i =? j then 1%R else 0%R.
Definition sys (m p q : nat) : R :=
  Ropp (Rplus (Rmult (tri (p / m) (q / m)) (delta (p mod m) (q mod m)))
              (Rmult (delta (p / m) (q / m)) (tri (p mod m) (q mod m)))).

(** The bilinear form [u.(A w)] of the matrix with entries [a], and the
    inner product, on vectors given by their entries. *)
Definition bil (n : nat) (a : nat -> nat -> R) (u w : nat -> R) : R :=
  rsum n (fun p => Rmult (u p) (rsum n (fun q => Rmult (a p q) (w q)))).
Definition ip (n : nat) (u w : nat -> R) : R :=
  rsum n (fun p => Rmult (u p) (w p)).

(** The one-dimensional second difference of [v], its quadratic form, and
    [v] shifted by one and extended by zero at both ends. *)
Definition lap (m : nat) (v : nat -> R) (i : nat) : R :=
  rsum m (fun j => Rmult (tri i j) (v j)).
Definition quad1 (m : nat) (v : nat -> R) : R :=
  Ropp (rsum m (fun i => Rmult (v i) (lap m v i))).
Definition pad (m : nat) (v : nat -> R) (i : nat) : R :=
  if (0 <? i) && (i <=? m) then v (i - 1) else 0%R.

(** The numbering of the unknowns that the four boundary slices of
    [setupRHSVector], [plotSolutionWithBCs] and the [meshgrid] of the
    convergence cell share: entry [p] is the node in column [p mod m]
    (its [x]) and row [p / m] (its [y]).  [edge_values] is the sum of the
    boundary values of the edges next to that node: the bottom edge for
    row 0, the right edge for column [m - 1], the top edge for row
    [m - 1], the left edge for column 0. *)
Definition edge_values (m : nat) (x y : nat -> R) (bot right top left : R -> R)
    (p : nat) : R :=
  let c := p mod m in
  let r := p / m in
  ((if r =? 0 then bot (x c) else 0)
   + (if c =? m - 1 then right (y r) else 0)
   + (if r =? m - 1 then top (x c) else 0)
   + (if c =? 0 then left (y r) else 0))%R.

End Poisson.

(** ** Further notions for statements about [02-fft.py] *)

Module FftNotions.

Import Fft.

(** The inverse transform as the notebook's opening cell writes it:
    [x_n = 1/N * sum_k X_k * e^((i 2 pi / N) k n)]. *)
Definition IDFT_formula (X : list C) (n : nat) : C :=
  (RtoC (1 / INR (length X)) *
   csum (length X) (fun k =>
     item X k
     * Cexp (Ci * RtoC 2 * RtoC PI / NtoC (length X) * NtoC k * NtoC n)))%C.

(** [a * x + b * y] on sequences, entry by entry. *)
Fixpoint axpby (a : C) (x : list C) (b : C) (y : list C) : list C :=
  match x, y with
  | u :: x', v :: y' => (a * u + b * v)%C :: axpby a x' b y'
  | _, _ => []
  end.

(** The number whose decimal digits, lowest first, are [ds]. *)
Fixpoint number (ds : list Z) : Z :=
  match ds with
  | [] => 0
  | d :: ds' => d + 10 * number ds'
  end.

End FftNotions.

(** ** The notebook [01-trigonometric-interpolation.py] *)

Module Interp.

Import Fft.

(** [get_coeffs(x, y, debug)].  A sympy expression is read as the number it
    denotes: the nodes [x] are reals, the values [y] complex numbers, and
    [sp.Add] of the terms is their sum.  The flag [debug] only changes
    what is displayed. *)
Definition get_coeffs (x : list R) (y : list C) : result (list C) :=
  if negb (length x =? length y) then Raise AssertionError
  else
    let N := length x in
    Ok (map (fun j =>
          fold_right Cadd C0
            (map (fun k =>
               (RtoC (1 / INR N) * item y k
                * Cexp (- Ci * NtoC j * RtoC (nth k x 0%R)))%C)
               (seq 0 N)))
          (seq 0 N)).

(** [trig_interp(x, y, debug)]: the polynomial is returned as the function
    of the value of its symbol; Python's [sum] adds from the left,
    starting at 0. *)
Definition trig_interp (x : list R) (y : list C) : result (R -> C) :=
  let N := length x in
  d <- get_coeffs x y ;;
  Ok (fun t =>
        fold_left Cadd
          (map (fun j => (item d j * Cexp (Ci * NtoC j * RtoC t))%C)
               (seq 0 N))
          C0).

(** [[(2*sp.pi*k) / N for k in range(N)]], the nodes of the example. *)
Definition x_vals (N : nat) : list R :=
  map (fun k => (2 * PI * INR k / INR N)%R) (seq 0 N).

End Interp.

(** ** Further notions for statements about [03-fd-poisson.py] *)

Module PoissonNotions.

(** The five-point stencil on a grid with [m] interior points per row:
    the unknown [p] sits in row [p / m], column [p mod m]. *)
Definition stencil (m p q : nat) : R :=
  let i := p / m in let k := p mod m in
  let j := q / m in let l := q mod m in
  if (i =? j) && (k =? l) then 4%R
  else if ((i =? j) && ((k + 1 =? l) || (l + 1 =? k)))
          || ((k =? l) && ((i + 1 =? j) || (j + 1 =? i)))
       then (-1)%R
       else 0%R.

End PoissonNotions.

(** * Properties *)

(** ** Slices and in-place updates *)

Module PyFacts.

Lemma nth_map_seq {A : Type} (f : nat -> A) (n k : nat) (d : A) :
  k < n -> nth k (map f (seq 0 n)) d = f k.
Proof.
  intros H. rewrite (nth_indep _ d (f 0)) by now rewrite length_map, length_seq.
  now rewrite map_nth, seq_nth.
Qed.

Lemma length_update {A : Type} (l : list A) (i : nat) (f : A -> A) :
  length (update l i f) = length l.
Proof.
  revert i; induction l as [|a l IH]; intros [|i]; simpl; auto.
Qed.

Lemma nth_update_same {A : Type} (l : list A) (i : nat) (f : A -> A) (d : A) :
  i < length l -> nth i (update l i f) d = f (nth i l d).
Proof.
  revert i; induction l as [|a l IH]; intros [|i]; simpl; intros H;
    try lia; auto.
  apply IH. lia.
Qed.

Lemma nth_update_other {A : Type} (l : list A) (i p : nat) (f : A -> A)
    (d : A) :
  p <> i -> nth p (update l i f) d = nth p l d.
Proof.
  revert i p; induction l as [|a l IH]; intros [|i] [|p]; simpl; intros H;
    try lia; auto.
Qed.

Section Fold.

Context {A : Type} (op : A -> A -> A) (d : A).

Definition store (acc : list A) (iv : nat * A) : list A :=
  update acc (fst iv) (fun old => op old (snd iv)).

Lemma length_fold_store (ivs : list (nat * A)) (arr : list A) :
  length (fold_left store ivs arr) = length arr.
Proof.
  revert arr; induction ivs as [|iv ivs IH]; intros arr; simpl; auto.
  rewrite IH. apply length_update.
Qed.

Lemma nth_fold_store_other (ivs : list (nat * A)) (arr : list A) (p : nat) :
  ~ In p (map fst ivs) ->
  nth p (fold_left store ivs arr) d = nth p arr d.
Proof.
  revert arr; induction ivs as [|[i v] ivs IH]; intros arr H; simpl; auto.
  simpl in H. rewrite IH by tauto. apply nth_update_other.
  intros ->. apply H. now left.
Qed.

Lemma nth_fold_store_same (ivs : list (nat * A)) (arr : list A) (i : nat)
    (v : A) :
  NoDup (map fst ivs) -> In (i, v) ivs -> i < length arr ->
  nth i (fold_left store ivs arr) d = op (nth i arr d) v.
Proof.
  revert arr; induction ivs as [|[j w] ivs IH]; intros arr Hnd Hin Hi;
    simpl in *; [contradiction|].
  inversion Hnd as [|? ? Hnotin Hnd']; subst.
  destruct Hin as [E|Hin].
  - injection E as -> ->. rewrite nth_fold_store_other by assumption.
    unfold store; simpl.
    now rewrite (nth_update_same arr i (fun old => op old v) d Hi).
  - rewrite IH; try assumption.
    + unfold store; simpl. rewrite nth_update_other; [reflexivity|].
      intros ->. apply Hnotin. apply (in_map fst) in Hin. exact Hin.
    + unfold store. now rewrite length_update.
Qed.

(** What a slice update stores, for a slice that selects the distinct
    in-range positions [g 0, ..., g (k-1)] and as many values. *)
Lemma slice_update_spec (arr : list A) (s : slice) (vals : list A)
    (g : nat -> nat) (k : nat) :
  slice_indices s (length arr) = Ok (map g (seq 0 k)) ->
  length vals = k ->
  (forall q q', q < k -> q' < k -> g q = g q' -> q = q') ->
  (forall q, q < k -> g q < length arr) ->
  exists r,
    slice_update op arr s vals = Ok r /\
    length r = length arr /\
    (forall q, q < k -> nth (g q) r d = op (nth (g q) arr d) (nth q vals d)) /\
    (forall p, (forall q, q < k -> g q <> p) -> nth p r d = nth p arr d).
Proof.
  intros Hidx Hlen Hinj Hin.
  unfold slice_update. rewrite Hidx. simpl.
  unfold broadcast. rewrite length_map, length_seq, Hlen, Nat.eqb_refl. simpl.
  eexists; split; [reflexivity|].
  fold store.
  assert (Hfst : map fst (combine (map g (seq 0 k)) vals) = map g (seq 0 k)).
  { clear -Hlen. revert vals Hlen. generalize 0.
    induction k as [|k IH]; intros n0 [|v vals] H; simpl in *; try lia; auto.
    f_equal. apply IH. lia. }
  split; [apply length_fold_store|]. split.
  - intros q Hq. apply nth_fold_store_same.
    + rewrite Hfst. apply Injective_map_NoDup_in.
      * intros a b Ha Hb. apply in_seq in Ha, Hb. apply Hinj; lia.
      * apply seq_NoDup.
    + replace (g q, nth q vals d)
        with (nth q (combine (map g (seq 0 k)) vals) (g 0, d)).
      * apply nth_In. rewrite length_combine, length_map, length_seq. lia.
      * rewrite combine_nth by now rewrite length_map, length_seq.
        f_equal. now rewrite map_nth, seq_nth.
    + now apply Hin.
  - intros p Hp. apply nth_fold_store_other. rewrite Hfst.
    intros H. apply in_map_iff in H. destruct H as [q [E Hq]].
    apply in_seq in Hq. apply (Hp q); [lia|assumption].
Qed.

End Fold.

End PyFacts.

(** ** Arithmetic of complex numbers and finite sums *)

Module CplxFacts.

Lemma C_ring_theory : ring_theory C0 C1 Cadd Cmul Csub Copp (@eq C).
Proof.
  constructor; intros;
    repeat match goal with z : C |- _ => destruct z end;
    unfold C0, C1, Cadd, Cmul, Csub, Copp, RtoC, Re, Im; simpl;
    try reflexivity; f_equal; ring.
Qed.

Add Ring C_ring : C_ring_theory.

Lemma csum_ext n f g :
  (forall i, i < n -> f i = g i) -> csum n f = csum n g.
Proof.
  revert f g; induction n as [|n IH]; intros f g H; simpl; auto.
  rewrite (H 0) by lia. f_equal. apply IH. intros i Hi. apply H. lia.
Qed.

Lemma csum_last n f : csum (S n) f = (csum n f + f n)%C.
Proof.
  revert f; induction n as [|n IH]; intros f.
  - simpl. ring.
  - change (csum (S (S n)) f) with (f 0 + csum (S n) (fun i => f (S i)))%C.
    rewrite IH. simpl. ring.
Qed.

Lemma csum_zero n : csum n (fun _ => C0) = C0.
Proof. induction n as [|n IH]; simpl; auto. rewrite IH. ring. Qed.

Lemma csum_add n f g :
  csum n (fun i => (f i + g i)%C) = (csum n f + csum n g)%C.
Proof.
  revert f g; induction n as [|n IH]; intros f g; simpl.
  - ring.
  - rewrite IH. ring.
Qed.

Lemma csum_scal n c f :
  csum n (fun i => (c * f i)%C) = (c * csum n f)%C.
Proof.
  revert f; induction n as [|n IH]; intros f; simpl.
  - ring.
  - rewrite IH. ring.
Qed.

Lemma csum_app n m f :
  csum (n + m) f = (csum n f + csum m (fun i => f (n + i)%nat))%C.
Proof.
  revert f; induction n as [|n IH]; intros f.
  - rewrite (csum_ext m (fun i => f (0 + i)%nat) f) by reflexivity.
    simpl. ring.
  - simpl. rewrite IH. ring.
Qed.

Lemma csum_swap n m (f : nat -> nat -> C) :
  csum n (fun i => csum m (fun j => f i j)) =
  csum m (fun j => csum n (fun i => f i j)).
Proof.
  revert f; induction n as [|n IH]; intros f; simpl.
  - now rewrite csum_zero.
  - rewrite IH, <- csum_add. reflexivity.
Qed.

(** A sum with a single non-zero term. *)
Lemma csum_single n k (f : nat -> C) :
  k < n -> (forall i, i < n -> i <> k -> f i = C0) -> csum n f = f k.
Proof.
  revert k f; induction n as [|n IH]; intros k f Hk H; [lia|].
  simpl. destruct k as [|k].
  - rewrite (csum_ext n _ (fun _ => C0)), csum_zero; [ring|].
    intros i Hi. apply H; lia.
  - rewrite (H 0) by lia. rewrite (IH k) by (try lia; intros; apply H; lia).
    ring.
Qed.

(** Sums of a list and of its indexed entries. *)
Lemma fold_right_csum (l : list C) :
  fold_right Cadd C0 l = csum (length l) (fun i => nth i l C0).
Proof.
  induction l as [|a l IH]; simpl; auto. now rewrite IH.
Qed.

(** *** Roots of unity *)

Lemma INR_ne_0 (N : nat) : N <> 0 -> INR N <> 0%R.
Proof. intros H. now apply not_0_INR. Qed.

Lemma Cmul_comm0 (a b : C) : (a * b)%C = (b * a)%C.
Proof. ring. Qed.

Lemma C_eq (a b : C) : Re a = Re b -> Im a = Im b -> a = b.
Proof. destruct a, b; simpl; intros; subst; reflexivity. Qed.

(** The three exponentials of the notebook are roots of unity. *)
Lemma Cexp_DFT_entry (N k n : nat) :
  N <> 0 ->
  Cexp (- (RtoC 2 * Ci) * RtoC PI * NtoC k * NtoC n / NtoC N)%C
  = omega N (k * n).
Proof.
  intros HN. apply INR_ne_0 in HN.
  unfold Cexp, omega. rewrite mult_INR.
  replace (Re (- (RtoC 2 * Ci) * RtoC PI * NtoC k * NtoC n / NtoC N)%C)
    with 0%R by (simpl; field; assumption).
  replace (Im (- (RtoC 2 * Ci) * RtoC PI * NtoC k * NtoC n / NtoC N)%C)
    with (- (2 * PI * (INR k * INR n) / INR N))%R by (simpl; field; assumption).
  rewrite exp_0, cos_neg, sin_neg. f_equal; ring.
Qed.

Lemma Cexp_IDFT_entry (N k n : nat) :
  N <> 0 ->
  Cexp (RtoC 2 * Ci * RtoC PI * NtoC k * NtoC n / NtoC N)%C
  = Cconj (omega N (k * n)).
Proof.
  intros HN. apply INR_ne_0 in HN.
  unfold Cexp, omega, Cconj. rewrite mult_INR.
  replace (Re (RtoC 2 * Ci * RtoC PI * NtoC k * NtoC n / NtoC N)%C)
    with 0%R by (simpl; field; assumption).
  replace (Im (RtoC 2 * Ci * RtoC PI * NtoC k * NtoC n / NtoC N)%C)
    with (2 * PI * (INR k * INR n) / INR N)%R by (simpl; field; assumption).
  rewrite exp_0. simpl. f_equal; ring.
Qed.

Lemma Cexp_twiddle (N k : nat) :
  N <> 0 ->
  Cexp (RtoC (-2 * PI) * Ci * NtoC k / NtoC N)%C = omega N k.
Proof.
  intros HN. apply INR_ne_0 in HN.
  unfold Cexp, omega.
  replace (Re (RtoC (-2 * PI) * Ci * NtoC k / NtoC N)%C)
    with 0%R by (simpl; field; assumption).
  replace (Im (RtoC (-2 * PI) * Ci * NtoC k / NtoC N)%C)
    with (- (2 * PI * INR k / INR N))%R by (simpl; field; assumption).
  rewrite exp_0, cos_neg, sin_neg. f_equal; ring.
Qed.

Lemma omega_0 (N : nat) : omega N 0 = C1.
Proof.
  unfold omega, C1, RtoC. simpl INR.
  replace (2 * PI * 0 / INR N)%R with 0%R by (unfold Rdiv; ring).
  rewrite cos_0, sin_0. f_equal; ring.
Qed.

Lemma omega_add (N a b : nat) :
  omega N (a + b) = (omega N a * omega N b)%C.
Proof.
  unfold omega, Cmul. simpl Re; simpl Im. rewrite plus_INR.
  replace (2 * PI * (INR a + INR b) / INR N)%R
    with (2 * PI * INR a / INR N + 2 * PI * INR b / INR N)%R
    by (unfold Rdiv; ring).
  rewrite cos_plus, sin_plus. f_equal; ring.
Qed.

Lemma omega_period (N a q : nat) :
  N <> 0 -> omega N (a + q * N) = omega N a.
Proof.
  intros HN. apply INR_ne_0 in HN.
  unfold omega. rewrite plus_INR, mult_INR.
  replace (2 * PI * (INR a + INR q * INR N) / INR N)%R
    with (2 * PI * INR a / INR N + 2 * INR q * PI)%R by (field; assumption).
  now rewrite cos_period, sin_period.
Qed.

Lemma omega_full (N q : nat) : N <> 0 -> omega N (q * N) = C1.
Proof.
  intros HN. rewrite <- (omega_0 N).
  change (q * N) with (0 + q * N). now apply omega_period.
Qed.

Lemma omega_double (M j : nat) :
  M <> 0 -> omega (2 * M) (2 * j) = omega M j.
Proof.
  intros HM. apply INR_ne_0 in HM.
  unfold omega. rewrite !mult_INR. replace (INR 2) with 2%R by (simpl; lra).
  replace (2 * PI * (2 * INR j) / (2 * INR M))%R
    with (2 * PI * INR j / INR M)%R by (field; assumption).
  reflexivity.
Qed.

Lemma omega_half_turn (M : nat) :
  M <> 0 -> omega (2 * M) M = (- C1)%C.
Proof.
  intros HM. apply INR_ne_0 in HM.
  unfold omega. rewrite !mult_INR. replace (INR 2) with 2%R by (simpl; lra).
  replace (2 * PI * INR M / (2 * INR M))%R with PI by (field; assumption).
  rewrite cos_PI, sin_PI. unfold C1, Copp, RtoC. simpl. f_equal; ring.
Qed.

Lemma omega_conj (N j : nat) : (omega N j * Cconj (omega N j))%C = C1.
Proof.
  unfold omega, Cconj, Cmul, C1, RtoC. simpl.
  set (t := (2 * PI * INR j / INR N)%R).
  pose proof (sin2_cos2 t) as H. unfold Rsqr in H.
  f_equal; [rewrite <- H|]; ring.
Qed.

(** A root strictly between the first and the N-th is not 1. *)
Lemma omega_ne_1 (N j : nat) : 0 < j < N -> omega N j <> C1.
Proof.
  intros [Hj HN] H.
  assert (HN0 : (0 < INR N)%R) by (apply lt_0_INR; lia).
  assert (Hj0 : (0 < INR j)%R) by (apply lt_0_INR; lia).
  assert (HjN : (INR j < INR N)%R) by (apply lt_INR; lia).
  pose proof PI_RGT_0 as Hpi.
  set (t := (2 * PI * INR j / INR N)%R) in *.
  assert (Ht0 : (0 < t)%R).
  { unfold t, Rdiv. apply Rmult_lt_0_compat; [|now apply Rinv_0_lt_compat].
    apply Rmult_lt_0_compat; lra. }
  assert (Ht1 : (t < 2 * PI)%R).
  { unfold t. apply (Rmult_lt_reg_r (INR N)); [assumption|].
    replace (2 * PI * INR j / INR N * INR N)%R with (2 * PI * INR j)%R
      by (field; lra).
    apply Rmult_lt_compat_l; lra. }
  unfold omega, C1, RtoC in H. fold t in H.
  injection H as Hc Hs.
  assert (Hs0 : sin t = 0%R) by lra.
  destruct (sin_eq_O_2PI_0 t) as [E|[E|E]]; try lra.
  rewrite E, cos_PI in Hc. lra.
Qed.

Lemma omega_mod (N a : nat) : N <> 0 -> omega N a = omega N (a mod N).
Proof.
  intros HN. rewrite (Nat.div_mod_eq a N) at 1.
  rewrite Nat.add_comm, (Nat.mul_comm N). now apply omega_period.
Qed.

Lemma Cmul_eq_0 (a b : C) : (a * b)%C = C0 -> a <> C0 -> b = C0.
Proof.
  destruct a as [ar ai], b as [br bi]. unfold Cmul, C0, RtoC. simpl.
  intros H Ha. injection H as H1 H2.
  assert (Hn : (0 < ar * ar + ai * ai)%R).
  { pose proof (Rle_0_sqr ar) as Hr0. pose proof (Rle_0_sqr ai) as Hi0.
    unfold Rsqr in Hr0, Hi0.
    destruct (Req_dec ar 0) as [E|E];
      [|pose proof (Rsqr_pos_lt ar E) as P; unfold Rsqr in P; lra].
    destruct (Req_dec ai 0) as [E'|E'];
      [|pose proof (Rsqr_pos_lt ai E') as P; unfold Rsqr in P; lra].
    subst. contradiction. }
  assert (Hr : ((ar * ar + ai * ai) * br = 0)%R).
  { replace ((ar * ar + ai * ai) * br)%R
      with (ar * (ar * br - ai * bi) + ai * (ar * bi + ai * br))%R by ring.
    rewrite H1, H2. ring. }
  assert (Hi : ((ar * ar + ai * ai) * bi = 0)%R).
  { replace ((ar * ar + ai * ai) * bi)%R
      with (ar * (ar * bi + ai * br) - ai * (ar * br - ai * bi))%R by ring.
    rewrite H1, H2. ring. }
  apply Rmult_integral in Hr, Hi.
  f_equal; lra.
Qed.

Lemma csum_shift (n : nat) (f : nat -> C) :
  (csum n (fun i => f (S i)) + f 0 = csum n f + f n)%C.
Proof.
  rewrite <- csum_last. simpl. ring.
Qed.

Lemma csum_const (n : nat) (c : C) : csum n (fun _ => c) = (NtoC n * c)%C.
Proof.
  induction n as [|n IH].
  - simpl. unfold NtoC. simpl. change (RtoC 0) with C0. ring.
  - rewrite csum_last, IH. unfold NtoC. rewrite S_INR.
    replace (RtoC (INR n + 1)) with (RtoC (INR n) + C1)%C
      by (apply C_eq; simpl; ring).
    ring.
Qed.

(** Orthogonality of the roots of unity. *)
Lemma omega_sum_zero (N d : nat) :
  N <> 0 -> d mod N <> 0 -> csum N (fun k => omega N (k * d)) = C0.
Proof.
  intros HN Hd.
  apply (Cmul_eq_0 (omega N d - C1)%C).
  - pose proof (csum_shift N (fun k => omega N (k * d))) as H.
    cbv beta in H. rewrite (Nat.mul_comm N d), Nat.mul_0_l in H.
    rewrite omega_full, omega_0 in H by assumption.
    rewrite (csum_ext N (fun i => omega N (S i * d))
               (fun i => (omega N d * omega N (i * d))%C)) in H
      by (intros; simpl; apply omega_add).
    rewrite csum_scal in H.
    replace ((omega N d - C1) * csum N (fun k => omega N (k * d)))%C
      with ((omega N d * csum N (fun k => omega N (k * d)) + C1)
            - (csum N (fun k => omega N (k * d)) + C1))%C by ring.
    rewrite H. ring.
  - intros H. apply (omega_ne_1 N (d mod N)).
    + pose proof (Nat.mod_upper_bound d N HN). lia.
    + rewrite <- omega_mod by assumption.
      replace (omega N d) with ((omega N d - C1) + C1)%C by ring.
      rewrite H. ring.
Qed.

Lemma omega_sum_full (N d : nat) :
  N <> 0 -> d mod N = 0 -> csum N (fun k => omega N (k * d)) = NtoC N.
Proof.
  intros HN Hd.
  rewrite (csum_ext N _ (fun _ => C1)).
  - rewrite csum_const. ring.
  - intros k _. apply Nat.Div0.mod_divides in Hd. destruct Hd as [q ->].
    replace (k * (N * q)) with ((k * q) * N) by lia.
    now apply omega_full.
Qed.

(** The conjugate of a root is the root at the complementary index. *)
Lemma omega_conj_shift (N k n : nat) :
  N <> 0 -> n <= N -> Cconj (omega N (k * n)) = omega N (k * (N - n)).
Proof.
  intros HN Hn.
  set (a := omega N (k * n)). set (b := omega N (k * (N - n))).
  assert (Hab : (a * b)%C = C1).
  { unfold a, b. rewrite <- omega_add.
    replace (k * n + k * (N - n)) with (k * N) by nia.
    now apply omega_full. }
  pose proof (omega_conj N (k * n)) as Ha. fold a in Ha.
  transitivity ((a * b) * Cconj a)%C; [rewrite Hab; ring|].
  transitivity (b * (a * Cconj a))%C; [ring|rewrite Ha; ring].
Qed.

End CplxFacts.

(** ** The exact test and the floating-point test of the length *)

Module Log2Facts.

Import Fft.

Local Open Scope R_scope.

Lemma ln_2_upper : ln 2 < 9 / 10.
Proof.
  apply exp_lt_inv. rewrite exp_ln by lra.
  replace (9 / 10) with (9 / 20 + 9 / 20) by lra. rewrite exp_plus.
  assert (H : 1 + 9 / 20 < exp (9 / 20)) by (apply exp_ineq1; lra).
  nra.
Qed.

Lemma exp_upper (x : R) : 0 < x < 1 -> exp x < / (1 - x).
Proof.
  intros H. assert (H1 : 1 + - x < exp (- x)) by (apply exp_ineq1; lra).
  rewrite exp_Ropp in H1.
  assert (H2 : 0 < exp x) by apply exp_pos.
  assert (H3 : 0 < 1 - x) by lra.
  apply (Rmult_lt_reg_l (1 - x)); [assumption|].
  rewrite Rinv_r by lra.
  apply (Rmult_lt_compat_r (exp x)) in H1; [|assumption].
  rewrite Rinv_l in H1 by lra. lra.
Qed.

Lemma ln_2_lower : 3 / 5 < ln 2.
Proof.
  apply exp_lt_inv. rewrite exp_ln by lra.
  replace (3 / 5) with (3 / 20 + 3 / 20 + (3 / 20 + 3 / 20)) by lra.
  rewrite !exp_plus.
  assert (H : exp (3 / 20) < / (1 - 3 / 20)) by (apply exp_upper; lra).
  replace (/ (1 - 3 / 20)) with (20 / 17) in H by lra.
  assert (H0 : 0 < exp (3 / 20)) by apply exp_pos.
  assert (H2 : exp (3 / 20) * exp (3 / 20) < 400 / 289) by nra.
  assert (H3 : 0 < exp (3 / 20) * exp (3 / 20)) by nra.
  nra.
Qed.

Lemma ln_1_plus_upper (t : R) : 0 < t -> ln (1 + t) < t.
Proof.
  intros H. apply exp_lt_inv. rewrite exp_ln by lra. apply exp_ineq1. lra.
Qed.

Lemma ln_1_minus_upper (u : R) : 0 < u < 1 -> ln (1 - u) < - u.
Proof.
  intros H. apply exp_lt_inv. rewrite exp_ln by lra.
  replace (1 - u) with (1 + - u) by ring. apply exp_ineq1. lra.
Qed.

Lemma ln_1_plus_lower (t : R) : 0 < t -> t / (1 + t) < ln (1 + t).
Proof.
  intros H.
  assert (H1 : ln (1 - t / (1 + t)) < - (t / (1 + t))).
  { apply ln_1_minus_upper. split.
    - apply Rdiv_lt_0_compat; lra.
    - apply (Rmult_lt_reg_r (1 + t)); [lra|].
      unfold Rdiv. rewrite Rmult_assoc, Rinv_l by lra. lra. }
  replace (1 - t / (1 + t)) with (/ (1 + t)) in H1 by (field; lra).
  rewrite ln_Rinv in H1 by lra. lra.
Qed.

Lemma ln_le (x y : R) : 0 < x -> x <= y -> ln x <= ln y.
Proof.
  intros Hx [H|H].
  - left. now apply ln_increasing.
  - right. now rewrite H.
Qed.

Lemma ln_pow2 (k : Z) : (0 <= k)%Z -> ln (IZR (2 ^ k)) = IZR k * ln 2.
Proof.
  intros H. rewrite <- (Z2Nat.id k H) at 1. rewrite <- pow_IZR.
  rewrite ln_pow by lra. now rewrite INR_IZR_INZ, Z2Nat.id.
Qed.

Lemma half_spacing_val : half_spacing = / IZR 281474976710656.
Proof.
  unfold half_spacing. f_equal.
  change 2 with (IZR 2). rewrite pow_IZR. reflexivity.
Qed.

Lemma log2R_bounds (n k : Z) (lo hi : R) :
  (0 <= k)%Z -> 0 < lo -> 0 < hi ->
  IZR (2 ^ k) * lo <= IZR n <= IZR (2 ^ k) * hi ->
  IZR k + ln lo / ln 2 <= log2R n <= IZR k + ln hi / ln 2.
Proof.
  intros Hk Hlo Hhi [H1 H2].
  assert (Hq : 0 < IZR (2 ^ k)) by (apply IZR_lt; apply Z.pow_pos_nonneg; lia).
  assert (Hn : 0 < IZR n).
  { apply Rlt_le_trans with (IZR (2 ^ k) * lo); [|assumption].
    now apply Rmult_lt_0_compat. }
  assert (L2 : 0 < ln 2) by (pose proof ln_2_lower; lra).
  assert (E1 : ln (IZR (2 ^ k) * lo) = IZR k * ln 2 + ln lo)
    by (rewrite ln_mult by assumption; now rewrite ln_pow2).
  assert (E2 : ln (IZR (2 ^ k) * hi) = IZR k * ln 2 + ln hi)
    by (rewrite ln_mult by assumption; now rewrite ln_pow2).
  assert (B1 : ln (IZR (2 ^ k) * lo) <= ln (IZR n)).
  { apply ln_le; [now apply Rmult_lt_0_compat|assumption]. }
  assert (B2 : ln (IZR n) <= ln (IZR (2 ^ k) * hi)).
  { apply ln_le; assumption. }
  rewrite E1 in B1. rewrite E2 in B2. unfold log2R.
  replace (IZR k + ln lo / ln 2) with ((IZR k * ln 2 + ln lo) / ln 2)
    by (field; lra).
  replace (IZR k + ln hi / ln 2) with ((IZR k * ln 2 + ln hi) / ln 2)
    by (field; lra).
  split; apply Rmult_le_compat_r; try assumption;
    left; now apply Rinv_0_lt_compat.
Qed.

(** Below [log2_exact_limit], the logarithm of a number that is not a
    power of two is more than [half_spacing] away from every integer. *)
Lemma log2R_far (n z : Z) :
  (1 <= n)%Z -> (n < log2_exact_limit)%Z -> n <> (2 ^ Z.log2 n)%Z ->
  half_spacing < Rabs (log2R n - IZR z).
Proof.
  intros H1 HL Hnp. unfold log2_exact_limit in HL.
  change (2 ^ 49 - 1)%Z with 562949953421311%Z in HL.
  destruct (Z.log2_spec n) as [Hlo Hhi]; [lia|].
  pose proof (Z.log2_nonneg n) as Hk0.
  set (k := Z.log2 n) in *.
  rewrite Z.pow_succ_r in Hhi by assumption.
  assert (Hk : (k <= 48)%Z).
  { destruct (Z_le_gt_dec k 48) as [H|H]; [assumption|exfalso].
    assert (H49 : (2 ^ 49 <= 2 ^ k)%Z) by (apply Z.pow_le_mono_r; lia).
    change (2 ^ 49)%Z with 562949953421312%Z in H49. lia. }
  assert (HQ : (2 ^ k <= 2 ^ 48)%Z) by (apply Z.pow_le_mono_r; lia).
  change (2 ^ 48)%Z with 281474976710656%Z in HQ.
  assert (I1 : (2 ^ k * 281474976710657 <= n * 281474976710656)%Z) by lia.
  assert (I2 : (n * 281474976710656 <= 2 ^ k * 562949953421310)%Z).
  { destruct (Z.eq_dec k 48) as [E|E].
    - rewrite E in *. change (2 ^ 48)%Z with 281474976710656%Z in *. lia.
    - assert (H47 : (2 ^ k <= 2 ^ 47)%Z) by (apply Z.pow_le_mono_r; lia).
      change (2 ^ 47)%Z with 140737488355328%Z in H47. lia. }
  apply IZR_le in I1, I2.
  rewrite !mult_IZR in I1, I2.
  pose proof half_spacing_val as He. set (e := half_spacing) in *.
  assert (Hc : 0 < IZR 281474976710656) by (apply IZR_lt; lia).
  assert (He0 : 0 < e) by (rewrite He; now apply Rinv_0_lt_compat).
  assert (He1 : e < / 10).
  { rewrite He. apply Rinv_lt_contravar; [|apply IZR_lt; lia]. lra. }
  assert (Hec : e * IZR 281474976710656 = 1) by (rewrite He; now apply Rinv_l, Rgt_not_eq).
  assert (Hq : 0 < IZR (2 ^ k)) by (apply IZR_lt; apply Z.pow_pos_nonneg; lia).
  destruct (log2R_bounds n k (1 + e) (2 * (1 - e)) Hk0) as [B1 B2];
    [lra|lra| |].
  { split.
    - apply (Rmult_le_reg_r (IZR 281474976710656)); [assumption|].
      replace (IZR (2 ^ k) * (1 + e) * IZR 281474976710656)
        with (IZR (2 ^ k) * (IZR 281474976710656 + e * IZR 281474976710656))
        by ring.
      rewrite Hec. lra.
    - apply (Rmult_le_reg_r (IZR 281474976710656)); [assumption|].
      replace (IZR (2 ^ k) * (2 * (1 - e)) * IZR 281474976710656)
        with (IZR (2 ^ k) * (2 * (IZR 281474976710656
                                  - e * IZR 281474976710656)))
        by ring.
      rewrite Hec. lra. }
  pose proof ln_2_lower as L1. pose proof ln_2_upper as L2.
  assert (A1 : e < ln (1 + e) / ln 2).
  { pose proof (ln_1_plus_lower e He0) as H.
    apply (Rmult_lt_reg_r (ln 2)); [lra|].
    unfold Rdiv at 1. rewrite Rmult_assoc, Rinv_l, Rmult_1_r by lra.
    apply Rle_lt_trans with (e / (1 + e)); [|assumption].
    apply (Rmult_le_reg_r (1 + e)); [lra|].
    unfold Rdiv. rewrite (Rmult_assoc e (/ _)), Rinv_l, Rmult_1_r by lra.
    nra. }
  assert (A2 : ln (2 * (1 - e)) / ln 2 < 1 - e).
  { rewrite ln_mult by lra.
    pose proof (ln_1_minus_upper e) as H.
    apply (Rmult_lt_reg_r (ln 2)); [lra|].
    unfold Rdiv. rewrite Rmult_assoc, Rinv_l, Rmult_1_r by lra.
    assert (ln (1 - e) < - e) by (apply H; lra). nra. }
  destruct (Z_le_gt_dec z k) as [Hz|Hz].
  - apply IZR_le in Hz. rewrite Rabs_pos_eq; lra.
  - assert (Hz' : (k + 1 <= z)%Z) by lia.
    apply IZR_le in Hz'. rewrite plus_IZR in Hz'.
    rewrite Rabs_left; lra.
Qed.

(** From [log2_exact_limit] on this fails: the logarithms of [2^49 + 1]
    and [2^49 - 1] are less than [half_spacing] away from 49. *)
Lemma log2R_near_above :
  Rabs (log2R (2 ^ 49 + 1) - 49) < half_spacing.
Proof.
  pose proof ln_2_lower as L1.
  set (u := / IZR 562949953421312).
  assert (Hc : 0 < IZR 562949953421312) by (apply IZR_lt; lia).
  assert (Hu0 : 0 < u) by now apply Rinv_0_lt_compat.
  assert (Hu : 2 * u = half_spacing).
  { rewrite half_spacing_val. unfold u.
    replace (IZR 562949953421312) with (2 * IZR 281474976710656)
      by (rewrite <- mult_IZR; reflexivity).
    field; apply Rgt_not_eq, IZR_lt; lia. }
  destruct (log2R_bounds (2 ^ 49 + 1) 49 (1 + u) (1 + u)) as [B1 B2];
    [lia|lra|lra| |].
  { change (2 ^ 49 + 1)%Z with (562949953421312 + 1)%Z.
    change (2 ^ 49)%Z with 562949953421312%Z. rewrite plus_IZR.
    replace (IZR 562949953421312 * (1 + u)) with (IZR 562949953421312 + 1)
      by (unfold u; field; lra).
    lra. }
  change (IZR 49) with 49 in B1, B2.
  assert (A1 : 0 < ln (1 + u) / ln 2).
  { apply Rdiv_lt_0_compat; [|lra].
    pose proof (ln_1_plus_lower u Hu0).
    assert (0 < u / (1 + u)) by (apply Rdiv_lt_0_compat; lra). lra. }
  assert (A2 : ln (1 + u) / ln 2 < 2 * u).
  { apply (Rmult_lt_reg_r (ln 2)); [lra|].
    unfold Rdiv. rewrite Rmult_assoc, Rinv_l, Rmult_1_r by lra.
    pose proof (ln_1_plus_upper u Hu0). nra. }
  rewrite <- Hu. rewrite Rabs_pos_eq; lra.
Qed.

Lemma log2R_near_below :
  Rabs (log2R (2 ^ 49 - 1) - 49) < half_spacing.
Proof.
  pose proof ln_2_lower as L1.
  set (u := / IZR 562949953421312).
  assert (Hc : 0 < IZR 562949953421312) by (apply IZR_lt; lia).
  assert (Hu0 : 0 < u) by now apply Rinv_0_lt_compat.
  assert (Hu1 : u < / 10).
  { unfold u. apply Rinv_lt_contravar; [|apply IZR_lt; lia]. lra. }
  assert (Hu : 2 * u = half_spacing).
  { rewrite half_spacing_val. unfold u.
    replace (IZR 562949953421312) with (2 * IZR 281474976710656)
      by (rewrite <- mult_IZR; reflexivity).
    field; apply Rgt_not_eq, IZR_lt; lia. }
  destruct (log2R_bounds (2 ^ 49 - 1) 49 (1 - u) (1 - u)) as [B1 B2];
    [lia|lra|lra| |].
  { change (2 ^ 49 - 1)%Z with (562949953421312 - 1)%Z.
    change (2 ^ 49)%Z with 562949953421312%Z. rewrite minus_IZR.
    replace (IZR 562949953421312 * (1 - u)) with (IZR 562949953421312 - 1)
      by (unfold u; field; lra).
    lra. }
  change (IZR 49) with 49 in B1, B2.
  assert (A1 : ln (1 - u) / ln 2 < 0).
  { pose proof (ln_1_minus_upper u).
    assert (ln (1 - u) < - u) by (apply H; lra).
    apply (Rmult_lt_reg_r (ln 2)); [lra|].
    unfold Rdiv. rewrite Rmult_assoc, Rinv_l, Rmult_1_r by lra. lra. }
  assert (A2 : - (2 * u) < ln (1 - u) / ln 2).
  { apply (Rmult_lt_reg_r (ln 2)); [lra|].
    unfold Rdiv. rewrite Rmult_assoc, Rinv_l, Rmult_1_r by lra.
    assert (Hv : 0 < u / (1 - u)) by (apply Rdiv_lt_0_compat; lra).
    pose proof (ln_1_plus_upper (u / (1 - u)) Hv) as H.
    replace (1 + u / (1 - u)) with (/ (1 - u)) in H by (field; lra).
    rewrite ln_Rinv in H by lra.
    assert (Hv2 : u / (1 - u) < u * (10 / 9)).
    { unfold Rdiv at 1. apply Rmult_lt_compat_l; [assumption|].
      replace (10 / 9) with (/ (9 / 10)) by lra.
      apply Rinv_lt_contravar; [apply Rmult_lt_0_compat|]; lra. }
    nra. }
  rewrite <- Hu. rewrite Rabs_left; lra.
Qed.

End Log2Facts.

(** ** The transforms *)

Module FftFacts.

Import Fft PyFacts CplxFacts Log2Facts.

Lemma nth_multiply (u v : list C) (i : nat) :
  i < length u -> i < length v ->
  nth i (multiply u v) C0 = (nth i u C0 * nth i v C0)%C.
Proof.
  revert v i; induction u as [|a u IH]; intros [|b v] [|i]; simpl;
    intros Hu Hv; try lia; auto.
  apply IH; lia.
Qed.

Lemma dot_csum (u v : list C) :
  length u = length v ->
  dot u v = csum (length v) (fun i => (nth i u C0 * nth i v C0)%C).
Proof.
  intros H. unfold dot. rewrite fold_right_csum, length_multiply, H, Nat.min_id.
  apply csum_ext. intros i Hi. apply nth_multiply; lia.
Qed.

(** A row given by a formula times a vector. *)
Lemma dot_row (f : nat -> C) (x : list C) :
  dot (map f (seq 0 (length x))) x
  = csum (length x) (fun n => (f n * item x n)%C).
Proof.
  rewrite dot_csum by now rewrite length_map, length_seq.
  apply csum_ext. intros i Hi. unfold item. f_equal.
  rewrite (nth_indep _ C0 (f 0)) by now rewrite length_map, length_seq.
  now rewrite map_nth, seq_nth.
Qed.

(** The transform matrix times a vector, entry by entry: the defining sum
    of the DFT. *)
Lemma DFT_sum (x : list C) :
  DFT x = map (fun k =>
            csum (length x) (fun n => (omega (length x) (k * n) * item x n)%C))
              (seq 0 (length x)).
Proof.
  unfold DFT, matvec, DFT_matrix, arange. rewrite map_map.
  apply map_ext_in. intros k Hk. rewrite dot_row.
  apply csum_ext. intros n Hn. rewrite Cexp_DFT_entry by lia. reflexivity.
Qed.

Lemma DFT_length (x : list C) : length (DFT x) = length x.
Proof. now rewrite DFT_sum, length_map, length_seq. Qed.

Lemma DFT_nth (x : list C) (k : nat) :
  k < length x ->
  nth k (DFT x) C0
  = csum (length x) (fun n => (omega (length x) (k * n) * item x n)%C).
Proof.
  intros H. rewrite DFT_sum.
  exact (nth_map_seq
    (fun k => csum (length x)
       (fun n => (omega (length x) (k * n) * item x n)%C)) _ _ _ H).
Qed.

Lemma IDFT_sum (X : list C) :
  length X <> 0 ->
  IDFT X = Ok (map (fun n =>
             csum (length X) (fun k =>
               (RtoC (/ INR (length X)) * Cconj (omega (length X) (k * n))
                * item X k)%C))
                 (seq 0 (length X))).
Proof.
  intros HN. unfold IDFT, int_truediv.
  destruct (Nat.eqb_spec (length X) 0) as [E|_]; [contradiction|].
  simpl. f_equal. unfold matvec, IDFT_matrix, arange. rewrite map_map.
  apply map_ext_in. intros n Hn. rewrite dot_row.
  apply csum_ext. intros k Hk. rewrite Cexp_IDFT_entry by lia.
  replace (1 / INR (length X))%R with (/ INR (length X))%R
    by (unfold Rdiv; ring).
  reflexivity.
Qed.

Lemma RtoC_inv_N (N : nat) : N <> 0 -> (RtoC (/ INR N) * NtoC N)%C = C1.
Proof.
  intros HN. apply INR_ne_0 in HN.
  apply C_eq; simpl; field; assumption.
Qed.

(** One entry of the inverse transform of a transform. *)
Lemma roundtrip_entry (x : list C) (n : nat) :
  n < length x ->
  csum (length x) (fun k =>
    (RtoC (/ INR (length x)) * Cconj (omega (length x) (k * n))
     * item (DFT x) k)%C)
  = item x n.
Proof.
  intros Hn. set (N := length x) in *.
  assert (HN : N <> 0) by lia.
  rewrite (csum_ext N _ (fun k => csum N (fun l =>
             (RtoC (/ INR N) * item x l * omega N (k * (N - n + l)))%C))).
  2:{ intros k Hk. unfold item at 1. rewrite DFT_nth by assumption. fold N.
      rewrite omega_conj_shift by lia. rewrite <- csum_scal.
      apply csum_ext. intros l Hl.
      rewrite Nat.mul_add_distr_l, omega_add. ring. }
  rewrite csum_swap.
  rewrite (csum_single N n).
  - rewrite csum_scal. rewrite omega_sum_full.
    + transitivity ((RtoC (/ INR N) * NtoC N) * item x n)%C; [ring|].
      rewrite RtoC_inv_N by assumption. ring.
    + assumption.
    + replace (N - n + n) with N by lia. apply Nat.Div0.mod_same.
  - assumption.
  - intros l Hl Hne. rewrite csum_scal, omega_sum_zero; [ring|assumption|].
    intros E. apply Hne.
    destruct (le_lt_dec n l) as [Hle|Hlt].
    + replace (N - n + l) with ((l - n) + 1 * N) in E by lia.
      rewrite Nat.Div0.mod_add, Nat.mod_small in E by lia. lia.
    + rewrite Nat.mod_small in E by lia. lia.
Qed.

(** The inverse transform undoes the transform on a non-empty sequence. *)
Lemma IDFT_DFT (x : list C) : length x <> 0 -> IDFT (DFT x) = Ok x.
Proof.
  intros HN. rewrite IDFT_sum by now rewrite DFT_length.
  rewrite DFT_length. f_equal.
  apply (nth_ext _ _ C0 C0).
  - now rewrite length_map, length_seq.
  - rewrite length_map, length_seq. intros n Hn.
    rewrite (nth_map_seq (fun n => csum (length x) (fun k =>
               (RtoC (/ INR (length x)) * Cconj (omega (length x) (k * n))
                * item (DFT x) k)%C)) _ _ _ Hn).
    now apply roundtrip_entry.
Qed.

(** On the empty sequence the inverse transform divides by zero. *)
Lemma IDFT_nil : IDFT [] = Raise ZeroDivisionError.
Proof. reflexivity. Qed.

(** *** The slices of [FFT] and the interleaving *)

Lemma slice_even (M : nat) :
  slice_indices (Slice None None (Some 2%Z)) (M + M)
  = Ok (map (fun q => 2 * q) (seq 0 M)).
Proof.
  unfold slice_indices. simpl. f_equal.
  destruct (Z.ltb_spec 0 (Z.of_nat (M + M))) as [H|H].
  - replace (Z.to_nat ((Z.of_nat (M + M) - 0 - 1) / 2 + 1)) with M.
    + apply map_ext. intros q. lia.
    + assert (((Z.of_nat (M + M) - 0 - 1) / 2 = Z.of_nat M - 1)%Z)
        by (Z.to_euclidean_division_equations; lia).
      lia.
  - assert (M = 0) by lia. subst. reflexivity.
Qed.

Lemma slice_odd (M : nat) :
  slice_indices (Slice (Some 1%Z) None (Some 2%Z)) (M + M)
  = Ok (map (fun q => 2 * q + 1) (seq 0 M)).
Proof.
  unfold slice_indices, adjust. simpl. f_equal.
  destruct (Z.leb_spec (Z.of_nat (M + M)) 1) as [H1|H1].
  - assert (M = 0) by lia. subst. reflexivity.
  - destruct (Z.ltb_spec 1 (Z.of_nat (M + M))) as [H|H]; [|lia].
    replace (Z.to_nat ((Z.of_nat (M + M) - 1 - 1) / 2 + 1)) with M.
    + apply map_ext. intros q. lia.
    + assert (((Z.of_nat (M + M) - 1 - 1) / 2 = Z.of_nat M - 1)%Z)
        by (Z.to_euclidean_division_equations; lia).
      lia.
Qed.

Lemma length_interleave (a b : list C) :
  length a = length b -> length (interleave a b) = length a + length b.
Proof.
  revert b; induction a as [|u a IH]; intros [|v b] H; simpl in *;
    try lia.
  rewrite IH by lia. lia.
Qed.

Lemma nth_interleave_even (a b : list C) (j : nat) :
  length a = length b -> j < length a ->
  nth (2 * j) (interleave a b) C0 = nth j a C0.
Proof.
  revert b j; induction a as [|u a IH]; intros [|v b] [|j] H Hj;
    simpl in *; try lia; auto.
  replace (j + S (j + 0)) with (S (2 * j)) by lia. apply IH; lia.
Qed.

Lemma nth_interleave_odd (a b : list C) (j : nat) :
  length a = length b -> j < length a ->
  nth (2 * j + 1) (interleave a b) C0 = nth j b C0.
Proof.
  revert b j; induction a as [|u a IH]; intros [|v b] [|j] H Hj;
    simpl in *; try lia; auto.
  replace (j + S (j + 0) + 1) with (S (2 * j + 1)) by lia.
  apply IH; lia.
Qed.

(** The two slice assignments into the fresh array produce the
    interleaving. *)
Lemma FFT_combine (a b : list C) :
  length a = length b ->
  (result <- Ok (np_empty (length a + length b)) ;;
   result <- setitem result (Slice None None (Some 2%Z)) a ;;
   result <- setitem result (Slice (Some 1%Z) None (Some 2%Z)) b ;;
   Ok result) = Ok (interleave a b).
Proof.
  intros Hab. simpl bind at 1. set (M := length a).
  assert (Hb : length b = M) by (unfold M; lia). rewrite Hb.
  assert (Hlen0 : length (np_empty (M + M)) = M + M)
    by (unfold np_empty; apply repeat_length).
  assert (I1 : slice_indices (Slice None None (Some 2%Z))
                 (length (np_empty (M + M)))
               = Ok (map (fun q => 2 * q) (seq 0 M)))
    by (rewrite Hlen0; apply slice_even).
  destruct (PyFacts.slice_update_spec (fun _ v : C => v) C0 _ _ a _ M
              I1 eq_refl) as (r1 & E1 & L1 & S1 & O1).
  { intros; lia. }
  { intros; rewrite Hlen0; lia. }
  unfold setitem. rewrite E1. simpl bind at 1.
  assert (I2 : slice_indices (Slice (Some 1%Z) None (Some 2%Z)) (length r1)
               = Ok (map (fun q => 2 * q + 1) (seq 0 M)))
    by (rewrite L1, Hlen0; apply slice_odd).
  destruct (PyFacts.slice_update_spec (fun _ v : C => v) C0 _ _ b _ M
              I2 Hb) as (r2 & E2 & L2 & S2 & O2).
  { intros; lia. }
  { intros; rewrite L1, Hlen0; lia. }
  rewrite E2. simpl. f_equal.
  apply (nth_ext _ _ C0 C0).
  - rewrite length_interleave by lia. fold M. lia.
  - intros p Hp. rewrite L2, L1, Hlen0 in Hp.
    destruct (Nat.Even_or_Odd p) as [[j ->]|[j ->]].
    + rewrite O2 by (intros; lia). rewrite S1 by lia.
      symmetry. apply nth_interleave_even; fold M; lia.
    + rewrite S2 by lia.
      symmetry. apply nth_interleave_odd; fold M; lia.
Qed.

(** *** The recursion of [FFT] *)

(** The body of [FFT], one unfolding. *)
Lemma FFT_unfold (x : list C) :
  FFT x =
  match log2_is_integer (length x) with
  | Raise e => Raise e
  | Ok false => Raise AssertionError
  | Ok true =>
    if length x <=? 1 then Ok [item x 0]
    else
      let N := length x in
      let M := N / 2 in
      let x_even := map (fun k => (item x k + item x (k + M))%C) (seq 0 M) in
      let x_odd := map (fun k => (item x k - item x (k + M))%C) (seq 0 M) in
      let factor :=
        map (fun k => Cexp (RtoC (-2 * PI) * Ci * NtoC k / NtoC N)%C)
            (seq 0 M) in
      a <- FFT x_even ;;
      b <- FFT (multiply factor x_odd) ;;
      result <- Ok (np_empty (length a + length b)) ;;
      result <- setitem result (Slice None None (Some 2%Z)) a ;;
      result <- setitem result (Slice (Some 1%Z) None (Some 2%Z)) b ;;
      Ok result
  end.
Proof.
  rewrite FFT_equation_1.
  destruct (log2_is_integer (length x)) as [[|]|e]; simpl; auto.
  destruct (le_lt_dec (length x) 1) as [H|H]; simpl.
  - destruct (Nat.leb_spec (length x) 1); [reflexivity|lia].
  - destruct (Nat.leb_spec (length x) 1); [lia|reflexivity].
Qed.

Lemma log2_is_integer_pow2 (k : nat) : log2_is_integer (2 ^ k) = Ok true.
Proof.
  unfold log2_is_integer.
  assert (H : 2 ^ k <> 0) by (apply Nat.pow_nonzero; lia).
  destruct (Nat.eqb_spec (2 ^ k) 0) as [E|_]; [contradiction|].
  now rewrite Nat.log2_pow2, Nat.eqb_refl by lia.
Qed.

Lemma log2_is_integer_true (N : nat) :
  log2_is_integer N = Ok true -> exists k, N = 2 ^ k.
Proof.
  unfold log2_is_integer. destruct (N =? 0); [discriminate|].
  intros H. injection H as H. apply Nat.eqb_eq in H.
  now exists (Nat.log2 N).
Qed.

Lemma length_x_even x : length (x_even x) = length x / 2.
Proof. unfold x_even. now rewrite length_map, length_seq. Qed.

Lemma length_twisted x :
  length (multiply (factor (length x)) (x_odd x)) = length x / 2.
Proof.
  unfold factor, x_odd.
  now rewrite length_multiply, !length_map, !length_seq, Nat.min_id.
Qed.

Lemma nth_twisted (x : list C) (k : nat) :
  k < length x / 2 ->
  nth k (multiply (factor (length x)) (x_odd x)) C0
  = (omega (length x) k * (item x k - item x (k + length x / 2)))%C.
Proof.
  intros Hk. unfold factor, x_odd.
  rewrite nth_multiply by now rewrite length_map, length_seq.
  rewrite (nth_map_seq (fun k => Cexp (RtoC (-2 * PI) * Ci * NtoC k
                                        / NtoC (length x))%C) _ _ _ Hk).
  rewrite (nth_map_seq (fun k => (item x k - item x (k + length x / 2))%C)
             _ _ _ Hk).
  rewrite Cexp_twiddle; [reflexivity|].
  intros E. rewrite E in Hk. simpl in Hk. lia.
Qed.

(** The recursive case, for a power-of-two length above 1. *)
Lemma FFT_step (x : list C) (k : nat) :
  length x = 2 ^ S k ->
  FFT x = (a <- FFT (x_even x) ;;
           b <- FFT (multiply (factor (length x)) (x_odd x)) ;;
           result <- Ok (np_empty (length a + length b)) ;;
           result <- setitem result (Slice None None (Some 2%Z)) a ;;
           result <- setitem result (Slice (Some 1%Z) None (Some 2%Z)) b ;;
           Ok result).
Proof.
  intros HN. rewrite FFT_unfold, HN, log2_is_integer_pow2, <- HN.
  assert (H2 : 2 <= length x).
  { rewrite HN. simpl. pose proof (Nat.pow_nonzero 2 k). lia. }
  destruct (Nat.leb_spec (length x) 1); [lia|]. reflexivity.
Qed.

(** The two halves of the DFT of an even-length sequence. *)
Lemma DFT_even_entry (x : list C) (M j : nat) :
  length x = 2 * M -> j < M ->
  nth (2 * j) (DFT x) C0 = nth j (DFT (x_even x)) C0.
Proof.
  intros HN Hj.
  assert (HM : M <> 0) by lia.
  assert (Hh : length x / 2 = M)
    by (rewrite HN, Nat.mul_comm; apply Nat.div_mul; lia).
  rewrite !DFT_nth by (rewrite ?length_x_even; lia).
  rewrite length_x_even, Hh, HN.
  replace (2 * M) with (M + M) at 1 by lia.
  rewrite csum_app, <- csum_add.
  apply csum_ext. intros n Hn. unfold item at 3. unfold x_even.
  rewrite Hh.
  rewrite (nth_map_seq (fun k => (item x k + item x (k + M))%C) _ _ _ Hn).
  replace (2 * j * n) with (2 * (j * n)) by lia.
  replace (2 * j * (M + n)) with (2 * (j * n + j * M)) by lia.
  rewrite !omega_double, omega_period by assumption.
  replace (M + n) with (n + M) by lia. ring.
Qed.

Lemma DFT_odd_entry (x : list C) (M j : nat) :
  length x = 2 * M -> j < M ->
  nth (2 * j + 1) (DFT x) C0
  = nth j (DFT (multiply (factor (length x)) (x_odd x))) C0.
Proof.
  intros HN Hj.
  assert (HM : M <> 0) by lia.
  assert (Hh : length x / 2 = M)
    by (rewrite HN, Nat.mul_comm; apply Nat.div_mul; lia).
  rewrite !DFT_nth by (rewrite ?length_twisted; lia).
  rewrite length_twisted, Hh.
  rewrite HN at 1. replace (2 * M) with (M + M) at 1 by lia.
  rewrite csum_app, <- csum_add.
  apply csum_ext. intros n Hn. unfold item at 3.
  rewrite nth_twisted by lia. rewrite Hh, HN.
  replace ((2 * j + 1) * n) with (2 * (j * n) + n) by lia.
  replace ((2 * j + 1) * (M + n)) with ((2 * (j * n) + n + M) + j * (2 * M))
    by lia.
  rewrite omega_period by lia.
  rewrite !omega_add, omega_double, omega_half_turn by assumption.
  replace (M + n) with (n + M) by lia. ring.
Qed.

(** On every power-of-two length the recursion returns the DFT. *)
Lemma FFT_DFT (k : nat) (x : list C) :
  length x = 2 ^ k -> FFT x = Ok (DFT x).
Proof.
  revert x; induction k as [|k IH]; intros x HN.
  - rewrite FFT_unfold, HN. simpl. f_equal.
    rewrite DFT_sum, HN. simpl. rewrite omega_0. f_equal. ring.
  - assert (HM : length x = 2 * 2 ^ k) by (rewrite HN; reflexivity).
    assert (Hh : length x / 2 = 2 ^ k)
      by (rewrite HM, Nat.mul_comm; apply Nat.div_mul; lia).
    rewrite (FFT_step x k HN).
    rewrite (IH (x_even x)) by now rewrite length_x_even.
    rewrite (IH (multiply (factor (length x)) (x_odd x)))
      by now rewrite length_twisted.
    unfold bind at 1. unfold bind at 1.
    rewrite FFT_combine
      by now rewrite !DFT_length, length_x_even, length_twisted.
    f_equal. apply (nth_ext _ _ C0 C0).
    + rewrite length_interleave
        by now rewrite !DFT_length, length_x_even, length_twisted.
      rewrite !DFT_length, length_x_even, length_twisted. lia.
    + rewrite length_interleave
        by now rewrite !DFT_length, length_x_even, length_twisted.
      rewrite !DFT_length, length_x_even, length_twisted, Hh.
      intros p Hp.
      destruct (Nat.Even_or_Odd p) as [[j ->]|[j ->]].
      * rewrite nth_interleave_even
          by (rewrite !DFT_length, ?length_x_even, ?length_twisted; lia).
        symmetry. apply (DFT_even_entry x (2 ^ k)); lia.
      * rewrite nth_interleave_odd
          by (rewrite !DFT_length, ?length_x_even, ?length_twisted; lia).
        symmetry. apply (DFT_odd_entry x (2 ^ k)); lia.
Qed.

(** *** The convolution theorem *)

Lemma csum_rot (N s : nat) (F : nat -> C) :
  s <= N -> csum N (fun n => F ((n + s) mod N)) = csum N F.
Proof.
  intros Hs.
  assert (E : csum N F
              = (csum s F + csum (N - s) (fun i => F (s + i)%nat))%C).
  { rewrite <- csum_app. f_equal. lia. }
  rewrite E.
  assert (E' : csum N (fun n => F ((n + s) mod N))
               = csum (N - s + s) (fun n => F ((n + s) mod N)))
    by (f_equal; lia).
  rewrite E', csum_app.
  rewrite (csum_ext (N - s) _ (fun i => F (s + i))).
  2:{ intros i Hi. rewrite Nat.mod_small by lia. f_equal; lia. }
  rewrite (csum_ext s _ F).
  2:{ intros i Hi. replace (N - s + i + s) with (i + 1 * N) by lia.
      rewrite Nat.Div0.mod_add, Nat.mod_small by lia. reflexivity. }
  ring.
Qed.

Lemma omega_mul_mod (N k a b : nat) :
  N <> 0 -> a mod N = b mod N -> omega N (k * a) = omega N (k * b).
Proof.
  intros HN H. rewrite (omega_mod N (k * a)), (omega_mod N (k * b))
    by assumption.
  f_equal. rewrite <- (Nat.Div0.mul_mod_idemp_r k a),
    <- (Nat.Div0.mul_mod_idemp_r k b). now rewrite H.
Qed.

Lemma length_cconv (a b : list C) : length (cconv a b) = length a.
Proof. unfold cconv. now rewrite length_map, length_seq. Qed.

(** The product of two transforms is the transform of the circular
    convolution. *)
Lemma DFT_cconv (a b : list C) :
  length a = length b ->
  multiply (DFT a) (DFT b) = DFT (cconv a b).
Proof.
  intros Hab. set (N := length a) in *.
  apply (nth_ext _ _ C0 C0).
  - rewrite length_multiply, !DFT_length, length_cconv, <- Hab.
    apply Nat.min_id.
  - rewrite length_multiply, !DFT_length, <- Hab, Nat.min_id. fold N.
    intros k Hk. assert (HN : N <> 0) by lia.
    rewrite nth_multiply by (rewrite DFT_length; fold N; lia).
    rewrite !DFT_nth by (rewrite ?length_cconv; fold N; lia).
    rewrite length_cconv, <- Hab. fold N.
    (* left: a double sum over l and m *)
    rewrite Cmul_comm0, <- csum_scal.
    rewrite (csum_ext N _ (fun l => csum N (fun m =>
               (omega N (k * (l + m)) * (item a l * item b m))%C))).
    2:{ intros l Hl. rewrite Cmul_comm0, <- csum_scal.
        apply csum_ext. intros m Hm.
        rewrite Nat.mul_add_distr_l, omega_add. ring. }
    (* right: the convolution sum, rotated *)
    rewrite (csum_ext N
               (fun n => (omega N (k * n) * item (cconv a b) n)%C)
               (fun n => csum N (fun l =>
                  (omega N (k * n)
                   * (item a l * item b ((n + N - l) mod N)))%C))).
    2:{ intros n Hn. unfold item at 1, cconv. fold N.
        rewrite (nth_map_seq (fun n => csum N (fun l =>
                   (item a l * item b ((n + N - l) mod N))%C)) _ _ _ Hn).
        now rewrite csum_scal. }
    rewrite (csum_swap N N (fun n l => (omega N (k * n)
               * (item a l * item b ((n + N - l) mod N)))%C)).
    apply csum_ext. intros l Hl.
    rewrite <- (csum_rot N (N - l)
                  (fun m => (omega N (k * (l + m)) * (item a l * item b m))%C))
      by lia.
    apply csum_ext. intros n Hn.
    replace (n + (N - l)) with (n + N - l) by lia.
    f_equal. apply omega_mul_mod; [assumption|].
    rewrite Nat.Div0.add_mod_idemp_r.
    replace (l + (n + N - l)) with (n + 1 * N) by lia.
    now rewrite Nat.Div0.mod_add.
Qed.

(** *** The multiplication cell *)

(** Rounding absorbs any error below one half. *)
Lemma np_round_near (r : R) (z : Z) :
  (Rabs (r - IZR z) < / 2)%R -> np_round r = z.
Proof.
  intros H. apply Rabs_def2 in H. destruct H as [H1 H2].
  unfold np_round.
  assert (E : up (r - / 2) = z) by (symmetry; apply tech_up; lra).
  rewrite E.
  destruct (Req_dec_T r (IZR z - / 2)) as [H|H]; [lra|reflexivity].
Qed.

Lemma np_round_IZR (z : Z) : np_round (IZR z) = z.
Proof.
  apply np_round_near.
  replace (IZR z - IZR z)%R with 0%R by ring. rewrite Rabs_R0. lra.
Qed.

(** The digits of the product before the carries: the convolution of the
    two digit sequences. *)
Lemma cconv_digits :
  cconv a_digits b_digits = map ZtoC [32; 52; 61; 60; 34; 16; 5; 0]%Z.
Proof.
  unfold cconv, a_digits, b_digits.
  cbn [length map seq csum item nth Nat.modulo Nat.add Nat.sub Nat.divmod
       fst snd].
  unfold ZtoC, RtoC, Cmul, Cadd, C0. cbn [Re Im fst snd].
  repeat (apply f_equal2; [apply C_eq; cbn [fst snd Re Im RtoC]; ring|]).
  reflexivity.
Qed.

Lemma dot_digits :
  Re (dot (map ZtoC [32; 52; 61; 60; 34; 16; 5; 0]%Z)
          (map (fun i => NtoC (10 ^ i)) (seq 0 8)))
  = IZR 7006652.
Proof.
  unfold dot. cbn [map seq multiply fold_right].
  unfold NtoC. rewrite !pow_INR. simpl INR.
  unfold C0, ZtoC, RtoC, Cmul, Cadd. cbn [Re Im fst snd].
  ring.
Qed.

Lemma cNumber_value : cNumber = Ok 7006652%Z.
Proof.
  unfold cNumber. cbv zeta.
  rewrite (FFT_DFT 3 a_digits), (FFT_DFT 3 b_digits) by reflexivity.
  unfold bind at 1. unfold bind at 1.
  rewrite DFT_cconv by reflexivity.
  rewrite IDFT_DFT by (rewrite length_cconv; discriminate).
  unfold bind. rewrite cconv_digits.
  change (length a_digits) with 8.
  rewrite dot_digits, np_round_IZR. reflexivity.
Qed.

Lemma cValue_value : cValue = Ok (IZR 7006652).
Proof.
  unfold cValue. cbv zeta.
  rewrite (FFT_DFT 3 a_digits), (FFT_DFT 3 b_digits) by reflexivity.
  unfold bind at 1. unfold bind at 1.
  rewrite DFT_cconv by reflexivity.
  rewrite IDFT_DFT by (rewrite length_cconv; discriminate).
  unfold bind. rewrite cconv_digits.
  change (length a_digits) with 8.
  now rewrite dot_digits.
Qed.

(** *** Statements about the transforms *)

Lemma Cexp_formula_entry (N k n : nat) :
  N <> 0 ->
  Cexp (- (Ci * RtoC 2 * RtoC PI / NtoC N) * NtoC k * NtoC n)%C
  = omega N (k * n).
Proof.
  intros HN. apply INR_ne_0 in HN.
  unfold Cexp, omega. rewrite mult_INR.
  replace (Re (- (Ci * RtoC 2 * RtoC PI / NtoC N) * NtoC k * NtoC n)%C)
    with 0%R by (simpl; field; assumption).
  replace (Im (- (Ci * RtoC 2 * RtoC PI / NtoC N) * NtoC k * NtoC n)%C)
    with (- (2 * PI * (INR k * INR n) / INR N))%R by (simpl; field; assumption).
  rewrite exp_0, cos_neg, sin_neg. f_equal; ring.
Qed.

(** C9: for every sequence [x] of complex numbers, of any length, [DFT x]
    is a sequence of the same length whose entry [k] is the sum over [n]
    of [x[n] * exp(-2 pi i k n / N)].  [DFT] is a total function: it has no
    error path, whether the length is a power of two or not. *)
Theorem DFT_is_the_defining_sum (x : list C) :
  length (DFT x) = length x /\
  DFT x = map (DFT_formula x) (seq 0 (length x)).
Proof.
  split; [apply DFT_length|].
  rewrite DFT_sum. apply map_ext_in. intros k Hk. apply in_seq in Hk.
  unfold DFT_formula. apply csum_ext. intros n Hn.
  rewrite Cexp_formula_entry by lia. ring.
Qed.

(** C1: for every sequence whose length is a power of two, [FFT] returns,
    entry for entry, exactly what the matrix-vector reference [DFT]
    returns (over exact complex arithmetic). *)
Theorem FFT_equals_DFT (x : list C) :
  (exists k, length x = 2 ^ k) -> FFT x = Ok (DFT x).
Proof.
  intros [k Hk]. exact (FFT_DFT k x Hk).
Qed.

Lemma FFT_equals_DFT_witness :
  (exists k, length a_digits = 2 ^ k) /\ FFT a_digits = Ok (DFT a_digits).
Proof.
  assert (H : exists k, length a_digits = 2 ^ k) by (exists 3; reflexivity).
  split; [exact H|]. exact (FFT_equals_DFT a_digits H).
Defined.

(** C2, as stated, fails on the empty sequence: [DFT] returns the empty
    sequence, and [IDFT] then evaluates [1/N] at [N = 0]. *)
Lemma IDFT_DFT_empty :
  IDFT (DFT []) = Raise ZeroDivisionError /\ IDFT (DFT []) <> Ok [].
Proof.
  split; [reflexivity|discriminate].
Qed.

(** C2 (amended): for every sequence [x] of length at least 1,
    [IDFT (DFT x)] is [x] (over exact complex arithmetic). *)
Theorem IDFT_inverts_DFT (x : list C) :
  1 <= length x -> IDFT (DFT x) = Ok x.
Proof.
  intros H. apply IDFT_DFT. lia.
Qed.

Lemma IDFT_inverts_DFT_witness :
  1 <= length [C1; Ci; C0] /\ IDFT (DFT [C1; Ci; C0]) = Ok [C1; Ci; C0].
Proof.
  assert (H : 1 <= length [C1; Ci; C0]) by (simpl; lia).
  split; [exact H|]. exact (IDFT_inverts_DFT [C1; Ci; C0] H).
Defined.

Lemma length_one_singleton (x : list C) : length x = 1 -> [item x 0] = x.
Proof.
  destruct x as [|c [|c' x]]; simpl; intros H; try discriminate.
  reflexivity.
Qed.

(** C4: on a power-of-two length [N > 1], with [M = N/2], [FFT] forms
    [even[k] = x[k] + x[k+M]] and [odd[k] = x[k] - x[k+M]], multiplies
    [odd] entry by entry with the twiddle factors [exp(-2 pi i k / N)],
    transforms both halves into [a] and [b] of length [M], and returns the
    sequence [r] of length [N] with [r[2j] = a[j]] and [r[2j+1] = b[j]];
    on length 1 it returns the single input element unchanged. *)
Theorem FFT_decimation_in_frequency (x : list C) :
  (exists k, length x = 2 ^ k) ->
  let N := length x in
  let M := N / 2 in
  (N <= 1 -> FFT x = Ok [item x 0] /\ [item x 0] = x) /\
  (1 < N ->
   (forall k, k < M ->
      nth k (x_even x) C0 = (item x k + item x (k + M))%C /\
      nth k (x_odd x) C0 = (item x k - item x (k + M))%C /\
      nth k (factor N) C0
        = Cexp (RtoC (-2 * PI) * Ci * NtoC k / NtoC N)%C /\
      nth k (multiply (factor N) (x_odd x)) C0
        = (nth k (factor N) C0 * nth k (x_odd x) C0)%C) /\
   exists a b r,
     FFT (x_even x) = Ok a /\
     FFT (multiply (factor N) (x_odd x)) = Ok b /\
     length a = M /\ length b = M /\
     FFT x = Ok r /\ length r = N /\
     forall j, j < M ->
       nth (2 * j) r C0 = nth j a C0 /\ nth (2 * j + 1) r C0 = nth j b C0).
Proof.
  intros [k Hk] N M. split.
  - intros HN. destruct k as [|k].
    + split; [|now apply length_one_singleton].
      rewrite FFT_unfold, Hk. reflexivity.
    + exfalso. unfold N in HN. rewrite Hk in HN. simpl in HN.
      pose proof (Nat.pow_nonzero 2 k). lia.
  - intros HN. destruct k as [|k]; [unfold N in HN; rewrite Hk in HN; simpl in HN; lia|].
    assert (HM : M = 2 ^ k).
    { unfold M, N. rewrite Hk, Nat.pow_succ_r', Nat.mul_comm.
      apply Nat.div_mul. lia. }
    split.
    + intros j Hj. unfold x_even, x_odd, factor. fold N. fold M.
      repeat split.
      * exact (nth_map_seq (fun k => (item x k + item x (k + M))%C) _ _ _ Hj).
      * exact (nth_map_seq (fun k => (item x k - item x (k + M))%C) _ _ _ Hj).
      * exact (nth_map_seq
                 (fun k => Cexp (RtoC (-2 * PI) * Ci * NtoC k / NtoC N)%C)
                 _ _ _ Hj).
      * apply nth_multiply; now rewrite length_map, length_seq.
    + exists (DFT (x_even x)), (DFT (multiply (factor N) (x_odd x))).
      exists (interleave (DFT (x_even x))
                         (DFT (multiply (factor N) (x_odd x)))).
      assert (La : length (DFT (x_even x)) = M)
        by now rewrite DFT_length, length_x_even.
      assert (Lb : length (DFT (multiply (factor N) (x_odd x))) = M)
        by (rewrite DFT_length; apply length_twisted).
      repeat split.
      * apply (FFT_DFT k). now rewrite length_x_even, <- HM.
      * apply (FFT_DFT k). unfold N. now rewrite length_twisted, <- HM.
      * exact La.
      * exact Lb.
      * rewrite (FFT_step x k Hk).
        rewrite (FFT_DFT k (x_even x)) by now rewrite length_x_even, <- HM.
        rewrite (FFT_DFT k (multiply (factor (length x)) (x_odd x)))
          by now rewrite length_twisted, <- HM.
        unfold bind at 1. unfold bind at 1.
        apply FFT_combine. fold N. lia.
      * rewrite length_interleave by lia. rewrite La, Lb, HM.
        unfold N. rewrite Hk. simpl. lia.
      * apply nth_interleave_even; lia.
      * apply nth_interleave_odd; lia.
Qed.

Lemma FFT_decimation_in_frequency_witness :
  FFT [Ci] = Ok [Ci] /\
  exists a b r,
    FFT (x_even a_digits) = Ok a /\
    FFT (multiply (factor 8) (x_odd a_digits)) = Ok b /\
    FFT a_digits = Ok r /\
    nth 6 r C0 = nth 3 a C0 /\ nth 7 r C0 = nth 3 b C0.
Proof.
  split.
  - assert (H : exists k, length [Ci] = 2 ^ k) by (exists 0; reflexivity).
    destruct (FFT_decimation_in_frequency [Ci] H) as [H1 _].
    destruct (H1 (le_n 1)) as [E _]. exact E.
  - assert (H : exists k, length a_digits = 2 ^ k) by (exists 3; reflexivity).
    destruct (FFT_decimation_in_frequency a_digits H) as [_ H2].
    assert (H8 : 1 < length a_digits) by (simpl; lia).
    destruct (H2 H8) as [_ (a & b & r & Ea & Eb & _ & _ & Er & _ & Hr)].
    exists a, b, r. repeat split; try assumption.
    + exact (proj1 (Hr 3 (Nat.lt_succ_diag_r 3))).
    + exact (proj2 (Hr 3 (Nat.lt_succ_diag_r 3))).
Defined.

(** C5: the digit sequences of 1234 and 5678, lowest digit first and
    padded to length 8, are transformed with [FFT], multiplied entry by
    entry and transformed back with [IDFT]; the real part of the dot
    product with the powers of ten is [cValue], and [cNumber] is [cValue]
    rounded to the nearest integer.  Over exact arithmetic [cValue] is
    7006652, and the rounding recovers 7006652 = 1234 * 5678 from every
    number less than one half away from it, above or below (a number
    below it is not cut down to 7006651): the error the cell prints is
    0. *)
Theorem fft_multiplication_digits :
  cValue = Ok (IZR 7006652) /\
  cNumber = (v <- cValue ;; Ok (np_round v)) /\
  (forall r : R,
     (Rabs (r - IZR 7006652) < / 2)%R ->
     np_round r = 7006652%Z /\ (1234 * 5678 - np_round r = 0)%Z) /\
  cNumber = Ok 7006652%Z /\
  cNumber = Ok (1234 * 5678)%Z /\
  (forall c, cNumber = Ok c -> (1234 * 5678 - c = 0)%Z).
Proof.
  split; [exact cValue_value|].
  split; [rewrite cValue_value, cNumber_value; unfold bind;
          now rewrite np_round_IZR|].
  split.
  { intros r H. rewrite (np_round_near r 7006652 H). now split. }
  split; [exact cNumber_value|]. split; [exact cNumber_value|].
  intros c H. rewrite cNumber_value in H. injection H as <-. reflexivity.
Qed.

(** The rounding at the two sides of the product: the number the
    notebook's run hands to [np.round], 7006652.00000042, and a number
    below the product. *)
Lemma fft_multiplication_digits_witness :
  (Rabs (7006652 + 42 / 100000000 - IZR 7006652) < / 2)%R /\
  np_round (7006652 + 42 / 100000000)%R = 7006652%Z /\
  (Rabs (7006652 - 3 / 10 - IZR 7006652) < / 2)%R /\
  np_round (7006652 - 3 / 10)%R = 7006652%Z.
Proof.
  assert (H1 : (Rabs (7006652 + 42 / 100000000 - IZR 7006652) < / 2)%R)
    by (apply Rabs_def1; lra).
  assert (H2 : (Rabs (7006652 - 3 / 10 - IZR 7006652) < / 2)%R)
    by (apply Rabs_def1; lra).
  destruct fft_multiplication_digits as (_ & _ & Hr & _).
  split; [exact H1|]. split; [exact (proj1 (Hr _ H1))|].
  split; [exact H2|]. exact (proj1 (Hr _ H2)).
Defined.

Lemma not_power_of_two_6 : ~ (exists k, 6 = 2 ^ k).
Proof.
  intros [k Hk]. pose proof (log2_is_integer_pow2 k) as H.
  rewrite <- Hk in H. discriminate.
Qed.

(** On a power of two the logarithm is the exponent. *)
Lemma log2R_pow2 (k : nat) : log2R (Z.of_nat (2 ^ k)) = INR k.
Proof.
  unfold log2R. rewrite Nat2Z.inj_pow. change (Z.of_nat 2) with 2%Z.
  rewrite ln_pow2 by lia. rewrite <- INR_IZR_INZ.
  field. pose proof ln_2_lower. lra.
Qed.

(** Where the exact test rejects a length below [log2_exact_limit], the
    logarithm is more than [half_spacing] away from every integer. *)
Lemma log2_far_from_integers (N : nat) (z : Z) :
  (Z.of_nat N < log2_exact_limit)%Z ->
  log2_is_integer N = Ok false ->
  (half_spacing < Rabs (log2R (Z.of_nat N) - IZR z))%R.
Proof.
  intros HL E. apply log2R_far; [|assumption|].
  - unfold log2_is_integer in E.
    destruct (Nat.eqb_spec N 0); [discriminate|lia].
  - intros H.
    assert (HN : N = 2 ^ Z.to_nat (Z.log2 (Z.of_nat N))).
    { assert (HZ : N = Z.to_nat (2 ^ Z.log2 (Z.of_nat N)))
        by (rewrite <- H; symmetry; apply Nat2Z.id).
      rewrite Z2Nat.inj_pow in HZ by (try apply Z.log2_nonneg; lia).
      exact HZ. }
    rewrite HN, log2_is_integer_pow2 in E. discriminate.
Qed.

(** C7: on a length [N >= 1] below [log2_exact_limit], [FFT] fails its
    assertion exactly when [N] is not a power of two, and returns a value
    exactly when it is; so on [N = 6] it raises and never returns a
    truncated or padded result.  On these lengths the code's
    floating-point test is the exact one: the logarithm of a power of two
    is its exponent, and the logarithm of any other length is more than
    [half_spacing] away from every integer, so that its nearest double is
    not one. *)
Theorem FFT_raises_iff_not_power_of_two (x : list C) :
  1 <= length x ->
  (Z.of_nat (length x) < log2_exact_limit)%Z ->
  (FFT x = Raise AssertionError <-> ~ (exists k, length x = 2 ^ k)) /\
  ((exists r, FFT x = Ok r) <-> (exists k, length x = 2 ^ k)) /\
  (forall k, length x = 2 ^ k -> log2R (Z.of_nat (length x)) = INR k) /\
  (~ (exists k, length x = 2 ^ k) ->
   forall z : Z,
     (half_spacing < Rabs (log2R (Z.of_nat (length x)) - IZR z))%R).
Proof.
  intros HN HL.
  assert (Hno : ~ (exists k, length x = 2 ^ k) -> FFT x = Raise AssertionError).
  { intros Hnp. rewrite FFT_unfold.
    destruct (log2_is_integer (length x)) as [[|]|e] eqn:E.
    - exfalso. apply Hnp. now apply log2_is_integer_true.
    - reflexivity.
    - unfold log2_is_integer in E.
      destruct (Nat.eqb_spec (length x) 0); [lia|discriminate]. }
  assert (Hyes : (exists k, length x = 2 ^ k) -> FFT x = Ok (DFT x)).
  { intros [k Hk]. exact (FFT_DFT k x Hk). }
  split; [split|split; [split|split]].
  - intros E Hp. rewrite (Hyes Hp) in E. discriminate.
  - exact Hno.
  - intros [r Hr]. destruct (log2_is_integer (length x)) as [[|]|e] eqn:E.
    + now apply log2_is_integer_true.
    + rewrite FFT_unfold, E in Hr. discriminate.
    + rewrite FFT_unfold, E in Hr. discriminate.
  - intros Hp. exists (DFT x). now apply Hyes.
  - intros k Hk. rewrite Hk. apply log2R_pow2.
  - intros Hnp z. apply log2_far_from_integers; [assumption|].
    destruct (log2_is_integer (length x)) as [[|]|e] eqn:E.
    + exfalso. apply Hnp. now apply log2_is_integer_true.
    + reflexivity.
    + unfold log2_is_integer in E.
      destruct (Nat.eqb_spec (length x) 0); [lia|discriminate].
Qed.

Lemma FFT_raises_on_length_6 :
  1 <= length (repeat C0 6) /\
  (Z.of_nat (length (repeat C0 6)) < log2_exact_limit)%Z /\
  FFT (repeat C0 6) = Raise AssertionError /\
  (forall r, FFT (repeat C0 6) <> Ok r) /\
  (half_spacing < Rabs (log2R 6 - IZR 3))%R.
Proof.
  assert (H : 1 <= length (repeat C0 6)) by (simpl; lia).
  assert (HL : (Z.of_nat (length (repeat C0 6)) < log2_exact_limit)%Z)
    by reflexivity.
  split; [exact H|]. split; [exact HL|].
  destruct (FFT_raises_iff_not_power_of_two (repeat C0 6) H HL)
    as (H1 & H2 & _ & H3).
  split; [|split].
  - exact (proj2 H1 not_power_of_two_6).
  - intros r E. apply not_power_of_two_6. apply (proj1 H2). now exists r.
  - exact (H3 not_power_of_two_6 3%Z).
Defined.

(** C8: every call of [IFFT] raises [NotImplementedError]; it returns no
    value on any input. *)
Theorem IFFT_not_implemented (X : list C) :
  IFFT X = Raise NotImplementedError /\ (forall r, IFFT X <> Ok r).
Proof.
  split; [reflexivity|]. intros r. discriminate.
Qed.

(** C10: on the empty sequence [FFT] fails, and not by its assertion:
    [math.log2] itself raises ([ValueError]) at 0, before the assertion
    and the base case are reached; so whenever [FFT] returns, the input
    has at least one element. *)
Theorem FFT_empty_fails_in_log2 :
  log2_is_integer 0 = Raise ValueError /\
  FFT [] = Raise ValueError /\
  FFT [] <> Raise AssertionError /\
  (forall r, FFT [] <> Ok r) /\
  (forall x r, FFT x = Ok r -> 1 <= length x).
Proof.
  assert (E : FFT [] = Raise ValueError) by (rewrite FFT_unfold; reflexivity).
  split; [reflexivity|]. split; [exact E|].
  rewrite E. split; [discriminate|]. split; [discriminate|].
  intros x r Hr. destruct x as [|c x]; [|simpl; lia].
  rewrite E in Hr. discriminate.
Qed.

End FftFacts.

(** ** The Poisson assembly *)

Module PoissonFacts.

Import Poisson PyFacts.

(** *** The slices of [setupRHSVector] on a grid with [m = N - 2 >= 1]
    interior points per row *)

Lemma slice_full (len : nat) :
  slice_indices (Slice None None None) len = Ok (map (fun q => q) (seq 0 len)).
Proof.
  unfold slice_indices. simpl. f_equal.
  destruct (Z.ltb_spec 0 (Z.of_nat len)) as [H|H].
  - replace (Z.to_nat ((Z.of_nat len - 0 - 1) / 1 + 1)) with len
      by (rewrite Z.div_1_r; lia).
    apply map_ext. intros q. lia.
  - assert (len = 0) by lia. subst. reflexivity.
Qed.

Lemma slice_bot (m : nat) :
  1 <= m ->
  slice_indices (Slice None (Some (Z.of_nat m)) None) (m * m)
  = Ok (map (fun q => q) (seq 0 m)).
Proof.
  intros Hm. unfold slice_indices, adjust. simpl. f_equal.
  rewrite Nat2Z.inj_mul. set (M := Z.of_nat m). assert (1 <= M)%Z by lia.
  destruct (Z.ltb_spec M 0) as [H0|H0]; [lia|].
  destruct (Z.leb_spec (M * M) M) as [H1|H1].
  - assert (M = 1)%Z by nia. assert (m = 1) by lia. subst m. reflexivity.
  - destruct (Z.ltb_spec 0 M) as [H2|H2]; [|lia].
    replace (Z.to_nat ((M - 0 - 1) / 1 + 1)) with m
      by (rewrite Z.div_1_r; lia).
    apply map_ext. intros q. lia.
Qed.

Lemma slice_right (m : nat) :
  1 <= m ->
  slice_indices (Slice (Some (Z.of_nat m - 1)%Z) (Some (Z.of_nat m * Z.of_nat m)%Z)
                       (Some (Z.of_nat m))) (m * m)
  = Ok (map (fun q => m - 1 + q * m) (seq 0 m)).
Proof.
  intros Hm. unfold slice_indices, adjust. cbn [start stop step].
  rewrite Nat2Z.inj_mul. set (M := Z.of_nat m). assert (HM : (1 <= M)%Z) by lia.
  destruct (Z.eqb_spec M 0) as [H0|H0]; [lia|]. f_equal.
  destruct (Z.ltb_spec M 0) as [H1|H1]; [lia|].
  destruct (Z.ltb_spec (M - 1) 0) as [H2|H2]; [lia|].
  destruct (Z.leb_spec (M * M) (M - 1)) as [H3|H3]; [nia|].
  destruct (Z.ltb_spec (M * M) 0) as [H4|H4]; [nia|].
  rewrite Z.leb_refl.
  destruct (Z.ltb_spec (M - 1) (M * M)) as [H5|H5]; [|nia].
  replace (M * M - (M - 1) - 1)%Z with ((M - 1) * M)%Z by ring.
  rewrite Z.div_mul by lia.
  replace (Z.to_nat (M - 1 + 1)) with m by lia.
  apply map_ext. intros q. unfold M. nia.
Qed.

Lemma slice_top (m : nat) :
  1 <= m ->
  slice_indices (Slice (Some ((Z.of_nat m - 1) * Z.of_nat m)%Z) None None)
                (m * m)
  = Ok (map (fun q => (m - 1) * m + q) (seq 0 m)).
Proof.
  intros Hm. unfold slice_indices, adjust. cbn [start stop step].
  rewrite Nat2Z.inj_mul. set (M := Z.of_nat m). assert (HM : (1 <= M)%Z) by lia.
  simpl. f_equal.
  destruct (Z.ltb_spec ((M - 1) * M) 0) as [H1|H1]; [nia|].
  destruct (Z.leb_spec (M * M) ((M - 1) * M)) as [H2|H2]; [nia|].
  destruct (Z.ltb_spec ((M - 1) * M) (M * M)) as [H3|H3]; [|nia].
  rewrite Z.div_1_r.
  replace (Z.to_nat (M * M - (M - 1) * M - 1 + 1)) with m by nia.
  apply map_ext. intros q. unfold M. nia.
Qed.

Lemma slice_left (m : nat) :
  1 <= m ->
  slice_indices (Slice (Some 0%Z) (Some ((Z.of_nat m - 1) * Z.of_nat m + 1)%Z)
                       (Some (Z.of_nat m))) (m * m)
  = Ok (map (fun q => q * m) (seq 0 m)).
Proof.
  intros Hm. unfold slice_indices, adjust. cbn [start stop step].
  rewrite Nat2Z.inj_mul. set (M := Z.of_nat m). assert (HM : (1 <= M)%Z) by lia.
  destruct (Z.eqb_spec M 0) as [H0|H0]; [lia|]. f_equal.
  destruct (Z.ltb_spec M 0) as [H1|H1]; [lia|].
  change (0 <? 0)%Z with false. cbv iota.
  destruct (Z.leb_spec (M * M) 0) as [H2|H2]; [nia|].
  destruct (Z.ltb_spec ((M - 1) * M + 1) 0) as [H3|H3]; [nia|].
  assert (Hcount : forall hi, (hi = (M - 1) * M + 1)%Z ->
            Z.to_nat (if (0 <? hi)%Z then ((hi - 0 - 1) / M + 1)%Z else 0%Z) = m).
  { intros hi ->. destruct (Z.ltb_spec 0 ((M - 1) * M + 1)) as [H|H]; [|nia].
    replace ((M - 1) * M + 1 - 0 - 1)%Z with ((M - 1) * M)%Z by ring.
    rewrite Z.div_mul by lia. lia. }
  destruct (Z.leb_spec (M * M) ((M - 1) * M + 1)) as [H4|H4].
  - rewrite Hcount by nia. apply map_ext. intros q. unfold M. nia.
  - rewrite Hcount by nia. apply map_ext. intros q. unfold M. nia.
Qed.

Lemma length_grid {A : Type} (f : nat -> nat -> A) (a n m : nat) :
  length (concat (map (fun i => map (fun j => f i j) (seq 0 m)) (seq a n)))
  = n * m.
Proof.
  revert a; induction n as [|n IH]; intros a; simpl; auto.
  now rewrite length_app, length_map, length_seq, IH.
Qed.

Lemma nth_grid {A : Type} (f : nat -> nat -> A) (a n m p : nat) (d : A) :
  p < n * m ->
  nth p (concat (map (fun i => map (fun j => f i j) (seq 0 m)) (seq a n))) d
  = f (a + p / m) (p mod m).
Proof.
  revert a p; induction n as [|n IH]; intros a p Hp; [simpl in Hp; lia|].
  assert (Hm : m <> 0) by (intros ->; lia).
  simpl. destruct (lt_dec p m) as [H|H].
  - rewrite app_nth1 by now rewrite length_map, length_seq.
    rewrite Nat.div_small, Nat.mod_small, Nat.add_0_r by assumption.
    rewrite (nth_indep _ d (f a 0)) by now rewrite length_map, length_seq.
    now rewrite (map_nth (fun j => f a j)), seq_nth.
  - rewrite app_nth2; rewrite length_map, length_seq; [|lia].
    rewrite IH by (simpl in Hp; lia).
    replace p with ((p - m) + 1 * m) at 3 4 by lia.
    rewrite Nat.div_add, Nat.Div0.mod_add by assumption.
    f_equal. lia.
Qed.

Lemma iadd_spec (b : vector) (s : slice) (vals : list R) (g : nat -> nat)
    (k : nat) (sel : nat -> option nat) :
  slice_indices s (length b) = Ok (map g (seq 0 k)) ->
  length vals = k ->
  (forall q, q < k -> g q < length b /\ sel (g q) = Some q) ->
  (forall p q, sel p = Some q -> q < k /\ g q = p) ->
  exists r,
    iadd b s vals = Ok r /\
    length r = length b /\
    forall p, nth p r 0%R
              = (nth p b 0 + match sel p with
                             | Some q => nth q vals 0
                             | None => 0
                             end)%R.
Proof.
  intros Hidx Hlen Hg Hsel.
  destruct (slice_update_spec Rplus 0%R b s vals g k Hidx Hlen)
    as (r & E & L & S & O).
  - intros q q' Hq Hq' Heq.
    destruct (Hg q Hq) as [_ E1]. destruct (Hg q' Hq') as [_ E2].
    rewrite Heq in E1. rewrite E1 in E2. now injection E2.
  - intros q Hq. now apply Hg.
  - exists r. split; [exact E|]. split; [exact L|].
    intros p. destruct (sel p) as [q|] eqn:Ep.
    + destruct (Hsel p q Ep) as [Hq <-]. now apply S.
    + rewrite O; [ring|]. intros q Hq Heq.
      destruct (Hg q Hq) as [_ E1]. rewrite Heq in E1. congruence.
Qed.

Lemma evalSource_grid (m : nat) (source : R -> R -> R) (xVals yVals : list R) :
  length xVals = m -> length yVals = m ->
  evalSource (Z.of_nat m + 2) source xVals yVals
  = Ok (concat (map (fun i =>
          map (fun j => source (nth i xVals 0%R) (nth j yVals 0%R)) (seq 0 m))
            (seq 0 m))).
Proof.
  intros Hx Hy. unfold evalSource. rewrite Hx, Hy.
  rewrite (length_grid (fun i j => source (nth i xVals 0%R) (nth j yVals 0%R))).
  replace ((Z.of_nat m + 2 - 2) ^ 2)%Z with (Z.of_nat (m * m)) by nia.
  now rewrite Z.eqb_refl.
Qed.

Lemma nth_eval (f : R -> R) (vals : list R) (q : nat) :
  q < length vals ->
  nth q (map (fun i => f (nth i vals 0%R)) (seq 0 (length vals))) 0%R
  = f (nth q vals 0%R).
Proof.
  intros H.
  rewrite (nth_indep _ 0%R (f (nth 0 vals 0%R)))
    by now rewrite length_map, length_seq.
  now rewrite (map_nth (fun i => f (nth i vals 0%R))), seq_nth.
Qed.

Lemma setupRHSVector_entries (m : nat) (xVals yVals : list R)
    (source : R -> R -> R) (bot right top left : R -> R) :
  1 <= m -> length xVals = m -> length yVals = m ->
  exists s b,
    evalSource (Z.of_nat m + 2) source xVals yVals = Ok s /\
    setupRHSVector (Z.of_nat m + 2) xVals yVals source bot right top left
    = Ok b /\
    length b = m * m /\
    forall p, p < m * m ->
      nth p b 0%R
      = (nth p s 0
         + (if p <? m then bot (nth p xVals 0) else 0)
         + (if p mod m =? m - 1 then right (nth (p / m) yVals 0) else 0)
         + (if (m - 1) * m <=? p then top (nth (p - (m - 1) * m) xVals 0)
            else 0)
         + (if p mod m =? 0 then left (nth (p / m) yVals 0) else 0))%R.
Proof.
  intros Hm Hx Hy. unfold setupRHSVector.
  rewrite (evalSource_grid m) by assumption. unfold bind at 1.
  replace (Z.of_nat m + 2 - 2)%Z with (Z.of_nat m) by lia.
  replace (Z.of_nat m + 2 - 3)%Z with (Z.of_nat m - 1)%Z by lia.
  replace (Z.to_nat (Z.of_nat m ^ 2)) with (m * m) by nia.
  assert (L0 : length (zeros (m * m)) = m * m) by apply repeat_length.
  (* b += source values *)
  destruct (iadd_spec (zeros (m * m)) (Slice None None None)
              (concat (map (fun i =>
                 map (fun j => source (nth i xVals 0%R) (nth j yVals 0%R))
                     (seq 0 m)) (seq 0 m)))
              (fun q => q) (m * m)
              (fun p => if p <? m * m then Some p else None))
    as (b1 & E1 & L1 & V1).
  { rewrite L0. apply slice_full. }
  { apply (length_grid (fun i j => source (nth i xVals 0%R) (nth j yVals 0%R))). }
  { intros q Hq. rewrite L0. split; [assumption|].
    destruct (Nat.ltb_spec q (m * m)); [reflexivity|lia]. }
  { intros p q. destruct (Nat.ltb_spec p (m * m)); [|discriminate].
    intros E; injection E as <-. split; [assumption|reflexivity]. }
  rewrite E1. unfold bind at 1. rewrite L0 in L1.
  (* bottom *)
  destruct (iadd_spec b1 (Slice None (Some (Z.of_nat m)) None)
              (evalBot bot xVals) (fun q => q) m
              (fun p => if p <? m then Some p else None))
    as (b2 & E2 & L2 & V2).
  { rewrite L1. now apply slice_bot. }
  { unfold evalBot. now rewrite length_map, length_seq. }
  { intros q Hq. rewrite L1. split; [nia|].
    destruct (Nat.ltb_spec q m); [reflexivity|lia]. }
  { intros p q. destruct (Nat.ltb_spec p m); [|discriminate].
    intros E; injection E as <-. split; [assumption|reflexivity]. }
  rewrite E2. unfold bind at 1. rewrite L1 in L2.
  (* right *)
  destruct (iadd_spec b2
              (Slice (Some (Z.of_nat m - 1)%Z)
                     (Some (Z.of_nat m * Z.of_nat m)%Z) (Some (Z.of_nat m)))
              (evalRight right yVals) (fun q => m - 1 + q * m) m
              (fun p => if (p <? m * m) && (p mod m =? m - 1)
                        then Some (p / m) else None))
    as (b3 & E3 & L3 & V3).
  { rewrite L2. now apply slice_right. }
  { unfold evalRight. now rewrite length_map, length_seq. }
  { intros q Hq. rewrite L2. split; [nia|].
    rewrite Nat.Div0.mod_add, Nat.div_add, Nat.mod_small, Nat.div_small
      by lia.
    destruct (Nat.ltb_spec (m - 1 + q * m) (m * m)); [|nia].
    now rewrite Nat.eqb_refl. }
  { intros p q. destruct (Nat.ltb_spec p (m * m)); [|discriminate].
    destruct (Nat.eqb_spec (p mod m) (m - 1)) as [Em|]; [|discriminate].
    simpl. intros E; injection E as <-. split.
    - apply Nat.Div0.div_lt_upper_bound. lia.
    - pose proof (Nat.div_mod_eq p m). lia. }
  rewrite E3. unfold bind at 1. rewrite L2 in L3.
  (* top *)
  destruct (iadd_spec b3
              (Slice (Some ((Z.of_nat m - 1) * Z.of_nat m)%Z) None None)
              (evalTop top xVals) (fun q => (m - 1) * m + q) m
              (fun p => if (p <? m * m) && ((m - 1) * m <=? p)
                        then Some (p - (m - 1) * m) else None))
    as (b4 & E4 & L4 & V4).
  { rewrite L3. now apply slice_top. }
  { unfold evalTop. now rewrite length_map, length_seq. }
  { intros q Hq. rewrite L3. split; [nia|].
    destruct (Nat.ltb_spec ((m - 1) * m + q) (m * m)); [|nia].
    destruct (Nat.leb_spec ((m - 1) * m) ((m - 1) * m + q)); [|lia].
    simpl. f_equal. lia. }
  { intros p q. destruct (Nat.ltb_spec p (m * m)); [|discriminate].
    destruct (Nat.leb_spec ((m - 1) * m) p); [|discriminate].
    simpl. intros E; injection E as <-. split; nia. }
  rewrite E4. unfold bind at 1. rewrite L3 in L4.
  (* left *)
  destruct (iadd_spec b4
              (Slice (Some 0%Z) (Some ((Z.of_nat m - 1) * Z.of_nat m + 1)%Z)
                     (Some (Z.of_nat m)))
              (evalLeft left yVals) (fun q => q * m) m
              (fun p => if (p <? m * m) && (p mod m =? 0)
                        then Some (p / m) else None))
    as (b5 & E5 & L5 & V5).
  { rewrite L4. now apply slice_left. }
  { unfold evalLeft. now rewrite length_map, length_seq. }
  { intros q Hq. rewrite L4. split; [nia|].
    rewrite Nat.Div0.mod_mul, Nat.div_mul by lia.
    destruct (Nat.ltb_spec (q * m) (m * m)); [|nia]. reflexivity. }
  { intros p q. destruct (Nat.ltb_spec p (m * m)); [|discriminate].
    destruct (Nat.eqb_spec (p mod m) 0) as [Em|]; [|discriminate].
    simpl. intros E; injection E as <-. split.
    - apply Nat.Div0.div_lt_upper_bound. lia.
    - pose proof (Nat.div_mod_eq p m). lia. }
  replace ((Z.of_nat m + 2 - 2) * (Z.of_nat m + 2 - 2))%Z
    with (Z.of_nat m * Z.of_nat m)%Z by lia.
  rewrite E5. unfold bind. rewrite L4 in L5.
  eexists. exists b5. split; [reflexivity|].
  split; [reflexivity|]. split; [exact L5|].
  intros p Hp. rewrite V5, V4, V3, V2, V1.
  destruct (Nat.ltb_spec p (m * m)) as [_|]; [|lia]. simpl andb.
  assert (Hp0 : nth p (zeros (m * m)) 0%R = 0%R).
  { unfold zeros. apply nth_repeat. }
  rewrite Hp0.
  assert (Hq : p / m < m) by (apply Nat.Div0.div_lt_upper_bound; lia).
  unfold evalBot, evalRight, evalTop, evalLeft.
  destruct (Nat.ltb_spec p m);
  destruct (Nat.eqb_spec (p mod m) (m - 1));
  destruct (Nat.leb_spec ((m - 1) * m) p);
  destruct (Nat.eqb_spec (p mod m) 0);
  rewrite ?nth_eval by (try lia; nia); ring.
Qed.

(** The entries of the flattened source array, in [evalSource]'s own
    numbering of the nodes. *)
Lemma evalSource_entry (m : nat) (source : R -> R -> R) (xVals yVals s : list R)
    (p : nat) :
  length xVals = m -> length yVals = m ->
  evalSource (Z.of_nat m + 2) source xVals yVals = Ok s ->
  p < m * m ->
  nth p s 0%R = source (nth (p / m) xVals 0%R) (nth (p mod m) yVals 0%R).
Proof.
  intros Hx Hy E Hp. rewrite (evalSource_grid m) in E by assumption.
  injection E as <-.
  exact (nth_grid (fun i j => source (nth i xVals 0%R) (nth j yVals 0%R))
           0 m m p 0%R Hp).
Qed.

(** The boundary terms of an entry, read by row and column. *)
Lemma edge_values_entry (m : nat) (xVals yVals : list R)
    (bot right top left : R -> R) (p : nat) :
  1 <= m -> p < m * m ->
  ((if p <? m then bot (nth p xVals 0) else 0)
   + (if p mod m =? m - 1 then right (nth (p / m) yVals 0) else 0)
   + (if (m - 1) * m <=? p then top (nth (p - (m - 1) * m) xVals 0) else 0)
   + (if p mod m =? 0 then left (nth (p / m) yVals 0) else 0))%R
  = edge_values m (fun i => nth i xVals 0%R) (fun j => nth j yVals 0%R)
                bot right top left p.
Proof.
  intros Hm Hp. unfold edge_values. cbv zeta.
  assert (Hc : p mod m < m) by (apply Nat.mod_upper_bound; lia).
  pose proof (Nat.div_mod_eq p m) as Hd.
  assert (E1 : (if p <? m then bot (nth p xVals 0%R) else 0%R)
               = (if p / m =? 0 then bot (nth (p mod m) xVals 0%R) else 0%R)).
  { destruct (Nat.ltb_spec p m) as [H|H];
    destruct (Nat.eqb_spec (p / m) 0) as [E|E].
    - rewrite Nat.mod_small by assumption. reflexivity.
    - exfalso. apply E. now apply Nat.div_small.
    - exfalso. rewrite E in Hd. lia.
    - reflexivity. }
  assert (E2 : (if (m - 1) * m <=? p
                then top (nth (p - (m - 1) * m) xVals 0%R) else 0%R)
               = (if p / m =? m - 1
                  then top (nth (p mod m) xVals 0%R) else 0%R)).
  { destruct (Nat.leb_spec ((m - 1) * m) p) as [H|H];
    destruct (Nat.eqb_spec (p / m) (m - 1)) as [E|E].
    - do 2 f_equal. rewrite E in Hd. lia.
    - exfalso. apply E. nia.
    - exfalso. rewrite E in Hd. nia.
    - reflexivity. }
  rewrite E1, E2. ring.
Qed.

(** C6, as stated, fails in two ways.  On the smallest grid, [N = 3], the
    single interior unknown is all four corners at once and receives the
    bottom and the top value and the left and the right value (here 1, 10,
    1000 and 100), not one of each pair.  And the source value of an entry
    need not be the one of its node: on the grid [N = 4] with nodes at 1
    and 2, [source(x, y) = x] and [bot(x) = 10 x], entry 1 holds 21, the
    bottom value of the node [(2, 1)] (20) plus the source value of the
    node [(1, 2)] (1), where the node [(2, 1)] asks for 2 + 20 and the node
    [(1, 2)], which is on the top and left edges, for 1 + 0 + 0. *)
Lemma setupRHSVector_not_nodewise :
  (setupRHSVector 3 [/ 2] [/ 2] (fun _ _ => 0) (fun _ => 1) (fun _ => 100)
                  (fun _ => 10) (fun _ => 1000) = Ok [1111]
   /\ 1111 <> 0 + 1 + 1000 /\ 1111 <> 0 + 1 + 100
   /\ 1111 <> 0 + 10 + 1000 /\ 1111 <> 0 + 10 + 100)%R
  /\
  (setupRHSVector 4 [1; 2] [1; 2] (fun x _ => x) (fun x => 10 * x)
                  (fun _ => 0) (fun _ => 0) (fun _ => 0)
   = Ok [11; 21; 2; 2]
   /\ 21 <> 2 + 10 * 2 /\ 21 <> 1 + 0 + 0)%R.
Proof.
  split.
  - split; [|repeat split; lra].
    destruct (setupRHSVector_entries 1 [/ 2]%R [/ 2]%R (fun _ _ => 0%R)
                (fun _ => 1%R) (fun _ => 100%R) (fun _ => 10%R)
                (fun _ => 1000%R) (le_n 1) eq_refl eq_refl)
      as (s & b & Es & E & L & V).
    change (Z.of_nat 1 + 2)%Z with 3%Z in E. rewrite E. f_equal.
    destruct b as [|v [|v' b]]; simpl in L; try discriminate.
    f_equal. specialize (V 0 (Nat.lt_0_1)).
    rewrite (evalSource_entry 1 (fun _ _ => 0%R) [/ 2]%R [/ 2]%R s 0
               eq_refl eq_refl Es Nat.lt_0_1) in V.
    simpl in V. rewrite V. ring.
  - split; [|split; lra].
    assert (H12 : 1 <= 2) by lia.
    destruct (setupRHSVector_entries 2 [1; 2]%R [1; 2]%R (fun x _ => x)
                (fun x => (10 * x)%R) (fun _ => 0%R) (fun _ => 0%R)
                (fun _ => 0%R) H12 eq_refl eq_refl)
      as (s & b & Es & E & L & V).
    change (Z.of_nat 2 + 2)%Z with 4%Z in E. rewrite E. f_equal.
    destruct b as [|b0 [|b1 [|b2 [|b3 [|b4 b]]]]]; simpl in L;
      try discriminate.
    assert (S : forall p, p < 2 * 2 ->
                nth p s 0%R = nth (p / 2) [1; 2]%R 0%R).
    { intros p Hp.
      exact (evalSource_entry 2 (fun x _ => x) [1; 2]%R [1; 2]%R s p
               eq_refl eq_refl Es Hp). }
    assert (V0 := V 0). assert (V1 := V 1).
    assert (V2 := V 2). assert (V3 := V 3).
    rewrite S in V0, V1, V2, V3 by (simpl; lia).
    simpl in V0, V1, V2, V3.
    rewrite V0, V1, V2, V3 by lia.
    repeat (apply f_equal2; [ring|]). reflexivity.
Qed.

(** C6 (amended): on a grid with [N >= 3], every entry of the vector is
    the entry of the source array plus the boundary values of the edges
    next to its node, each added once and none overwriting another; when
    the source values are symmetric on the grid,
    [source(x_i, y_j) = source(x_j, y_i)], as they are for the constant
    sources of the notebook, the entry of the source array is the source
    value at that node; on a grid with [N >= 4] each of the four corner
    unknowns receives one of the bottom and top values and one of the left
    and right values. *)
Theorem setupRHSVector_additive (N : Z) (xVals yVals : list R)
    (source : R -> R -> R) (bot right top left : R -> R) :
  (3 <= N)%Z ->
  length xVals = Z.to_nat (N - 2) ->
  length yVals = Z.to_nat (N - 2) ->
  let m := Z.to_nat (N - 2) in
  let x := fun i => nth i xVals 0%R in
  let y := fun j => nth j yVals 0%R in
  exists s b,
    evalSource N source xVals yVals = Ok s /\
    setupRHSVector N xVals yVals source bot right top left = Ok b /\
    length s = m * m /\
    length b = m * m /\
    (forall p, p < m * m ->
       nth p b 0%R
       = (nth p s 0 + edge_values m x y bot right top left p)%R) /\
    ((forall i j, i < m -> j < m -> source (x i) (y j) = source (x j) (y i)) ->
     forall p, p < m * m ->
       nth p b 0%R
       = (source (x (p mod m)) (y (p / m)%nat)
          + edge_values m x y bot right top left p)%R) /\
    ((4 <= N)%Z ->
       nth 0 b 0%R
       = (nth 0 s 0 + bot (x 0%nat) + left (y 0%nat))%R /\
       nth (m - 1) b 0%R
       = (nth (m - 1) s 0 + bot (x (m - 1)%nat) + right (y 0%nat))%R /\
       nth ((m - 1) * m) b 0%R
       = (nth ((m - 1) * m) s 0 + top (x 0%nat) + left (y (m - 1)%nat))%R /\
       nth (m * m - 1) b 0%R
       = (nth (m * m - 1) s 0 + top (x (m - 1)%nat)
          + right (y (m - 1)%nat))%R).
Proof.
  intros HN Hx Hy m x y.
  assert (Hm : 1 <= m) by (unfold m; lia).
  destruct (setupRHSVector_entries m xVals yVals source bot right top left
              Hm Hx Hy) as (s & b & Es & E & L & V).
  assert (Vn : forall p, p < m * m ->
            nth p b 0%R
            = (nth p s 0 + edge_values m x y bot right top left p)%R).
  { intros p Hp. rewrite (V p Hp). unfold x, y.
    rewrite <- (edge_values_entry m xVals yVals bot right top left p Hm Hp).
    ring. }
  assert (Sn : forall p, p < m * m ->
            nth p s 0%R = source (x (p / m)%nat) (y (p mod m))).
  { intros p Hp.
    exact (evalSource_entry m source xVals yVals s p Hx Hy Es Hp). }
  replace (Z.of_nat m + 2)%Z with N in E, Es by (unfold m; lia).
  exists s, b. split; [exact Es|]. split; [exact E|].
  split.
  { replace N with (Z.of_nat m + 2)%Z in Es by (unfold m; lia).
    rewrite (evalSource_grid m) in Es by assumption. injection Es as <-.
    apply (length_grid (fun i j => source (nth i xVals 0%R) (nth j yVals 0%R))). }
  split; [exact L|]. split; [exact Vn|].
  split.
  { intros Hsym p Hp. rewrite (Vn p Hp), (Sn p Hp). f_equal.
    apply Hsym.
    - apply Nat.Div0.div_lt_upper_bound. lia.
    - apply Nat.mod_upper_bound. lia. }
  intros H4. assert (Hm2 : 2 <= m) by (unfold m; lia).
  assert (Hm0 : m <> 0) by lia.
  unfold x, y. repeat split.
  - rewrite V by nia.
    rewrite Nat.Div0.div_0_l, Nat.Div0.mod_0_l.
    destruct (Nat.ltb_spec 0 m); [|lia].
    destruct (Nat.eqb_spec 0 (m - 1)); [lia|].
    destruct (Nat.leb_spec ((m - 1) * m) 0); [nia|].
    simpl. ring.
  - rewrite V by nia.
    rewrite Nat.div_small, Nat.mod_small by lia.
    destruct (Nat.ltb_spec (m - 1) m); [|lia].
    rewrite Nat.eqb_refl.
    destruct (Nat.leb_spec ((m - 1) * m) (m - 1)); [nia|].
    destruct (Nat.eqb_spec (m - 1) 0); [lia|].
    ring.
  - rewrite V by nia.
    rewrite Nat.div_mul, Nat.Div0.mod_mul by assumption.
    destruct (Nat.ltb_spec ((m - 1) * m) m); [nia|].
    destruct (Nat.eqb_spec 0 (m - 1)); [lia|].
    rewrite Nat.leb_refl, Nat.sub_diag. simpl. ring.
  - rewrite V by nia.
    replace (m * m - 1) with ((m - 1) + (m - 1) * m) by nia.
    rewrite Nat.div_add, Nat.Div0.mod_add, Nat.div_small, Nat.mod_small
      by lia.
    destruct (Nat.ltb_spec (m - 1 + (m - 1) * m) m); [nia|].
    rewrite Nat.eqb_refl.
    destruct (Nat.leb_spec ((m - 1) * m) (m - 1 + (m - 1) * m)); [|lia].
    destruct (Nat.eqb_spec (m - 1) 0); [lia|].
    replace (m - 1 + (m - 1) * m - (m - 1) * m) with (m - 1) by lia.
    simpl. ring.
Qed.

(** The grid [N = 4] with nodes at 1 and 2, the symmetric source
    [source(x, y) = x y] and four different boundary functions: every
    entry is the source value at its node plus one of the bottom and top
    values and one of the left and right values. *)
Lemma setupRHSVector_additive_witness :
  (3 <= 4)%Z /\
  setupRHSVector 4 [1; 2]%R [1; 2]%R (fun x y => (x * y)%R)
                 (fun x => (10 * x)%R) (fun y => (100 * y)%R)
                 (fun x => (1000 * x)%R) (fun y => (10000 * y)%R)
  = Ok [1 * 1 + 10 * 1 + 10000 * 1; 2 * 1 + 10 * 2 + 100 * 1;
        1 * 2 + 1000 * 1 + 10000 * 2; 2 * 2 + 1000 * 2 + 100 * 2]%R.
Proof.
  assert (H : (3 <= 4)%Z) by lia.
  split; [exact H|].
  destruct (setupRHSVector_additive 4 [1; 2]%R [1; 2]%R (fun x y => (x * y)%R)
              (fun x => (10 * x)%R) (fun y => (100 * y)%R)
              (fun x => (1000 * x)%R) (fun y => (10000 * y)%R)
              H eq_refl eq_refl)
    as (s & b & _ & E & _ & L & _ & V & _).
  rewrite E. f_equal.
  assert (Hsym : forall i j : nat, i < Z.to_nat (4 - 2) -> j < Z.to_nat (4 - 2) ->
            (nth i [1; 2] 0 * nth j [1; 2] 0
             = nth j [1; 2] 0 * nth i [1; 2] 0)%R)
    by (intros i j _ _; apply Rmult_comm).
  specialize (V Hsym).
  change (Z.to_nat (4 - 2)) with 2 in V, L.
  destruct b as [|b0 [|b1 [|b2 [|b3 [|b4 b]]]]]; simpl in L;
    try discriminate.
  assert (V0 := V 0). assert (V1 := V 1).
  assert (V2 := V 2). assert (V3 := V 3).
  unfold edge_values in V0, V1, V2, V3.
  simpl in V0, V1, V2, V3.
  rewrite V0, V1, V2, V3 by lia.
  repeat (apply f_equal2; [ring|]). reflexivity.
Defined.

(** *** The assembled matrix, entry by entry *)

Lemma grid_flat {A : Type} (F : nat -> nat -> A) (n m : nat) :
  concat (map (fun i => map (fun k => F i k) (seq 0 m)) (seq 0 n))
  = map (fun p => F (p / m) (p mod m)) (seq 0 (n * m)).
Proof.
  destruct (Nat.eq_dec (n * m) 0) as [E|E].
  - rewrite E. simpl.
    assert (H := length_grid F 0 n m). rewrite E in H.
    now apply length_zero_iff_nil.
  - assert (d : A) by (apply (F 0 0)).
    apply (nth_ext _ _ d d).
    + now rewrite length_grid, length_map, length_seq.
    + rewrite length_grid. intros p Hp.
      rewrite nth_grid by assumption.
      now rewrite (nth_map_seq (fun p => F (p / m) (p mod m)) _ _ _ Hp).
Qed.

Lemma kron_mk (n n' m m' : nat) (fA fB : nat -> nat -> R) :
  kron (mk n n' fA) (mk m m' fB)
  = mk (n * m) (n' * m')
       (fun p q => Rmult (fA (p / m) (q / m')) (fB (p mod m) (q mod m'))).
Proof.
  unfold kron, mk. rewrite flat_map_concat_map, map_map.
  rewrite (map_ext _ (fun i => map (fun k =>
             map (fun q => Rmult (fA i (q / m')) (fB k (q mod m')))
                 (seq 0 (n' * m'))) (seq 0 m))).
  - apply (grid_flat (fun i k => map (fun q =>
             Rmult (fA i (q / m')) (fB k (q mod m'))) (seq 0 (n' * m')))).
  - intros i. rewrite map_map. apply map_ext. intros k.
    rewrite flat_map_concat_map, map_map.
    rewrite (map_ext _ (fun j => map (fun l => (fA i j * fB k l)%R) (seq 0 m'))).
    + apply (grid_flat (fun j l => (fA i j * fB k l)%R)).
    + intros j. now rewrite map_map.
Qed.

Lemma vadd_map (f g : nat -> R) (l : list nat) :
  vadd (map f l) (map g l) = map (fun j => (f j + g j)%R) l.
Proof. induction l as [|a l IH]; simpl; [reflexivity|now rewrite IH]. Qed.

Lemma madd_mk (r c : nat) (f g : nat -> nat -> R) :
  madd (mk r c f) (mk r c g) = mk r c (fun i j => (f i j + g i j)%R).
Proof.
  unfold mk. induction (seq 0 r) as [|a l IH]; simpl; [reflexivity|].
  now rewrite IH, vadd_map.
Qed.

Lemma mneg_mk (r c : nat) (f : nat -> nat -> R) :
  mneg (mk r c f) = mk r c (fun i j => (- f i j)%R).
Proof.
  unfold mneg, mk. rewrite map_map. apply map_ext. intros i.
  now rewrite map_map.
Qed.

Lemma diags_tri (m : nat) :
  1 <= m ->
  diags [1; -2; 1]%R [-1; 0; 1]%Z (Z.of_nat m) (Z.of_nat m) = Ok (mk m m tri).
Proof.
  intros Hm. unfold diags. simpl length. simpl negb. cbv iota.
  replace (existsb _ _) with false.
  - unfold mk. rewrite Nat2Z.id. apply f_equal. apply map_ext. intros i.
    apply map_ext. intros j. simpl. unfold tri.
    destruct (Z.eqb_spec (Z.of_nat j - Z.of_nat i) (-1));
    destruct (Z.eqb_spec (Z.of_nat j - Z.of_nat i) 0);
    destruct (Z.eqb_spec (Z.of_nat j - Z.of_nat i) 1);
    destruct (Nat.eqb_spec (j + 1) i);
    destruct (Nat.eqb_spec j i);
    destruct (Nat.eqb_spec j (i + 1)); try lia; ring.
  - symmetry. simpl.
    repeat match goal with
    | |- context [(?a <? ?b)%Z] => destruct (Z.ltb_spec a b); try lia
    end; reflexivity.
Qed.

Lemma identity_delta (m : nat) :
  identity (Z.of_nat m) = Ok (mk m m delta).
Proof.
  unfold identity. destruct (Z.ltb_spec (Z.of_nat m) 0); [lia|].
  now rewrite Nat2Z.id.
Qed.

Lemma setupSystemMatrix_mk (m : nat) :
  1 <= m ->
  setupSystemMatrix (Z.of_nat m + 2) = Ok (mk (m * m) (m * m) (sys m)).
Proof.
  intros Hm. unfold setupSystemMatrix.
  replace (Z.of_nat m + 2 - 2)%Z with (Z.of_nat m) by lia.
  rewrite diags_tri, identity_delta by assumption. simpl bind.
  now rewrite !kron_mk, madd_mk, mneg_mk.
Qed.

(** *** Finite sums of reals *)

Local Open Scope R_scope.

Lemma rsum_ext n f g :
  (forall i, (i < n)%nat -> f i = g i) -> rsum n f = rsum n g.
Proof.
  revert f g; induction n as [|n IH]; intros f g H; simpl; auto.
  rewrite (H 0%nat) by lia. f_equal. apply IH. intros i Hi. apply H. lia.
Qed.

Lemma rsum_last n f : rsum (S n) f = rsum n f + f n.
Proof.
  revert f; induction n as [|n IH]; intros f.
  - simpl. ring.
  - change (rsum (S (S n)) f) with (f 0%nat + rsum (S n) (fun i => f (S i))).
    rewrite IH. simpl. ring.
Qed.

Lemma rsum_zero n : rsum n (fun _ => 0) = 0.
Proof. induction n as [|n IH]; simpl; auto. rewrite IH. ring. Qed.

Lemma rsum_add n f g :
  rsum n (fun i => f i + g i) = rsum n f + rsum n g.
Proof.
  revert f g; induction n as [|n IH]; intros f g; simpl.
  - ring.
  - rewrite IH. ring.
Qed.

Lemma rsum_scal n c f : rsum n (fun i => c * f i) = c * rsum n f.
Proof.
  revert f; induction n as [|n IH]; intros f; simpl.
  - ring.
  - rewrite IH. ring.
Qed.

Lemma rsum_opp n f : rsum n (fun i => - f i) = - rsum n f.
Proof.
  revert f; induction n as [|n IH]; intros f; simpl.
  - ring.
  - rewrite IH. ring.
Qed.

Lemma rsum_swap n m (f : nat -> nat -> R) :
  rsum n (fun i => rsum m (fun j => f i j)) =
  rsum m (fun j => rsum n (fun i => f i j)).
Proof.
  revert f; induction n as [|n IH]; intros f; simpl.
  - now rewrite rsum_zero.
  - rewrite IH, <- rsum_add. reflexivity.
Qed.

Lemma rsum_single n k (f : nat -> R) :
  (k < n)%nat -> (forall i, (i < n)%nat -> i <> k -> f i = 0) ->
  rsum n f = f k.
Proof.
  revert k f; induction n as [|n IH]; intros k f Hk H; [lia|].
  simpl. destruct k as [|k].
  - rewrite (rsum_ext n _ (fun _ => 0)), rsum_zero; [ring|].
    intros i Hi. apply H; lia.
  - rewrite (H 0%nat) by lia.
    rewrite (IH k) by (try lia; intros; apply H; lia). ring.
Qed.

Lemma rsum_none n (f : nat -> R) :
  (forall i, (i < n)%nat -> f i = 0) -> rsum n f = 0.
Proof.
  intros H. rewrite (rsum_ext n f (fun _ => 0)) by assumption.
  apply rsum_zero.
Qed.

Lemma rsum_nonneg n f :
  (forall i, (i < n)%nat -> 0 <= f i) -> 0 <= rsum n f.
Proof.
  revert f; induction n as [|n IH]; intros f H; simpl; [lra|].
  pose proof (H 0%nat ltac:(lia)).
  pose proof (IH (fun i => f (S i)) ltac:(intros; apply H; lia)). lra.
Qed.

Lemma rsum_ge_term n f k :
  (forall i, (i < n)%nat -> 0 <= f i) -> (k < n)%nat -> f k <= rsum n f.
Proof.
  revert f k; induction n as [|n IH]; intros f k H Hk; [lia|]. simpl.
  pose proof (H 0%nat ltac:(lia)).
  pose proof (rsum_nonneg n (fun i => f (S i)) ltac:(intros; apply H; lia)).
  destruct k as [|k]; [lra|].
  pose proof (IH (fun i => f (S i)) k ltac:(intros; apply H; lia)
                 ltac:(lia)).
  simpl in *. lra.
Qed.

Lemma rsum_app n m f :
  rsum (n + m) f = rsum n f + rsum m (fun i => f (n + i)%nat).
Proof.
  revert f; induction n as [|n IH]; intros f.
  - rewrite (rsum_ext m (fun i => f (0 + i)%nat) f) by reflexivity.
    simpl. ring.
  - simpl. rewrite IH. ring.
Qed.

(** A sum over [n * m] indices as a double sum over rows and columns. *)
Lemma rsum_grid n m (F : nat -> R) :
  rsum (n * m) F = rsum n (fun i => rsum m (fun k => F (i * m + k)%nat)).
Proof.
  induction n as [|n IH]; [reflexivity|].
  rewrite rsum_last, <- IH.
  replace (S n * m)%nat with (n * m + m)%nat by lia.
  apply rsum_app.
Qed.

Lemma rdot_rsum (u v : vector) :
  length u = length v ->
  rdot u v = rsum (length v) (fun i => nth i u 0 * nth i v 0).
Proof.
  revert v; induction u as [|a u IH]; intros [|b v] H; simpl in *;
    try discriminate; auto.
  rewrite IH by lia. reflexivity.
Qed.

Lemma mvec_mk_nth (r c : nat) (f : nat -> nat -> R) (x : vector) (p : nat) :
  length x = c -> (p < r)%nat ->
  nth p (mvec (mk r c f) x) 0 = rsum c (fun q => f p q * nth q x 0).
Proof.
  intros Hx Hp. unfold mvec, mk. rewrite map_map.
  rewrite (nth_map_seq (fun i => rdot (map (fun j => f i j) (seq 0 c)) x)
             _ _ _ Hp).
  rewrite rdot_rsum by now rewrite length_map, length_seq.
  rewrite Hx. apply rsum_ext. intros q Hq. f_equal.
  exact (nth_map_seq (fun j => f p j) _ _ _ Hq).
Qed.

Lemma length_mvec_mk r c f x : length (mvec (mk r c f) x) = r.
Proof. unfold mvec, mk. now rewrite !length_map, length_seq. Qed.

(** *** The bilinear form of a square matrix *)

Lemma rdot_mvec_bil (n : nat) (a : nat -> nat -> R) (u w : vector) :
  length u = n -> length w = n ->
  rdot u (mvec (mk n n a) w)
  = bil n a (fun p => nth p u 0) (fun q => nth q w 0).
Proof.
  intros Hu Hw. rewrite rdot_rsum by now rewrite length_mvec_mk.
  rewrite length_mvec_mk. unfold bil. apply rsum_ext. intros p Hp.
  now rewrite mvec_mk_nth.
Qed.

Lemma bil_sym (n : nat) (a : nat -> nat -> R) (u w : nat -> R) :
  (forall p q, (p < n)%nat -> (q < n)%nat -> a p q = a q p) ->
  bil n a u w = bil n a w u.
Proof.
  intros Ha. unfold bil.
  rewrite (rsum_ext n _ (fun p => rsum n (fun q => u p * a p q * w q))).
  2:{ intros p Hp. rewrite <- rsum_scal. apply rsum_ext. intros; ring. }
  rewrite rsum_swap. apply rsum_ext. intros q Hq.
  rewrite <- rsum_scal. apply rsum_ext. intros p Hp.
  rewrite (Ha p q) by assumption. ring.
Qed.

(** *** The one-dimensional second difference *)

Lemma rsum_pick (m k : nat) (c : R) (v : nat -> R) :
  rsum m (fun j => (if (j =? k)%nat then c else 0) * v j)
  = if (k <? m)%nat then c * v k else 0.
Proof.
  destruct (Nat.ltb_spec k m) as [H|H].
  - rewrite (rsum_single m k _ H).
    + now rewrite Nat.eqb_refl.
    + intros i _ Hi. destruct (Nat.eqb_spec i k); [contradiction|ring].
  - apply rsum_none. intros i Hi.
    destruct (Nat.eqb_spec i k); [lia|ring].
Qed.

Lemma lap_pad (m : nat) (v : nat -> R) (i : nat) :
  (i < m)%nat ->
  lap m v i = pad m v i - 2 * pad m v (i + 1) + pad m v (i + 2).
Proof.
  intros Hi. unfold lap, tri.
  rewrite (rsum_ext m _ (fun j =>
     (if (j =? i - 1)%nat then (if (0 <? i)%nat then 1 else 0) else 0) * v j
     + ((if (j =? i)%nat then -2 else 0) * v j
        + (if (j =? i + 1)%nat then 1 else 0) * v j))).
  2:{ intros j Hj.
      destruct (Nat.eqb_spec (j + 1) i); destruct (Nat.eqb_spec j (i - 1));
      destruct (Nat.ltb_spec 0 i); try lia; ring. }
  rewrite !rsum_add, !rsum_pick. unfold pad.
  replace (i + 1 - 1)%nat with i by lia.
  replace (i + 2 - 1)%nat with (i + 1)%nat by lia.
  destruct (Nat.ltb_spec (i - 1) m); [|lia].
  destruct (Nat.ltb_spec i m); [|lia].
  destruct (Nat.ltb_spec 0 i); destruct (Nat.leb_spec i m); try lia;
  destruct (Nat.ltb_spec 0 (i + 1)); destruct (Nat.leb_spec (i + 1) m);
    try lia;
  destruct (Nat.ltb_spec 0 (i + 2)); try lia;
  destruct (Nat.ltb_spec (i + 1) m); destruct (Nat.leb_spec (i + 2) m);
    try lia; simpl; ring.
Qed.

(** Summation by parts. *)
Lemma sum_by_parts (g : nat -> R) (m : nat) :
  rsum m (fun i => g (i + 1)%nat * (2 * g (i + 1)%nat - g i - g (i + 2)%nat))
  = rsum m (fun i => (g (i + 1)%nat - g i) * (g (i + 1)%nat - g i))
    - g 0%nat * g 0%nat + g 0%nat * g 1%nat
    + g m * g m - g m * g (m + 1)%nat.
Proof.
  induction m as [|m IH].
  - simpl. ring.
  - rewrite !rsum_last, IH.
    replace (S m + 1)%nat with (m + 2)%nat by lia.
    replace (S m) with (m + 1)%nat by lia. ring.
Qed.

Lemma quad1_squares (m : nat) (v : nat -> R) :
  quad1 m v
  = rsum m (fun i => (pad m v (i + 1) - pad m v i)
                     * (pad m v (i + 1) - pad m v i))
    + pad m v m * pad m v m.
Proof.
  unfold quad1.
  rewrite (rsum_ext m _ (fun i =>
     - (pad m v (i + 1) * (2 * pad m v (i + 1) - pad m v i - pad m v (i + 2))))).
  2:{ intros i Hi. rewrite lap_pad by assumption.
      assert (E : v i = pad m v (i + 1)).
      { unfold pad. destruct (Nat.ltb_spec 0 (i + 1)); [|lia].
        destruct (Nat.leb_spec (i + 1) m); [|lia].
        simpl. f_equal. lia. }
      rewrite E. ring. }
  rewrite rsum_opp, sum_by_parts.
  assert (E0 : pad m v 0 = 0) by reflexivity.
  assert (E1 : pad m v (m + 1) = 0).
  { unfold pad. destruct (Nat.leb_spec (m + 1) m); [lia|].
    now rewrite andb_false_r. }
  rewrite E0, E1. ring.
Qed.

Lemma quad1_nonneg (m : nat) (v : nat -> R) : 0 <= quad1 m v.
Proof.
  rewrite quad1_squares.
  pose proof (rsum_nonneg m (fun i => (pad m v (i + 1) - pad m v i)
                     * (pad m v (i + 1) - pad m v i))
                ltac:(intros; apply Rle_0_sqr)).
  pose proof (Rle_0_sqr (pad m v m)). unfold Rsqr in *. lra.
Qed.

Lemma quad1_pos (m : nat) (v : nat -> R) (k : nat) :
  (k < m)%nat -> v k <> 0 -> 0 < quad1 m v.
Proof.
  intros Hk Hv. destruct (Rle_lt_dec (quad1 m v) 0) as [Hle|]; [|assumption].
  exfalso. rewrite quad1_squares in Hle.
  set (f := fun i => (pad m v (i + 1) - pad m v i)
                     * (pad m v (i + 1) - pad m v i)) in *.
  assert (Hf : forall i, (i < m)%nat -> 0 <= f i)
    by (intros; apply Rle_0_sqr).
  pose proof (rsum_nonneg m f Hf) as Hs.
  pose proof (Rle_0_sqr (pad m v m)) as Hm. unfold Rsqr in Hm.
  assert (Hstep : forall i, (i < m)%nat -> pad m v (i + 1) = pad m v i).
  { intros i Hi. pose proof (rsum_ge_term m f i Hf Hi) as Hi'.
    assert (E : f i = 0) by (pose proof (Hf i Hi); lra).
    unfold f in E. apply Rmult_integral in E. lra. }
  assert (Hall : forall i, (i <= m)%nat -> pad m v i = 0).
  { induction i as [|i IH]; intros Hi; [reflexivity|].
    replace (S i) with (i + 1)%nat by lia.
    rewrite Hstep by lia. apply IH. lia. }
  apply Hv. specialize (Hall (k + 1)%nat ltac:(lia)).
  unfold pad in Hall. destruct (Nat.ltb_spec 0 (k + 1)); [|lia].
  destruct (Nat.leb_spec (k + 1) m); [|lia]. simpl in Hall.
  now replace (k + 1 - 1)%nat with k in Hall by lia.
Qed.

(** *** The two-dimensional operator *)

Lemma divmod_grid (m i k : nat) :
  (k < m)%nat -> ((i * m + k) / m = i /\ (i * m + k) mod m = k)%nat.
Proof.
  intros Hk. split.
  - rewrite Nat.add_comm, Nat.div_add, Nat.div_small by lia. reflexivity.
  - rewrite Nat.add_comm, Nat.Div0.mod_add, Nat.mod_small by lia. reflexivity.
Qed.

Lemma sys_grid (m i k j l : nat) :
  (k < m)%nat -> (l < m)%nat ->
  sys m (i * m + k) (j * m + l)
  = - (tri i j * delta k l + delta i j * tri k l).
Proof.
  intros Hk Hl. unfold sys.
  destruct (divmod_grid m i k Hk) as [-> ->].
  destruct (divmod_grid m j l Hl) as [-> ->]. reflexivity.
Qed.

Lemma sys_row_sum (m : nat) (x : nat -> R) (i k : nat) :
  (i < m)%nat -> (k < m)%nat ->
  rsum (m * m) (fun q => sys m (i * m + k) q * x q)
  = - (lap m (fun j => x (j * m + k)%nat) i
       + lap m (fun l => x (i * m + l)%nat) k).
Proof.
  intros Hi Hk. rewrite rsum_grid.
  rewrite (rsum_ext m _ (fun j =>
     - (tri i j * x (j * m + k)%nat)
     + - (delta i j * rsum m (fun l => tri k l * x (j * m + l)%nat)))).
  2:{ intros j Hj.
      rewrite (rsum_ext m _ (fun l =>
         - (tri i j) * (delta k l * x (j * m + l)%nat)
         + - (delta i j) * (tri k l * x (j * m + l)%nat))).
      2:{ intros l Hl. rewrite sys_grid by assumption. ring. }
      rewrite rsum_add, !rsum_scal.
      rewrite (rsum_single m k (fun l => delta k l * x (j * m + l)%nat) Hk).
      - unfold delta at 1. rewrite Nat.eqb_refl. ring.
      - intros l _ Hl. unfold delta.
        destruct (Nat.eqb_spec k l); [congruence|ring]. }
  rewrite rsum_add, !rsum_opp. unfold lap at 1.
  rewrite (rsum_single m i
             (fun j => delta i j * rsum m (fun l => tri k l * x (j * m + l)%nat))
             Hi).
  - unfold delta. rewrite Nat.eqb_refl. unfold lap. ring.
  - intros j _ Hj. unfold delta.
    destruct (Nat.eqb_spec i j); [congruence|ring].
Qed.

Lemma bil_sys (m : nat) (x : nat -> R) :
  bil (m * m) (sys m) x x
  = rsum m (fun k => quad1 m (fun i => x (i * m + k)%nat))
    + rsum m (fun i => quad1 m (fun k => x (i * m + k)%nat)).
Proof.
  unfold bil. rewrite rsum_grid.
  rewrite (rsum_ext m _ (fun i =>
     rsum m (fun k => - (x (i * m + k)%nat * lap m (fun j => x (j * m + k)%nat) i))
     + quad1 m (fun k => x (i * m + k)%nat))).
  2:{ intros i Hi. unfold quad1. rewrite <- rsum_opp, <- rsum_add.
      apply rsum_ext. intros k Hk. rewrite sys_row_sum by assumption. ring. }
  rewrite rsum_add. f_equal.
  rewrite rsum_swap. apply rsum_ext. intros k Hk.
  unfold quad1. now rewrite rsum_opp.
Qed.

Lemma bil_sys_nonneg (m : nat) (x : nat -> R) : 0 <= bil (m * m) (sys m) x x.
Proof.
  rewrite bil_sys.
  pose proof (rsum_nonneg m (fun k => quad1 m (fun i => x (i * m + k)%nat))
                ltac:(intros; apply quad1_nonneg)).
  pose proof (rsum_nonneg m (fun i => quad1 m (fun k => x (i * m + k)%nat))
                ltac:(intros; apply quad1_nonneg)).
  lra.
Qed.

Lemma bil_sys_pos (m : nat) (x : nat -> R) (p : nat) :
  (p < m * m)%nat -> x p <> 0 -> 0 < bil (m * m) (sys m) x x.
Proof.
  intros Hp Hx. rewrite bil_sys.
  assert (Hm : m <> 0%nat) by (intros ->; lia).
  assert (Hi : (p / m < m)%nat) by (apply Nat.Div0.div_lt_upper_bound; lia).
  assert (Hk : (p mod m < m)%nat) by now apply Nat.mod_upper_bound.
  pose proof (rsum_nonneg m (fun k => quad1 m (fun i => x (i * m + k)%nat))
                ltac:(intros; apply quad1_nonneg)) as H1.
  pose proof (rsum_ge_term m (fun i => quad1 m (fun k => x (i * m + k)%nat))
                (p / m) ltac:(intros; apply quad1_nonneg) Hi) as H2.
  cbv beta in H2.
  assert (H3 : 0 < quad1 m (fun k => x (p / m * m + k)%nat)).
  { apply (quad1_pos m _ (p mod m) Hk).
    replace (p / m * m + p mod m)%nat with p; [assumption|].
    rewrite (Nat.div_mod_eq p m) at 1. lia. }
  lra.
Qed.

Lemma tri_sym (i j : nat) : tri i j = tri j i.
Proof.
  unfold tri.
  destruct (Nat.eqb_spec (j + 1) i); destruct (Nat.eqb_spec j i);
  destruct (Nat.eqb_spec j (i + 1)); destruct (Nat.eqb_spec (i + 1) j);
  destruct (Nat.eqb_spec i j); destruct (Nat.eqb_spec i (j + 1));
  try lia; ring.
Qed.

Lemma delta_sym (i j : nat) : delta i j = delta j i.
Proof.
  unfold delta. destruct (Nat.eqb_spec i j); destruct (Nat.eqb_spec j i);
    try lia; reflexivity.
Qed.

Lemma sys_sym (m p q : nat) : sys m p q = sys m q p.
Proof.
  unfold sys.
  now rewrite (tri_sym (p / m)), (tri_sym (p mod m)),
    (delta_sym (p / m)), (delta_sym (p mod m)).
Qed.

(** *** Eigenvalues of a symmetric positive-definite matrix *)

Section Eigen.

Variable n : nat.
Variable a : nat -> nat -> R.
Hypothesis a_sym : forall p q, (p < n)%nat -> (q < n)%nat -> a p q = a q p.
Hypothesis a_nonneg : forall u, 0 <= bil n a u u.
Hypothesis a_pos :
  forall u p, (p < n)%nat -> u p <> 0 -> 0 < bil n a u u.

Lemma ip_nonneg u : 0 <= ip n u u.
Proof. apply rsum_nonneg. intros. apply Rle_0_sqr. Qed.

Lemma ip_pos u p : (p < n)%nat -> u p <> 0 -> 0 < ip n u u.
Proof.
  intros Hp Hu.
  pose proof (rsum_ge_term n (fun p => u p * u p) p
                ltac:(intros; apply Rle_0_sqr) Hp) as H.
  cbv beta in H. pose proof (Rsqr_pos_lt (u p) Hu) as H'.
  unfold Rsqr in H'. unfold ip. lra.
Qed.

Lemma ip_comm u w : ip n u w = ip n w u.
Proof. apply rsum_ext. intros. ring. Qed.

Lemma bil_image (u w : nat -> R) (c1 c2 : R) (v1 v2 : nat -> R) :
  (forall p, (p < n)%nat ->
     rsum n (fun q => a p q * w q) = c1 * v1 p + c2 * v2 p) ->
  bil n a u w = c1 * ip n u v1 + c2 * ip n u v2.
Proof.
  intros H. unfold bil, ip. rewrite <- !rsum_scal, <- rsum_add.
  apply rsum_ext. intros p Hp. rewrite H by assumption. ring.
Qed.

(** A complex eigenvalue [lr + i li] with eigenvector [u + i w]. *)
Lemma eigenvalue_real_positive (lr li : R) (u w : nat -> R) :
  (forall p, (p < n)%nat ->
     rsum n (fun q => a p q * u q) = lr * u p + (- li) * w p) ->
  (forall p, (p < n)%nat ->
     rsum n (fun q => a p q * w q) = li * u p + lr * w p) ->
  (exists p, (p < n)%nat /\ (u p <> 0 \/ w p <> 0)) ->
  li = 0 /\ 0 < lr.
Proof.
  intros Hu Hw [p [Hp Hne]].
  pose proof (bil_image u w li lr u w Hw) as Buw.
  pose proof (bil_image w u lr (- li) u w Hu) as Bwu.
  pose proof (bil_image u u lr (- li) u w Hu) as Buu.
  pose proof (bil_image w w li lr u w Hw) as Bww.
  pose proof (bil_sym n a u w a_sym) as Hs.
  pose proof (ip_comm u w) as Hc.
  pose proof (ip_nonneg u) as Nu. pose proof (ip_nonneg w) as Nw.
  assert (Hnorm : 0 < ip n u u + ip n w w).
  { destruct Hne as [H|H]; [pose proof (ip_pos u p Hp H)
                           |pose proof (ip_pos w p Hp H)]; lra. }
  assert (Hquad : 0 < bil n a u u + bil n a w w).
  { pose proof (a_nonneg u) as Pu. pose proof (a_nonneg w) as Pw.
    destruct Hne as [H|H]; [pose proof (a_pos u p Hp H)
                           |pose proof (a_pos w p Hp H)]; lra. }
  assert (Hli : li * (ip n u u + ip n w w) = 0).
  { rewrite Buw, Bwu, <- Hc in Hs. lra. }
  assert (E : li = 0).
  { apply Rmult_integral in Hli. lra. }
  split; [exact E|].
  rewrite Buu, Bww, E, <- Hc in Hquad.
  assert (Hlr : 0 < lr * (ip n u u + ip n w w)) by lra.
  destruct (Rle_lt_dec lr 0) as [Hle|]; [|assumption].
  exfalso. assert (lr * (ip n u u + ip n w w) <= 0) by nra. lra.
Qed.

End Eigen.

(** *** From lists to entries *)

Lemma transpose_mk (r c : nat) (f : nat -> nat -> R) :
  (0 < r)%nat -> transpose (mk r c f) = mk c r (fun i j => f j i).
Proof.
  intros Hr. destruct r as [|r]; [lia|].
  unfold transpose, mk. cbn [seq map]. rewrite length_map, length_seq.
  apply map_ext_in. intros j Hj. apply in_seq in Hj.
  cbn [map]. f_equal.
  - apply (nth_map_seq (fun j => f 0%nat j)). lia.
  - rewrite map_map. apply map_ext. intros i.
    apply (nth_map_seq (fun j => f i j)). lia.
Qed.

Lemma nonzero_entry (x : vector) :
  x <> zeros (length x) -> exists p, (p < length x)%nat /\ nth p x 0 <> 0.
Proof.
  induction x as [|a x IH]; intros H; [now contradiction H|].
  destruct (Req_dec a 0) as [->|Ha].
  - destruct IH as [p [Hp Hx]].
    + intros E. apply H. simpl. unfold zeros in *. simpl. now rewrite <- E.
    + exists (S p). split; [simpl; lia|exact Hx].
  - exists 0%nat. split; [simpl; lia|exact Ha].
Qed.

Lemma nth_scale (c : R) (v : vector) (p : nat) :
  nth p (scale c v) 0 = c * nth p v 0.
Proof.
  unfold scale. revert p; induction v as [|a v IH]; intros [|p]; simpl;
    try ring; auto.
Qed.

Lemma nth_vadd (u v : vector) (p : nat) :
  length u = length v -> nth p (vadd u v) 0 = nth p u 0 + nth p v 0.
Proof.
  revert v p; induction u as [|a u IH]; intros [|b v] [|p] H; simpl in *;
    try discriminate; try ring.
  apply IH. lia.
Qed.

Lemma nth_vsub (u v : vector) (p : nat) :
  length u = length v -> nth p (vsub u v) 0 = nth p u 0 - nth p v 0.
Proof.
  intros H. unfold vsub. rewrite nth_vadd by now rewrite length_map.
  replace 0 with (- 0) at 2 by ring. rewrite map_nth. ring.
Qed.

Lemma length_scale c v : length (scale c v) = length v.
Proof. apply length_map. Qed.

Lemma mk_rows (r c : nat) (f : nat -> nat -> R) (row : list R) :
  In row (mk r c f) -> length row = c.
Proof.
  unfold mk. intros H. apply in_map_iff in H. destruct H as [i [<- _]].
  now rewrite length_map, length_seq.
Qed.

(** C3, as stated, fails: the function negates the Kronecker sum, so the
    matrix is positive where the claim says negative.  On the smallest
    grid it is the 1-by-1 matrix [[4]], whose eigenvalue is 4. *)
Lemma setupSystemMatrix_N3 :
  setupSystemMatrix 3 = Ok [[4]]
  /\ mvec [[4]] [1] = scale 4 [1]
  /\ [1] <> zeros 1
  /\ ~ (4 < 0)
  /\ ~ (rdot [1] (mvec [[4]] [1]) < 0).
Proof.
  split; [|split; [|split; [|split]]].
  - change 3%Z with (Z.of_nat 1 + 2)%Z.
    rewrite (setupSystemMatrix_mk 1 (le_n 1)). unfold mk, sys, tri, delta.
    simpl. do 3 f_equal. ring.
  - simpl. f_equal. ring.
  - unfold zeros. simpl. intros H. injection H as H. lra.
  - lra.
  - simpl. lra.
Qed.

(** C3 (amended): for every grid size [N >= 3] the matrix returned by
    [setupSystemMatrix N] is square of order [(N-2)^2], equals its
    transpose and is positive-definite: [x.(A x) > 0] for every non-zero
    real vector [x], and every eigenvalue [lr + i li], with a non-zero
    complex eigenvector [u + i w], is real and strictly positive. *)
Theorem setupSystemMatrix_symmetric_positive_definite (N : Z) :
  (3 <= N)%Z ->
  let n := Z.to_nat ((N - 2) * (N - 2)) in
  exists A,
    setupSystemMatrix N = Ok A /\
    length A = n /\
    (forall row, In row A -> length row = n) /\
    transpose A = A /\
    (forall x, length x = n -> x <> zeros n -> 0 < rdot x (mvec A x)) /\
    (forall (lr li : R) (u w : vector),
       length u = n -> length w = n ->
       u <> zeros n \/ w <> zeros n ->
       mvec A u = vsub (scale lr u) (scale li w) ->
       mvec A w = vadd (scale li u) (scale lr w) ->
       li = 0 /\ 0 < lr).
Proof.
  intros HN n. set (m := Z.to_nat (N - 2)).
  assert (Hm : (1 <= m)%nat) by (unfold m; lia).
  assert (Hn : n = (m * m)%nat) by (unfold n, m; nia).
  exists (mk n n (sys m)). split.
  { rewrite Hn, <- (setupSystemMatrix_mk m Hm). f_equal. unfold m. lia. }
  split. { unfold mk. now rewrite length_map, length_seq. }
  split. { apply mk_rows. }
  split.
  { rewrite transpose_mk by nia. unfold mk. apply map_ext. intros i.
    apply map_ext. intros j. apply sys_sym. }
  split.
  { intros x Hx Hne. rewrite rdot_mvec_bil by (assumption || reflexivity).
    rewrite <- Hx in Hne. destruct (nonzero_entry x Hne) as [p [Hp Hxp]].
    rewrite Hn. apply (bil_sys_pos m _ p); [lia|exact Hxp]. }
  intros lr li u w Hu Hw Hne Eu Ew.
  assert (Hnonneg : forall x, 0 <= bil n (sys m) x x)
    by (intros x; rewrite Hn; apply bil_sys_nonneg).
  assert (Hpos : forall x p, (p < n)%nat -> x p <> 0 -> 0 < bil n (sys m) x x)
    by (intros x p Hp Hx; rewrite Hn in *; now apply (bil_sys_pos m x p)).
  apply (eigenvalue_real_positive n (sys m)
           (fun p q _ _ => sys_sym m p q) Hnonneg Hpos
           lr li (fun p => nth p u 0) (fun p => nth p w 0)).
  - intros p Hp. rewrite <- (mvec_mk_nth n n (sys m) u p Hu Hp), Eu.
    rewrite nth_vsub, !nth_scale by (rewrite !length_scale; lia). ring.
  - intros p Hp. rewrite <- (mvec_mk_nth n n (sys m) w p Hw Hp), Ew.
    rewrite nth_vadd, !nth_scale by (rewrite !length_scale; lia). ring.
  - destruct Hne as [H|H].
    + rewrite <- Hu in H. destruct (nonzero_entry u H) as [p [Hp Hx]].
      exists p. split; [lia|now left].
    + rewrite <- Hw in H. destruct (nonzero_entry w H) as [p [Hp Hx]].
      exists p. split; [lia|now right].
Qed.

Lemma setupSystemMatrix_symmetric_positive_definite_witness :
  (3 <= 4)%Z /\
  exists A, setupSystemMatrix 4 = Ok A /\ length A = 4%nat /\ transpose A = A.
Proof.
  assert (H : (3 <= 4)%Z) by lia.
  split; [exact H|].
  destruct (setupSystemMatrix_symmetric_positive_definite 4 H)
    as (A & E & L & _ & T & _).
  exists A. split; [exact E|]. split; [exact L|exact T].
Defined.

End PoissonFacts.

(** ** Further laws of the transforms *)

Module FftLaws.

Import Fft PyFacts CplxFacts FftFacts FftNotions.

Lemma Cexp_IDFT_formula_entry (N k n : nat) :
  N <> 0 ->
  Cexp (Ci * RtoC 2 * RtoC PI / NtoC N * NtoC k * NtoC n)%C
  = Cconj (omega N (k * n)).
Proof.
  intros HN. apply INR_ne_0 in HN.
  unfold Cexp, omega, Cconj. rewrite mult_INR.
  replace (Re (Ci * RtoC 2 * RtoC PI / NtoC N * NtoC k * NtoC n)%C)
    with 0%R by (simpl; field; assumption).
  replace (Im (Ci * RtoC 2 * RtoC PI / NtoC N * NtoC k * NtoC n)%C)
    with (2 * PI * (INR k * INR n) / INR N)%R by (simpl; field; assumption).
  rewrite exp_0. simpl. f_equal; ring.
Qed.

(** X1: [IDFT] raises [ZeroDivisionError] on the empty sequence; on every
    other sequence it returns the sequence of the same length whose entry
    [n] is [1/N] times the sum over [k] of [X[k] * exp(+2 pi i k n / N)]. *)
Theorem IDFT_is_the_defining_sum (X : list C) :
  IDFT X = if length X =? 0 then Raise ZeroDivisionError
           else Ok (map (IDFT_formula X) (seq 0 (length X))).
Proof.
  destruct (Nat.eqb_spec (length X) 0) as [E|E].
  - unfold IDFT, int_truediv. now rewrite E.
  - rewrite IDFT_sum by assumption. f_equal.
    apply map_ext_in. intros n Hn. unfold IDFT_formula.
    rewrite <- csum_scal. apply csum_ext. intros k Hk.
    rewrite Cexp_IDFT_formula_entry by assumption.
    replace (1 / INR (length X))%R with (/ INR (length X))%R
      by (unfold Rdiv; ring).
    ring.
Qed.

Lemma transform_entry (X : list C) (k : nat) :
  k < length X ->
  csum (length X) (fun n =>
    (omega (length X) (k * n)
     * csum (length X) (fun l =>
         (RtoC (/ INR (length X)) * Cconj (omega (length X) (l * n))
          * item X l)))%C)
  = item X k.
Proof.
  intros Hk. set (N := length X) in *.
  assert (HN : N <> 0) by lia.
  rewrite (csum_ext N _ (fun n => csum N (fun l =>
             (RtoC (/ INR N) * item X l * omega N (n * (N - l + k)))%C))).
  2:{ intros n Hn. rewrite <- csum_scal. apply csum_ext. intros l Hl.
      rewrite (Nat.mul_comm l n), omega_conj_shift by lia.
      rewrite (Nat.mul_comm k n), Nat.mul_add_distr_l, omega_add. ring. }
  rewrite csum_swap. rewrite (csum_single N k).
  - rewrite csum_scal, omega_sum_full.
    + transitivity ((RtoC (/ INR N) * NtoC N) * item X k)%C; [ring|].
      rewrite RtoC_inv_N by assumption. ring.
    + assumption.
    + replace (N - k + k) with N by lia. apply Nat.Div0.mod_same.
  - assumption.
  - intros l Hl Hne. rewrite csum_scal, omega_sum_zero; [ring|assumption|].
    intros E. apply Hne.
    destruct (le_lt_dec l k) as [Hle|Hlt].
    + replace (N - l + k) with ((k - l) + 1 * N) in E by lia.
      rewrite Nat.Div0.mod_add, Nat.mod_small in E by lia. lia.
    + rewrite Nat.mod_small in E by lia. lia.
Qed.

(** X2: on a sequence of length at least 1, [DFT] undoes [IDFT]. *)
Theorem DFT_inverts_IDFT (X : list C) :
  1 <= length X -> (x <- IDFT X ;; Ok (DFT x)) = Ok X.
Proof.
  intros HN. rewrite IDFT_sum by lia. unfold bind. f_equal.
  set (x := map _ _).
  assert (Lx : length x = length X)
    by (unfold x; now rewrite length_map, length_seq).
  apply (nth_ext _ _ C0 C0); [now rewrite DFT_length|].
  rewrite DFT_length, Lx. intros k Hk.
  rewrite DFT_nth by lia. rewrite Lx.
  change (nth k X C0) with (item X k).
  rewrite <- (transform_entry X k Hk).
  apply csum_ext. intros n Hn. f_equal. unfold item at 1, x.
  exact (nth_map_seq (fun n => csum (length X) (fun k0 =>
           (RtoC (/ INR (length X)) * Cconj (omega (length X) (k0 * n))
            * item X k0)%C)) _ _ _ Hn).
Qed.

Lemma DFT_inverts_IDFT_witness :
  1 <= length [Ci; C1; C0] /\
  (x <- IDFT [Ci; C1; C0] ;; Ok (DFT x)) = Ok [Ci; C1; C0].
Proof.
  assert (H : 1 <= length [Ci; C1; C0]) by (simpl; lia).
  split; [exact H|]. exact (DFT_inverts_IDFT [Ci; C1; C0] H).
Defined.

Lemma length_axpby a x b y :
  length (axpby a x b y) = Nat.min (length x) (length y).
Proof.
  revert y; induction x as [|u x IH]; intros [|v y]; simpl; auto.
Qed.

Lemma nth_axpby a x b y i :
  i < length x -> i < length y ->
  nth i (axpby a x b y) C0 = (a * nth i x C0 + b * nth i y C0)%C.
Proof.
  revert y i; induction x as [|u x IH]; intros [|v y] [|i]; simpl;
    intros Hx Hy; try lia; auto.
  apply IH; lia.
Qed.

(** X3: [DFT] is linear: on sequences of one length, the transform of
    [a * x + b * y] is [a * DFT x + b * DFT y]. *)
Theorem DFT_linear (a b : C) (x y : list C) :
  length x = length y ->
  DFT (axpby a x b y) = axpby a (DFT x) b (DFT y).
Proof.
  intros Hxy.
  assert (L : length (axpby a x b y) = length x)
    by (rewrite length_axpby, <- Hxy; apply Nat.min_id).
  apply (nth_ext _ _ C0 C0).
  - rewrite length_axpby, !DFT_length, L, <- Hxy. now rewrite Nat.min_id.
  - rewrite DFT_length, L. intros k Hk.
    rewrite nth_axpby by (rewrite DFT_length; lia).
    rewrite !DFT_nth by lia. rewrite L, <- Hxy.
    rewrite <- !csum_scal, <- csum_add.
    apply csum_ext. intros n Hn. unfold item.
    rewrite nth_axpby by lia. ring.
Qed.

Lemma DFT_linear_witness :
  length [C1; Ci] = length [Ci; C0] /\
  DFT (axpby Ci [C1; Ci] C1 [Ci; C0])
  = axpby Ci (DFT [C1; Ci]) C1 (DFT [Ci; C0]).
Proof.
  split; [reflexivity|]. exact (DFT_linear Ci C1 [C1; Ci] [Ci; C0] eq_refl).
Defined.

(** X5: whenever [FFT] returns, the result has the length of the input
    and [IDFT] takes it back to the input. *)
Theorem IDFT_inverts_FFT (x r : list C) :
  FFT x = Ok r -> length r = length x /\ IDFT r = Ok x.
Proof.
  intros H.
  destruct (log2_is_integer (length x)) as [[|]|e] eqn:E;
    try (rewrite FFT_unfold, E in H; discriminate).
  destruct (log2_is_integer_true _ E) as [k Hk].
  rewrite (FFT_DFT k x Hk) in H. injection H as <-.
  split; [apply DFT_length|].
  apply IDFT_DFT. rewrite Hk. apply Nat.pow_nonzero. lia.
Qed.

Lemma IDFT_inverts_FFT_witness :
  FFT a_digits = Ok (DFT a_digits) /\
  length (DFT a_digits) = length a_digits /\ IDFT (DFT a_digits) = Ok a_digits.
Proof.
  assert (H : FFT a_digits = Ok (DFT a_digits)) by exact (FFT_DFT 3 a_digits eq_refl).
  split; [exact H|]. exact (IDFT_inverts_FFT a_digits (DFT a_digits) H).
Defined.

(** X4: for sequences of one length, the entrywise product of their
    transforms is the transform of their circular convolution. *)
Theorem DFT_convolution (a b : list C) :
  length a = length b ->
  multiply (DFT a) (DFT b) = DFT (cconv a b).
Proof. exact (DFT_cconv a b). Qed.

Lemma DFT_convolution_witness :
  length a_digits = length b_digits /\
  multiply (DFT a_digits) (DFT b_digits) = DFT (cconv a_digits b_digits).
Proof.
  split; [reflexivity|]. exact (DFT_convolution a_digits b_digits eq_refl).
Defined.

(** X6: transforming two sequences of one power-of-two length with
    [FFT], multiplying entry by entry and applying [IDFT] gives their
    circular convolution. *)
Theorem FFT_multiply_IDFT (a b : list C) (k : nat) :
  length a = 2 ^ k -> length b = 2 ^ k ->
  (af <- FFT a ;; bf <- FFT b ;; IDFT (multiply af bf)) = Ok (cconv a b).
Proof.
  intros Ha Hb. rewrite (FFT_DFT k a Ha), (FFT_DFT k b Hb).
  unfold bind. rewrite DFT_cconv by lia.
  apply IDFT_DFT. rewrite length_cconv, Ha. apply Nat.pow_nonzero. lia.
Qed.

Lemma FFT_multiply_IDFT_witness :
  length a_digits = 2 ^ 3 /\ length b_digits = 2 ^ 3 /\
  (af <- FFT a_digits ;; bf <- FFT b_digits ;; IDFT (multiply af bf))
  = Ok (cconv a_digits b_digits).
Proof.
  split; [reflexivity|]. split; [reflexivity|].
  exact (FFT_multiply_IDFT a_digits b_digits 3 eq_refl eq_refl).
Defined.

(** *** Multiplication of numbers through the transform *)

Section Evaluation.

(** The powers of a fixed base. *)
Variable pw : nat -> C.
Hypothesis pw_add : forall i j, pw (i + j) = (pw i * pw j)%C.

(** Without wrap-around the circular convolution, evaluated at the base,
    is the product of the two evaluations. *)
Lemma cconv_eval (a b : list C) :
  length a = length b ->
  (forall l m, l < length a -> m < length a -> length a <= l + m ->
     (item a l * item b m)%C = C0) ->
  csum (length a) (fun n => (item (cconv a b) n * pw n)%C)
  = (csum (length a) (fun l => (item a l * pw l)%C)
     * csum (length a) (fun m => (item b m * pw m)%C))%C.
Proof.
  intros Hab Hwrap. set (N := length a) in *.
  rewrite (csum_ext N _ (fun n => csum N (fun l =>
             (item a l * item b ((n + N - l) mod N) * pw n)%C))).
  2:{ intros n Hn. unfold item at 1, cconv. fold N.
      rewrite (nth_map_seq (fun n => csum N (fun l =>
                 (item a l * item b ((n + N - l) mod N))%C)) _ _ _ Hn).
      rewrite Cmul_comm0, <- csum_scal. apply csum_ext. intros; ring. }
  rewrite csum_swap.
  assert (HN : N <> 0 \/ N = 0) by lia.
  transitivity (csum N (fun l => csum N (fun m =>
                  (item a l * item b m * (pw l * pw m))%C))).
  - apply csum_ext. intros l Hl. assert (HN0 : N <> 0) by lia.
    set (F := fun m => (item a l * item b m * pw ((m + l) mod N))%C).
    rewrite (csum_ext N _ (fun n => F ((n + (N - l)) mod N))).
    2:{ intros n Hn. unfold F.
        replace (n + (N - l)) with (n + N - l) by lia.
        rewrite Nat.Div0.add_mod_idemp_l.
        replace (n + N - l + l) with (n + 1 * N) by lia.
        rewrite Nat.Div0.mod_add, (Nat.mod_small n N) by lia.
        reflexivity. }
    rewrite (csum_rot N (N - l) F) by lia.
    apply csum_ext. intros m Hm. unfold F.
    destruct (le_lt_dec N (l + m)) as [Hw|Hs].
    + rewrite (Hwrap l m Hl Hm Hw). ring.
    + rewrite Nat.mod_small by lia.
      rewrite (Nat.add_comm m l), pw_add. reflexivity.
  - rewrite (csum_ext N _ (fun l =>
               (csum N (fun m => (item b m * pw m)%C) * (item a l * pw l))%C)).
    + rewrite csum_scal. ring.
    + intros l Hl. rewrite Cmul_comm0, <- csum_scal.
      apply csum_ext. intros m Hm. ring.
Qed.

End Evaluation.

Lemma ZtoC_add (p q : Z) : ZtoC (p + q) = (ZtoC p + ZtoC q)%C.
Proof. apply C_eq; simpl; [apply plus_IZR|ring]. Qed.

Lemma ZtoC_mul (p q : Z) : ZtoC (p * q) = (ZtoC p * ZtoC q)%C.
Proof. apply C_eq; simpl; [rewrite mult_IZR|]; ring. Qed.

Lemma NtoC_pow10_add (i j : nat) :
  NtoC (10 ^ (i + j)) = (NtoC (10 ^ i) * NtoC (10 ^ j))%C.
Proof.
  rewrite Nat.pow_add_r. apply C_eq; simpl; [rewrite mult_INR|]; ring.
Qed.

Lemma item_ZtoC (ds : list Z) (i : nat) :
  item (map ZtoC ds) i = ZtoC (nth i ds 0%Z).
Proof. unfold item. change C0 with (ZtoC 0). apply map_nth. Qed.

(** The digits weighted by the powers of ten add up to the number. *)
Lemma csum_number (ds : list Z) :
  csum (length ds) (fun i => (item (map ZtoC ds) i * NtoC (10 ^ i))%C)
  = ZtoC (number ds).
Proof.
  induction ds as [|d ds IH].
  - reflexivity.
  - cbn [length csum number].
    rewrite (csum_ext (length ds) _ (fun i =>
               (ZtoC 10 * (item (map ZtoC ds) i * NtoC (10 ^ i)))%C)).
    + rewrite csum_scal, IH, ZtoC_add, ZtoC_mul.
      unfold item. cbn [map nth Nat.pow]. 
      replace (NtoC 1) with C1 by (apply C_eq; simpl; ring). ring.
    + intros i Hi. unfold item. cbn [map nth].
      replace (S i) with (1 + i) by lia. rewrite NtoC_pow10_add.
      replace (NtoC (10 ^ 1)) with (ZtoC 10)
        by (apply C_eq; simpl; ring).
      ring.
Qed.

Lemma dot_powers (c : list C) :
  dot c (map (fun i => NtoC (10 ^ i)) (seq 0 (length c)))
  = csum (length c) (fun i => (item c i * NtoC (10 ^ i))%C).
Proof.
  rewrite dot_csum by now rewrite length_map, length_seq.
  rewrite length_map, length_seq.
  apply csum_ext. intros i Hi. unfold item. f_equal.
  exact (nth_map_seq (fun i => NtoC (10 ^ i)) _ _ _ Hi).
Qed.

(** X7: the steps of the multiplication cell, on any two sequences of
    integer digits (lowest first) of one power-of-two length whose product
    does not wrap around, return the product of the two numbers. *)
Theorem fft_multiplication_correct (a b : list Z) (k : nat) :
  length a = 2 ^ k -> length b = 2 ^ k ->
  (forall l m, l < 2 ^ k -> m < 2 ^ k -> 2 ^ k <= l + m ->
     (nth l a 0 * nth m b 0 = 0)%Z) ->
  (af <- FFT (map ZtoC a) ;;
   bf <- FFT (map ZtoC b) ;;
   let cf := multiply af bf in
   c <- IDFT cf ;;
   let powers :=
     map (fun i => NtoC (10 ^ i)) (seq 0 (length (map ZtoC a))) in
   Ok (np_round (Re (dot c powers))))
  = Ok (number a * number b)%Z.
Proof.
  intros Ha Hb Hwrap.
  assert (LA : length (map ZtoC a) = 2 ^ k) by now rewrite length_map.
  assert (LB : length (map ZtoC b) = 2 ^ k) by now rewrite length_map.
  rewrite (FFT_DFT k _ LA), (FFT_DFT k _ LB).
  unfold bind at 1. unfold bind at 1. cbv zeta.
  rewrite DFT_cconv by lia.
  rewrite IDFT_DFT by (rewrite length_cconv, LA; apply Nat.pow_nonzero; lia).
  unfold bind.
  rewrite <- (length_cconv (map ZtoC a) (map ZtoC b)), dot_powers.
  rewrite length_cconv.
  rewrite (cconv_eval (fun i => NtoC (10 ^ i)) NtoC_pow10_add) by
    (try lia; rewrite LA; intros l m Hl Hm Hw;
     rewrite !item_ZtoC, <- ZtoC_mul, (Hwrap l m Hl Hm Hw); reflexivity).
  rewrite length_map at 1. rewrite csum_number.
  replace (length (map ZtoC a)) with (length b) by lia.
  rewrite csum_number, <- ZtoC_mul. simpl Re.
  now rewrite np_round_IZR.
Qed.

Lemma fft_multiplication_correct_witness :
  (af <- FFT (map ZtoC [9; 9; 0; 0]%Z) ;;
   bf <- FFT (map ZtoC [7; 0; 0; 0]%Z) ;;
   let cf := multiply af bf in
   c <- IDFT cf ;;
   let powers :=
     map (fun i => NtoC (10 ^ i))
         (seq 0 (length (map ZtoC [9; 9; 0; 0]%Z))) in
   Ok (np_round (Re (dot c powers))))
  = Ok 693%Z.
Proof.
  apply (fft_multiplication_correct [9; 9; 0; 0]%Z [7; 0; 0; 0]%Z 2);
    try reflexivity.
  intros l m Hl Hm Hw. change (2 ^ 2) with 4 in *.
  destruct m as [|[|[|[|m]]]]; cbn [nth]; try lia.
Defined.

End FftLaws.

(** ** Trigonometric interpolation *)

Module InterpFacts.

Import Fft PyFacts CplxFacts FftFacts Interp.

Lemma fold_left_Cadd (l : list C) (c : C) :
  fold_left Cadd l c = (c + fold_right Cadd C0 l)%C.
Proof.
  revert c; induction l as [|a l IH]; intros c; simpl.
  - ring.
  - rewrite IH. ring.
Qed.

Lemma fold_right_map_seq (f : nat -> C) (n : nat) :
  fold_right Cadd C0 (map f (seq 0 n)) = csum n f.
Proof.
  rewrite fold_right_csum, length_map, length_seq.
  apply csum_ext. intros i Hi. exact (nth_map_seq f _ _ _ Hi).
Qed.

Lemma Cexp_coeff_entry (N j k : nat) :
  N <> 0 ->
  Cexp (- Ci * NtoC j * RtoC (2 * PI * INR k / INR N))%C = omega N (j * k).
Proof.
  intros HN. apply INR_ne_0 in HN.
  unfold Cexp, omega. rewrite mult_INR.
  replace (Re (- Ci * NtoC j * RtoC (2 * PI * INR k / INR N))%C)
    with 0%R by (simpl; field; assumption).
  replace (Im (- Ci * NtoC j * RtoC (2 * PI * INR k / INR N))%C)
    with (- (2 * PI * (INR j * INR k) / INR N))%R by (simpl; field; assumption).
  rewrite exp_0, cos_neg, sin_neg. f_equal; ring.
Qed.

Lemma Cexp_poly_entry (N j k : nat) :
  N <> 0 ->
  Cexp (Ci * NtoC j * RtoC (2 * PI * INR k / INR N))%C
  = Cconj (omega N (j * k)).
Proof.
  intros HN. apply INR_ne_0 in HN.
  unfold Cexp, omega, Cconj. rewrite mult_INR.
  replace (Re (Ci * NtoC j * RtoC (2 * PI * INR k / INR N))%C)
    with 0%R by (simpl; field; assumption).
  replace (Im (Ci * NtoC j * RtoC (2 * PI * INR k / INR N))%C)
    with (2 * PI * (INR j * INR k) / INR N)%R by (simpl; field; assumption).
  rewrite exp_0. simpl. f_equal; ring.
Qed.

Lemma length_x_vals N : length (x_vals N) = N.
Proof. unfold x_vals. now rewrite length_map, length_seq. Qed.

Lemma nth_x_vals N k :
  k < N -> nth k (x_vals N) 0%R = (2 * PI * INR k / INR N)%R.
Proof.
  intros H. unfold x_vals.
  exact (nth_map_seq (fun k => (2 * PI * INR k / INR N)%R) _ _ _ H).
Qed.

(** On the equispaced nodes the coefficients are the transform divided by
    the number of nodes. *)
Lemma get_coeffs_on_nodes (y : list C) :
  get_coeffs (x_vals (length y)) y
  = Ok (map (fun c => (RtoC (1 / INR (length y)) * c)%C) (DFT y)).
Proof.
  unfold get_coeffs. rewrite length_x_vals, Nat.eqb_refl. simpl negb.
  cbv iota. f_equal. rewrite DFT_sum, map_map.
  apply map_ext_in. intros j Hj. apply in_seq in Hj.
  rewrite fold_right_map_seq, <- csum_scal.
  apply csum_ext. intros k Hk.
  rewrite nth_x_vals, Cexp_coeff_entry by lia. ring.
Qed.

(** X8: on the equispaced nodes [2 pi k / N] the coefficients of
    [get_coeffs] are the entries of [DFT y] divided by [N]. *)
Theorem get_coeffs_is_scaled_DFT (y : list C) :
  get_coeffs (x_vals (length y)) y
  = Ok (map (fun c => (RtoC (1 / INR (length y)) * c)%C) (DFT y)).
Proof. exact (get_coeffs_on_nodes y). Qed.

(** X9: the polynomial [trig_interp] builds on the equispaced nodes takes
    the value [y[k]] at the node [x[k]], for every [k]: the interpolation
    condition of the notebook. *)
Theorem trig_interp_interpolates (y : list C) :
  exists T,
    trig_interp (x_vals (length y)) y = Ok T /\
    forall k, k < length y ->
      T (nth k (x_vals (length y)) 0%R) = item y k.
Proof.
  unfold trig_interp. rewrite get_coeffs_on_nodes. unfold bind.
  eexists. split; [reflexivity|].
  intros k Hk. cbv beta. rewrite length_x_vals.
  set (N := length y) in *. assert (HN : N <> 0) by lia.
  rewrite fold_left_Cadd, fold_right_map_seq.
  rewrite <- (roundtrip_entry y k Hk). fold N.
  transitivity (csum N (fun j =>
     (RtoC (/ INR N) * Cconj (omega N (j * k)) * item (DFT y) j)%C)).
  2:{ reflexivity. }
  rewrite <- (csum_ext N (fun j =>
     (RtoC (/ INR N) * Cconj (omega N (j * k)) * item (DFT y) j)%C)
     (fun j => (item (map (fun c => (RtoC (1 / INR N) * c)%C) (DFT y)) j
               * Cexp (Ci * NtoC j * RtoC (nth k (x_vals N) 0%R)))%C)).
  - ring.
  - intros j Hj. rewrite nth_x_vals, Cexp_poly_entry by lia.
    unfold item.
    rewrite (nth_indep (map (fun c => (RtoC (1 / INR N) * c)%C) (DFT y))
               C0 (RtoC (1 / INR N) * C0)%C)
      by now rewrite length_map, DFT_length.
    rewrite (map_nth (fun c => (RtoC (1 / INR N) * c)%C)).
    replace (1 / INR N)%R with (/ INR N)%R by (unfold Rdiv; ring).
    ring.
Qed.

Lemma Cexp_period (j : nat) (t : R) :
  Cexp (Ci * NtoC j * RtoC (t + 2 * PI))%C = Cexp (Ci * NtoC j * RtoC t)%C.
Proof.
  unfold Cexp.
  replace (Re (Ci * NtoC j * RtoC (t + 2 * PI))%C) with 0%R by (simpl; ring).
  replace (Re (Ci * NtoC j * RtoC t)%C) with 0%R by (simpl; ring).
  replace (Im (Ci * NtoC j * RtoC (t + 2 * PI))%C)
    with (INR j * t + 2 * INR j * PI)%R by (simpl; ring).
  replace (Im (Ci * NtoC j * RtoC t)%C) with (INR j * t)%R by (simpl; ring).
  now rewrite cos_period, sin_period.
Qed.

(** X10: whatever the nodes and values, the polynomial [trig_interp]
    returns has period [2 pi]. *)
Theorem trig_interp_periodic (x : list R) (y : list C) (T : R -> C) (t : R) :
  trig_interp x y = Ok T -> T (t + 2 * PI)%R = T t.
Proof.
  unfold trig_interp. destruct (get_coeffs x y) as [d|e]; [|discriminate].
  simpl. intros H. injection H as <-.
  f_equal. apply map_ext. intros j. now rewrite Cexp_period.
Qed.

Lemma trig_interp_periodic_witness :
  exists T,
    trig_interp [0; 1]%R [C1; Ci] = Ok T /\ T (1 + 2 * PI)%R = T 1%R.
Proof.
  eexists. split; [reflexivity|].
  exact (trig_interp_periodic [0; 1]%R [C1; Ci] _ 1%R eq_refl).
Defined.

End InterpFacts.

(** ** Further laws of the Poisson assembly *)

Module PoissonLaws.

Import Poisson PyFacts PoissonFacts PoissonNotions.

Lemma sys_stencil (m p q : nat) : sys m p q = stencil m p q.
Proof.
  unfold sys, stencil, tri, delta.
  set (i := p / m). set (k := p mod m). set (j := q / m). set (l := q mod m).
  destruct (Nat.eqb_spec i j); destruct (Nat.eqb_spec k l);
  destruct (Nat.eqb_spec (j + 1) i); destruct (Nat.eqb_spec j (i + 1));
  destruct (Nat.eqb_spec (i + 1) j); destruct (Nat.eqb_spec j i);
  destruct (Nat.eqb_spec (l + 1) k); destruct (Nat.eqb_spec l (k + 1));
  destruct (Nat.eqb_spec (k + 1) l); destruct (Nat.eqb_spec l k);
  try lia; simpl; ring.
Qed.

Lemma nth_mk (r c : nat) (f : nat -> nat -> R) (p q : nat) :
  p < r -> q < c -> nth q (nth p (mk r c f) []) 0%R = f p q.
Proof.
  intros Hp Hq. unfold mk.
  rewrite (nth_map_seq (fun i => map (fun j => f i j) (seq 0 c)) _ _ _ Hp).
  exact (nth_map_seq (fun j => f p j) _ _ _ Hq).
Qed.

Lemma setupSystemMatrix_N (N : Z) :
  (3 <= N)%Z ->
  setupSystemMatrix N
  = Ok (mk (Z.to_nat (N - 2) * Z.to_nat (N - 2))
           (Z.to_nat (N - 2) * Z.to_nat (N - 2)) (sys (Z.to_nat (N - 2)))).
Proof.
  intros HN. rewrite <- (setupSystemMatrix_mk (Z.to_nat (N - 2))) by lia.
  f_equal. lia.
Qed.

(** X11: for [N >= 3] the entries of the system matrix are the five-point
    stencil: 4 on the diagonal, -1 where the two unknowns are neighbours
    in a row or in a column of the grid, 0 elsewhere. *)
Theorem setupSystemMatrix_five_point_stencil (N : Z) :
  (3 <= N)%Z ->
  let m := Z.to_nat (N - 2) in
  exists A,
    setupSystemMatrix N = Ok A /\
    forall p q, p < m * m -> q < m * m ->
      nth q (nth p A []) 0%R = stencil m p q.
Proof.
  intros HN m. eexists. split; [apply (setupSystemMatrix_N N HN)|].
  intros p q Hp Hq. fold m. rewrite nth_mk by assumption.
  apply sys_stencil.
Qed.

Lemma setupSystemMatrix_five_point_stencil_witness :
  (3 <= 5)%Z /\
  exists A, setupSystemMatrix 5 = Ok A /\
    nth 4 (nth 4 A []) 0%R = 4%R /\ nth 5 (nth 4 A []) 0%R = (-1)%R /\
    nth 2 (nth 3 A []) 0%R = 0%R.
Proof.
  assert (H : (3 <= 5)%Z) by lia. split; [exact H|].
  destruct (setupSystemMatrix_five_point_stencil 5 H) as (A & E & V).
  exists A. split; [exact E|]. change (Z.to_nat (5 - 2)) with 3 in V.
  repeat split.
  - exact (V 4 4 ltac:(simpl; lia) ltac:(simpl; lia)).
  - exact (V 4 5 ltac:(simpl; lia) ltac:(simpl; lia)).
  - exact (V 3 2 ltac:(simpl; lia) ltac:(simpl; lia)).
Defined.

(** X12: for [N <= 2] [setupSystemMatrix] raises [ValueError]: the
    off-diagonals of the stencil do not fit the shape. *)
Theorem setupSystemMatrix_small (N : Z) :
  (N <= 2)%Z -> setupSystemMatrix N = Raise ValueError.
Proof.
  intros HN. unfold setupSystemMatrix, diags. simpl length. simpl negb.
  cbv iota.
  replace (existsb _ _) with true; [reflexivity|].
  symmetry. cbn [existsb]. 
  destruct (Z.ltb_spec (Z.min (Z.min (N - 2 + -1) (N - 2 - -1))
                              (Z.min (N - 2) (N - 2))) 0) as [H|H];
    [reflexivity|lia].
Qed.

Lemma setupSystemMatrix_small_witness :
  (2 <= 2)%Z /\ setupSystemMatrix 2 = Raise ValueError.
Proof.
  assert (H : (2 <= 2)%Z) by lia. split; [exact H|].
  exact (setupSystemMatrix_small 2 H).
Defined.

(** *** The system has at most one solution *)

Lemma bil_diff_zero (n : nat) (a : nat -> nat -> R) (u v : nat -> R) :
  (forall p, p < n ->
     rsum n (fun q => (a p q * u q)%R) = rsum n (fun q => (a p q * v q)%R)) ->
  bil n a (fun p => (u p - v p)%R) (fun p => (u p - v p)%R) = 0%R.
Proof.
  intros H. unfold bil. apply rsum_none. intros p Hp.
  rewrite (rsum_ext n _ (fun q => (a p q * u q + - (a p q * v q))%R))
    by (intros; ring).
  rewrite rsum_add, rsum_opp, (H p Hp). ring.
Qed.

(** X13: for [N >= 3] the system matrix is injective: two vectors with
    the same image are equal, so the linear system of the notebook has at
    most one solution. *)
Theorem setupSystemMatrix_injective (N : Z) :
  (3 <= N)%Z ->
  exists A,
    setupSystemMatrix N = Ok A /\
    forall u v : vector,
      length u = Z.to_nat (N - 2) * Z.to_nat (N - 2) ->
      length v = Z.to_nat (N - 2) * Z.to_nat (N - 2) ->
      mvec A u = mvec A v -> u = v.
Proof.
  intros HN. eexists. split; [apply (setupSystemMatrix_N N HN)|].
  set (m := Z.to_nat (N - 2)). intros u v Hu Hv E.
  apply (nth_ext _ _ 0%R 0%R); [lia|]. intros p Hp. rewrite Hu in Hp.
  destruct (Req_dec (nth p u 0%R) (nth p v 0%R)) as [|Hne]; [assumption|].
  exfalso.
  pose proof (bil_sys_pos m (fun p => (nth p u 0 - nth p v 0)%R) p Hp
                ltac:(cbv beta; lra)) as Hpos.
  rewrite (bil_diff_zero (m * m) (sys m)
             (fun p => nth p u 0%R) (fun p => nth p v 0%R)) in Hpos;
    [lra|].
  intros r Hr.
  rewrite <- (mvec_mk_nth (m * m) (m * m) (sys m) u r Hu Hr).
  rewrite <- (mvec_mk_nth (m * m) (m * m) (sys m) v r Hv Hr).
  now rewrite E.
Qed.

Lemma setupSystemMatrix_injective_witness :
  (3 <= 3)%Z /\
  exists A, setupSystemMatrix 3 = Ok A /\
    (mvec A [2]%R = mvec A [2]%R -> [2]%R = [2]%R).
Proof.
  assert (H : (3 <= 3)%Z) by lia. split; [exact H|].
  destruct (setupSystemMatrix_injective 3 H) as (A & E & I).
  exists A. split; [exact E|]. exact (I [2]%R [2]%R eq_refl eq_refl).
Defined.

(** *** When [setupRHSVector] succeeds *)

Lemma slice_update_length {A : Type} (op : A -> A -> A) (arr : list A)
    (s : slice) (vals r : list A) :
  slice_update op arr s vals = Ok r -> length r = length arr.
Proof.
  unfold slice_update.
  destruct (slice_indices s (length arr)) as [idx|e]; [|discriminate].
  simpl. destruct (broadcast vals (length idx)) as [vs|e]; [|discriminate].
  simpl. intros H. injection H as <-.
  apply (length_fold_store op).
Qed.

Lemma slice_update_mismatch {A : Type} (op : A -> A -> A) (arr : list A)
    (s : slice) (vals : list A) (idx : list nat) :
  slice_indices s (length arr) = Ok idx ->
  length vals <> length idx -> length vals <> 1 ->
  slice_update op arr s vals = Raise ValueError.
Proof.
  intros Hidx H1 H2. unfold slice_update. rewrite Hidx. simpl.
  unfold broadcast. destruct (Nat.eqb_spec (length vals) (length idx));
    [contradiction|].
  destruct vals as [|v [|v' vals]]; simpl in *; try reflexivity. lia.
Qed.

Lemma slice_update_broadcast {A : Type} (op : A -> A -> A) (arr : list A)
    (s : slice) (vals : list A) (idx : list nat) :
  slice_indices s (length arr) = Ok idx ->
  length vals = 1 ->
  exists r, slice_update op arr s vals = Ok r.
Proof.
  intros Hidx H1. unfold slice_update. rewrite Hidx. simpl.
  unfold broadcast. destruct (length vals =? length idx); simpl;
    [eexists; reflexivity|].
  destruct vals as [|v [|v' vals]]; simpl in *; try lia.
  eexists; reflexivity.
Qed.

Lemma evalSource_shape (N : Z) (source : R -> R -> R) (xVals yVals : list R) :
  evalSource N source xVals yVals
  = if (Z.of_nat (length xVals * length yVals) =? (N - 2) ^ 2)%Z
    then Ok (concat (map (fun i =>
               map (fun j => source (nth i xVals 0%R) (nth j yVals 0%R))
                   (seq 0 (length yVals))) (seq 0 (length xVals))))
    else Raise ValueError.
Proof.
  unfold evalSource.
  now rewrite (length_grid (fun i j => source (nth i xVals 0%R) (nth j yVals 0%R))).
Qed.

Lemma setupRHSVector_mismatch (m : nat) (xVals yVals : list R)
    (source : R -> R -> R) (bot right top left : R -> R) :
  1 <= m -> ~ (length xVals = m /\ length yVals = m) ->
  setupRHSVector (Z.of_nat m + 2) xVals yVals source bot right top left
  = Raise ValueError.
Proof.
  intros Hm Hne. unfold setupRHSVector. rewrite evalSource_shape.
  replace ((Z.of_nat m + 2 - 2) ^ 2)%Z with (Z.of_nat (m * m)) by nia.
  destruct (Z.eqb_spec (Z.of_nat (length xVals * length yVals))
                       (Z.of_nat (m * m))) as [E|E]; [|reflexivity].
  apply Nat2Z.inj in E. unfold bind at 1.
  replace (Z.of_nat m + 2 - 2)%Z with (Z.of_nat m) by lia.
  replace (Z.of_nat m + 2 - 3)%Z with (Z.of_nat m - 1)%Z by lia.
  rewrite Nat2Z.id.
  assert (L0 : length (zeros (m * m)) = m * m) by apply repeat_length.
  set (s := concat _).
  assert (Ls : length s = m * m).
  { unfold s.
    rewrite (length_grid (fun i j => source (nth i xVals 0%R) (nth j yVals 0%R))).
    exact E. }
  destruct (iadd_spec (zeros (m * m)) (Slice None None None) s
              (fun q => q) (m * m)
              (fun p => if p <? m * m then Some p else None))
    as (b1 & E1 & L1 & _).
  { rewrite L0. apply slice_full. }
  { exact Ls. }
  { intros q Hq. rewrite L0. split; [assumption|].
    destruct (Nat.ltb_spec q (m * m)); [reflexivity|lia]. }
  { intros p q. destruct (Nat.ltb_spec p (m * m)); [|discriminate].
    intros H'; injection H' as <-. split; [assumption|reflexivity]. }
  rewrite E1. unfold bind at 1. rewrite L0 in L1.
  assert (Lbot : length (evalBot bot xVals) = length xVals)
    by (unfold evalBot; now rewrite length_map, length_seq).
  assert (Lright : length (evalRight right yVals) = length yVals)
    by (unfold evalRight; now rewrite length_map, length_seq).
  assert (Ibot : slice_indices (Slice None (Some (Z.of_nat m)) None)
                   (length b1) = Ok (map (fun q => q) (seq 0 m)))
    by (rewrite L1; now apply slice_bot).
  assert (Hx : length xVals <> m) by (intros Hx; apply Hne; split; nia).
  destruct (Nat.eq_dec (length xVals) 1) as [X1|X1].
  - (* one x value is broadcast along the bottom row; the right column
       then gets [m * m] values *)
    destruct (slice_update_broadcast Rplus b1 _ (evalBot bot xVals) _ Ibot)
      as [b2 E2]; [lia|].
    unfold iadd at 1. rewrite E2. unfold bind at 1.
    pose proof (slice_update_length _ _ _ _ _ E2) as L2. rewrite L1 in L2.
    unfold iadd at 1.
    rewrite (slice_update_mismatch Rplus b2 _ (evalRight right yVals)
               (map (fun q => m - 1 + q * m) (seq 0 m))).
    + reflexivity.
    + rewrite L2. now apply slice_right.
    + rewrite length_map, length_seq, Lright. nia.
    + rewrite Lright. nia.
  - unfold iadd at 1.
    rewrite (slice_update_mismatch Rplus b1 _ (evalBot bot xVals) _ Ibot).
    + reflexivity.
    + rewrite length_map, length_seq, Lbot. exact Hx.
    + rewrite Lbot. exact X1.
Qed.

(** X14: for [N >= 3] [setupRHSVector] returns a vector, of [(N-2)^2]
    entries, exactly when both grid lists have [N - 2] values; on any
    other lists it raises [ValueError]. *)
Theorem setupRHSVector_succeeds_iff (N : Z) (xVals yVals : list R)
    (source : R -> R -> R) (bot right top left : R -> R) :
  (3 <= N)%Z ->
  let m := Z.to_nat (N - 2) in
  (length xVals = m /\ length yVals = m ->
   exists b, setupRHSVector N xVals yVals source bot right top left = Ok b
             /\ length b = m * m) /\
  (~ (length xVals = m /\ length yVals = m) ->
   setupRHSVector N xVals yVals source bot right top left
   = Raise ValueError).
Proof.
  intros HN m. assert (Hm : 1 <= m) by (unfold m; lia).
  assert (EN : N = (Z.of_nat m + 2)%Z) by (unfold m; lia).
  split.
  - intros [Hx Hy].
    destruct (setupRHSVector_entries m xVals yVals source bot right top left
                Hm Hx Hy) as (s & b & _ & E & L & _).
    rewrite <- EN in E. exists b. split; assumption.
  - intros Hne. rewrite EN. now apply setupRHSVector_mismatch.
Qed.

Lemma setupRHSVector_succeeds_iff_witness :
  (3 <= 4)%Z /\
  setupRHSVector 4 [1; 2; 3]%R [1; 2]%R (fun _ _ => 0%R) sin sin sin sin
  = Raise ValueError.
Proof.
  assert (H : (3 <= 4)%Z) by lia. split; [exact H|].
  apply (proj2 (setupRHSVector_succeeds_iff 4 [1; 2; 3]%R [1; 2]%R
                  (fun _ _ => 0%R) sin sin sin sin H)).
  simpl. lia.
Defined.

(** *** The flattened source array *)

(** X15: [evalSource] returns exactly when the two lists have [(N-2)^2]
    pairs, and raises [ValueError] otherwise; the value for the pair
    [(xVals[i], yVals[j])] is stored at position [i * len(yVals) + j]. *)
Theorem evalSource_layout (N : Z) (source : R -> R -> R) (xVals yVals : list R) :
  ((Z.of_nat (length xVals * length yVals) = (N - 2) ^ 2)%Z ->
   exists s,
     evalSource N source xVals yVals = Ok s /\
     length s = length xVals * length yVals /\
     forall i j, i < length xVals -> j < length yVals ->
       nth (i * length yVals + j) s 0%R
       = source (nth i xVals 0%R) (nth j yVals 0%R)) /\
  ((Z.of_nat (length xVals * length yVals) <> (N - 2) ^ 2)%Z ->
   evalSource N source xVals yVals = Raise ValueError).
Proof.
  rewrite evalSource_shape. split; intros H.
  - apply Z.eqb_eq in H. rewrite H. eexists. split; [reflexivity|].
    split.
    + apply (length_grid (fun i j => source (nth i xVals 0%R) (nth j yVals 0%R))).
    + intros i j Hi Hj.
      rewrite (nth_grid (fun i j => source (nth i xVals 0%R) (nth j yVals 0%R)))
        by nia.
      destruct (divmod_grid (length yVals) i j Hj) as [-> ->]. reflexivity.
  - apply Z.eqb_neq in H. now rewrite H.
Qed.

(** *** The grid of the notebook *)

Lemma length_gridVals (d : R) (N : Z) :
  length (gridVals d N) = Z.to_nat (N - 2).
Proof.
  unfold gridVals, range. rewrite !length_map, length_seq. lia.
Qed.

Lemma nth_gridVals (d : R) (N : Z) (i : nat) :
  i < Z.to_nat (N - 2) ->
  nth i (gridVals d N) 0%R = (INR (i + 1) * d)%R.
Proof.
  intros Hi. unfold gridVals, range. rewrite map_map.
  replace (Z.to_nat (N - 1 - 1)) with (Z.to_nat (N - 2)) by lia.
  rewrite (nth_map_seq (fun x => (IZR (1 + Z.of_nat x) * d)%R) _ _ _ Hi).
  f_equal. rewrite INR_IZR_INZ. f_equal. lia.
Qed.

(** X16: for [N >= 3] and [L > 0], with the spacing [d = L/(N-1)], the
    grid list has [N - 2] points; they start at [d], go up in steps of
    [d], end at [L - d] and lie strictly inside [(0, L)]. *)
Theorem gridVals_interior (L : R) (N : Z) :
  (3 <= N)%Z -> (0 < L)%R ->
  let d := (L / IZR (N - 1))%R in
  let x := gridVals d N in
  length x = Z.to_nat (N - 2) /\
  nth 0 x 0%R = d /\
  (nth (Z.to_nat (N - 3)) x 0 + d = L)%R /\
  (forall i, i < Z.to_nat (N - 2) -> (0 < nth i x 0 < L)%R) /\
  (forall i, i + 1 < Z.to_nat (N - 2) ->
     (nth (i + 1) x 0 = nth i x 0 + d)%R).
Proof.
  intros HN HL d x.
  assert (HN1 : (0 < IZR (N - 1))%R) by (apply IZR_lt; lia).
  assert (Hd : (0 < d)%R) by (unfold d; apply Rdiv_lt_0_compat; lra).
  assert (HdL : (d * IZR (N - 1) = L)%R) by (unfold d; field; lra).
  split; [apply length_gridVals|].
  split; [unfold x; rewrite nth_gridVals by lia; simpl; ring|].
  split.
  { unfold x. rewrite nth_gridVals by lia. rewrite <- HdL.
    rewrite INR_IZR_INZ.
    replace (Z.of_nat (Z.to_nat (N - 3) + 1)) with (N - 2)%Z by lia.
    replace (N - 1)%Z with (N - 2 + 1)%Z by lia. rewrite plus_IZR. ring. }
  split.
  - intros i Hi. unfold x. rewrite nth_gridVals by assumption.
    assert (H1 : (0 < INR (i + 1))%R) by (apply lt_0_INR; lia).
    assert (H2 : (INR (i + 1) < IZR (N - 1))%R).
    { rewrite INR_IZR_INZ. apply IZR_lt. lia. }
    split; [apply Rmult_lt_0_compat; assumption|].
    rewrite <- HdL. rewrite (Rmult_comm d). apply Rmult_lt_compat_r; assumption.
  - intros i Hi. unfold x. rewrite !nth_gridVals by lia.
    rewrite (plus_INR (i + 1) 1). simpl (INR 1). ring.
Qed.

Lemma gridVals_interior_witness :
  (3 <= 4)%Z /\ (0 < 1)%R /\
  length (gridVals (1 / IZR (4 - 1)) 4) = 2 /\
  nth 0 (gridVals (1 / IZR (4 - 1)) 4) 0%R = (1 / IZR (4 - 1))%R.
Proof.
  assert (H : (3 <= 4)%Z) by lia. assert (H' : (0 < 1)%R) by lra.
  split; [exact H|]. split; [exact H'|].
  destruct (gridVals_interior 1 4 H H') as (E1 & E2 & _).
  split; [exact E1|exact E2].
Defined.

(** X17: on the grid lists the notebook builds, for any spacing and any
    [N >= 3], [setupRHSVector] returns a vector of [(N-2)^2] entries. *)
Theorem setupRHSVector_on_grid (N : Z) (d : R)
    (source : R -> R -> R) (bot right top left : R -> R) :
  (3 <= N)%Z ->
  exists b,
    setupRHSVector N (gridVals d N) (gridVals d N) source bot right top left
    = Ok b /\
    length b = Z.to_nat (N - 2) * Z.to_nat (N - 2).
Proof.
  intros HN. set (m := Z.to_nat (N - 2)).
  destruct (setupRHSVector_entries m (gridVals d N) (gridVals d N)
              source bot right top left)
    as (s & b & _ & E & L & _);
    [unfold m; lia|apply length_gridVals|apply length_gridVals|].
  replace (Z.of_nat m + 2)%Z with N in E by (unfold m; lia).
  exists b. split; assumption.
Qed.

Lemma setupRHSVector_on_grid_witness :
  (3 <= 20)%Z /\
  exists b,
    setupRHSVector 20 (gridVals (1 / 19) 20) (gridVals (1 / 19) 20)
      (fun _ _ => (1 / 10)%R) sin sin (fun _ => 0%R) (fun _ => 0%R) = Ok b /\
    length b = 324.
Proof.
  assert (H : (3 <= 20)%Z) by lia. split; [exact H|].
  exact (setupRHSVector_on_grid 20 (1 / 19) (fun _ _ => (1 / 10)%R) sin sin
           (fun _ => 0%R) (fun _ => 0%R) H).
Defined.

(** X18: for [N >= 3], boundary values reach only the unknowns next to an
    edge: an unknown whose row and column are both strictly inside the
    grid carries the source value alone, and when the four boundary
    functions vanish the vector is the source array. *)
Theorem setupRHSVector_frame (N : Z) (xVals yVals : list R)
    (source : R -> R -> R) (bot right top left : R -> R) :
  (3 <= N)%Z ->
  length xVals = Z.to_nat (N - 2) ->
  length yVals = Z.to_nat (N - 2) ->
  let m := Z.to_nat (N - 2) in
  exists s b,
    evalSource N source xVals yVals = Ok s /\
    setupRHSVector N xVals yVals source bot right top left = Ok b /\
    (forall p, p < m * m ->
       0 < p / m < m - 1 -> 0 < p mod m < m - 1 ->
       nth p b 0%R = nth p s 0%R) /\
    ((forall t, bot t = 0%R) -> (forall t, right t = 0%R) ->
     (forall t, top t = 0%R) -> (forall t, left t = 0%R) -> b = s).
Proof.
  intros HN Hx Hy m.
  assert (Hm : 1 <= m) by (unfold m; lia).
  destruct (setupRHSVector_entries m xVals yVals source bot right top left
              Hm Hx Hy) as (s & b & Es & Eb & L & V).
  replace (Z.of_nat m + 2)%Z with N in Es, Eb by (unfold m; lia).
  exists s, b. split; [exact Es|]. split; [exact Eb|].
  assert (Ls : length s = m * m).
  { replace N with (Z.of_nat m + 2)%Z in Es by (unfold m; lia).
    rewrite (evalSource_grid m) in Es by assumption. injection Es as <-.
    apply (length_grid (fun i j => source (nth i xVals 0%R) (nth j yVals 0%R))). }
  split.
  - intros p Hp Hr Hc. rewrite V by assumption.
    assert (Hdm := Nat.div_mod_eq p m).
    destruct (Nat.ltb_spec p m) as [H1|_].
    { rewrite Nat.div_small in Hr by assumption. lia. }
    destruct (Nat.eqb_spec (p mod m) (m - 1)); [lia|].
    destruct (Nat.leb_spec ((m - 1) * m) p) as [H3|_].
    { assert (m - 1 <= p / m) by (apply Nat.div_le_lower_bound; lia). lia. }
    destruct (Nat.eqb_spec (p mod m) 0); [lia|]. ring.
  - intros Hb Hr Ht Hl. apply (nth_ext _ _ 0%R 0%R); [lia|].
    intros p Hp. rewrite L in Hp. rewrite V by assumption.
    rewrite Hb, Hr, Ht, Hl.
    destruct (p <? m); destruct (p mod m =? m - 1);
    destruct ((m - 1) * m <=? p); destruct (p mod m =? 0); ring.
Qed.

Lemma setupRHSVector_frame_witness :
  (3 <= 5)%Z /\
  exists s b,
    evalSource 5 (fun x y => (x + y)%R) (gridVals (/ 4) 5) (gridVals (/ 4) 5)
    = Ok s /\
    setupRHSVector 5 (gridVals (/ 4) 5) (gridVals (/ 4) 5)
      (fun x y => (x + y)%R) sin sin sin sin = Ok b /\
    nth 4 b 0%R = nth 4 s 0%R.
Proof.
  assert (H : (3 <= 5)%Z) by lia. split; [exact H|].
  destruct (setupRHSVector_frame 5 (gridVals (/ 4) 5) (gridVals (/ 4) 5)
              (fun x y => (x + y)%R) sin sin sin sin H eq_refl eq_refl)
    as (s & b & Es & Eb & I & _).
  exists s, b. split; [exact Es|]. split; [exact Eb|].
  apply I; simpl; lia.
Defined.

(** X19: with [N = 2] [setupRHSVector] raises [ValueError] on every pair
    of lists: either the source array has the wrong size, or a boundary
    list cannot be broadcast, or the strided slice has step 0. *)
Theorem setupRHSVector_N2 (xVals yVals : list R)
    (source : R -> R -> R) (bot right top left : R -> R) :
  setupRHSVector 2 xVals yVals source bot right top left = Raise ValueError.
Proof.
  unfold setupRHSVector. rewrite evalSource_shape.
  change ((2 - 2) ^ 2)%Z with 0%Z.
  destruct (Z.eqb_spec (Z.of_nat (length xVals * length yVals)) 0)
    as [E|E]; [|reflexivity].
  set (s := concat _).
  assert (Hs : s = []).
  { apply length_zero_iff_nil. unfold s.
    rewrite (length_grid (fun i j => source (nth i xVals 0%R) (nth j yVals 0%R))).
    lia. }
  rewrite Hs. cbn.
  unfold evalBot. destruct xVals as [|v [|v' xVals]]; reflexivity.
Qed.

End PoissonLaws.
